(** * The statefun cache: a shallow embedding of [statefun/cache/cache.go]

    The cache is a tree of [CacheStoreValue] nodes keyed by the tokens of a
    dotted key, sitting between the stateful functions and a NATS key/value
    bucket.  This development embeds the node state machine, the watcher
    ([storeUpdatesHandler]), the lazy writer ([kvLazyWriter]) and the query
    surface ([GetValue], [SetValue], [DeleteValue], [GetKeysByPattern]) and
    states the properties of the cache engine over that embedding.

    Representation choices, fixed once for the whole file:

    - an [int64] or [int] is a [Z]; the only conversions between signed and
      unsigned words are those of the wire header and are written out;
    - a [[]byte] is a [list byte], the nil slice being the empty list;
    - a [*CacheStoreValue] is the list of tokens leading from [rootValue] to
      the node ([ptr]); [csv.parent] is that list without its last token and
      [csv.keyInParent] is the last token.  The children map owns the nodes,
      as [store] does in the source;
    - a subscriber channel is the list of the messages sent to it so far;
    - [system.GetCurrentTimeNs()] is the argument [now] of each operation:
      all readings of the clock during one call are taken as one value;
    - the goroutines run one whole operation at a time; a goroutine started
      with [go] is queued in [pendingGC] and run by [runPendingGC];
    - Go iterates a map in an unspecified order; the model iterates in the
      order of [map_to_list]. *)

From stdpp Require Import gmap strings list fin_maps sorting.
From Stdlib Require Import ZArith Lia.
From Stdlib.Strings Require Import Byte Ascii.

Set Warnings "-register-all,-clear-no-such-hyp".

Local Open Scope Z_scope.

(** ** Byte strings and the wire header *)

Module Wire.

Definition byte_to_Z (b : byte) : Z := Z.of_N (Byte.to_N b).

Definition byte_of_Z (z : Z) : byte :=
  match Byte.of_N (Z.to_N (z mod 256)) with
  | Some b => b
  | None => x00
  end.

(** [binary.BigEndian.Uint64(b)] on the first eight bytes of [b]. *)
Definition Uint64 (b : list byte) : Z :=
  fold_left (fun acc x => acc * 256 + byte_to_Z x) (take 8 b) 0.

(** The conversion [int64(u)] of an unsigned 64-bit word. *)
Definition int64 (u : Z) : Z :=
  let u := u mod 2 ^ 64 in
  if u <? 2 ^ 63 then u else u - 2 ^ 64.

(** The conversion [uint64(t)] of a signed 64-bit word. *)
Definition uint64 (t : Z) : Z := t mod 2 ^ 64.

(** [binary.BigEndian.PutUint64(timeBytes, u)] on a fresh 8-byte slice. *)
Definition PutUint64 (u : Z) : list byte :=
  map (fun k => byte_of_Z (Z.shiftr u (8 * k))) [7; 6; 5; 4; 3; 2; 1; 0].

(** [len(valueBytes)] as an [int]. *)
Definition len (b : list byte) : Z := Z.of_nat (length b).

(** [valueBytes[9:]], which panics when the slice is shorter than 9. *)
Definition slice_from_9 (b : list byte) : option (list byte) :=
  if 9 <=? len b then Some (drop 9 b) else None.

(** [valueBytes[8]], which panics when the slice is shorter than 9. *)
Definition index_8 (b : list byte) : option byte := b !! 8%nat.

(** [valueBytes[:8]], which panics when the capacity is below 8. *)
Definition slice_to_8 (b : list byte) : option (list byte) :=
  if 8 <=? len b then Some (take 8 b) else None.

(** The frame the lazy writer sends: time, flag, payload. *)
Definition frame (t : Z) (flag : byte) (payload : list byte) : list byte :=
  PutUint64 (uint64 t) ++ [flag] ++ payload.

End Wire.

(** ** The string functions of the Go library the cache uses *)

Module Strs.

Definition dot : ascii := "."%char.

(** [strings.Split(s, ".")]: never empty, one more piece than dots. *)
Fixpoint Split (s : string) : list string :=
  match s with
  | EmptyString => [EmptyString]
  | String c r =>
      if Ascii.eqb c dot then EmptyString :: Split r
      else match Split r with
           | t :: ts => String c t :: ts
           | [] => [String c EmptyString]
           end
  end.

Fixpoint drop_chars (n : nat) (s : string) : string :=
  match n, s with
  | O, _ => s
  | S m, String _ r => drop_chars m r
  | S _, EmptyString => EmptyString
  end.

(** [strings.Replace(s, old, "", 1)]: the first occurrence of [old] is
    cut out of [s]. *)
Fixpoint Replace1 (s old : string) : string :=
  if String.prefix old s then drop_chars (String.length old) s
  else match s with
       | EmptyString => EmptyString
       | String c r => String c (Replace1 r old)
       end.

(** [pattern[:len(pattern)-1]]. *)
Definition init (s : string) : string :=
  String.substring 0 (String.length s - 1) s.

(** [len(s)] as an [int]. *)
Definition len (s : string) : Z := Z.of_nat (String.length s).

Definition nl : string := String (Ascii.ascii_of_nat 10) EmptyString.

End Strs.

(** ** Tree nodes *)

(** [type KeyValue struct { Key any; Value any }]: every key the cache sends
    is a token, every value a byte slice or nil. *)
Record KeyValue := mkKeyValue {
  Key : string;
  Value : option (list byte)
}.

(** [type CacheStoreValue struct].  [parent] and [keyInParent] are given by
    the position of the node ([ptr] below); [storeMutex] has no content in a
    model where operations do not interleave. *)
Inductive CacheStoreValue := mkCSV {
  value : option (list byte);
  valueExists : bool;
  purgeState : Z;
  store : gmap string CacheStoreValue;
  storeConsistencyWithKVLossTime : Z;
  valueUpdateTime : Z;
  notifyUpdates : gmap string (list KeyValue);
  syncNeeded : bool;
  syncedWithKV : bool
}.

Definition set_store (s : gmap string CacheStoreValue) (n : CacheStoreValue) :=
  mkCSV (value n) (valueExists n) (purgeState n) s
        (storeConsistencyWithKVLossTime n) (valueUpdateTime n)
        (notifyUpdates n) (syncNeeded n) (syncedWithKV n).

Definition set_purgeState (p : Z) (n : CacheStoreValue) :=
  mkCSV (value n) (valueExists n) p (store n)
        (storeConsistencyWithKVLossTime n) (valueUpdateTime n)
        (notifyUpdates n) (syncNeeded n) (syncedWithKV n).

Definition set_lossTime (t : Z) (n : CacheStoreValue) :=
  mkCSV (value n) (valueExists n) (purgeState n) (store n)
        t (valueUpdateTime n)
        (notifyUpdates n) (syncNeeded n) (syncedWithKV n).

Definition set_notifyUpdates (s : gmap string (list KeyValue)) (n : CacheStoreValue) :=
  mkCSV (value n) (valueExists n) (purgeState n) (store n)
        (storeConsistencyWithKVLossTime n) (valueUpdateTime n)
        s (syncNeeded n) (syncedWithKV n).

Definition set_syncNeeded (b : bool) (n : CacheStoreValue) :=
  mkCSV (value n) (valueExists n) (purgeState n) (store n)
        (storeConsistencyWithKVLossTime n) (valueUpdateTime n)
        (notifyUpdates n) b (syncedWithKV n).

Definition set_syncedWithKV (b : bool) (n : CacheStoreValue) :=
  mkCSV (value n) (valueExists n) (purgeState n) (store n)
        (storeConsistencyWithKVLossTime n) (valueUpdateTime n)
        (notifyUpdates n) (syncNeeded n) b.

(** A pointer to a node: the tokens from the root down to it. *)
Definition ptr := list string.

(** [csv.parent]: nil for the root. *)
Definition parent (csv : ptr) : option ptr :=
  match csv with
  | [] => None
  | _ => Some (removelast csv)
  end.

(** [csv.keyInParent]. *)
Definition keyInParent (csv : ptr) : string := default EmptyString (last csv).

(** Dereferencing a pointer in the tree rooted at [root]. *)
Fixpoint getNode (p : ptr) (root : CacheStoreValue) : option CacheStoreValue :=
  match p with
  | [] => Some root
  | k :: r =>
      match store root !! k with
      | Some c => getNode r c
      | None => None
      end
  end.

(** Writing through a pointer: [f] is applied to the node [p] points to. *)
Fixpoint update (p : ptr) (f : CacheStoreValue -> CacheStoreValue)
    (root : CacheStoreValue) : CacheStoreValue :=
  match p with
  | [] => f root
  | k :: r =>
      match store root !! k with
      | Some c => set_store (<[k := update r f c]> (store root)) root
      | None => root
      end
  end.

(** The number of nodes of a tree: the fuel a walk of it needs. *)
Fixpoint nsize (n : CacheStoreValue) : nat :=
  S (map_fold (fun _ c acc => (nsize c + acc)%nat) 0%nat (store n)).

(** The number of nodes below a pointer, the node it names included. *)
Definition subtreeSize (p : ptr) (root : CacheStoreValue) : nat :=
  default 0%nat (nsize <$> getNode p root).

(** The number of nodes below the pointers of a list. *)
Definition pathsSize (ps : list ptr) (root : CacheStoreValue) : nat :=
  sum_list ((fun p => subtreeSize p root) <$> ps).

(** [notifySubscriber] on every channel of [csv.notifyUpdates]: the message
    reaches the channel at once or from a goroutine of its own; either way
    it is sent. *)
Definition notifySubscribers (key : string) (v : option (list byte))
    (n : CacheStoreValue) : CacheStoreValue :=
  set_notifyUpdates ((fun c => c ++ [mkKeyValue key v]) <$> notifyUpdates n) n.

(** [func (csv *CacheStoreValue) GetFullKeyString() string]: the recursion
    on [csv.parent], which ends at the root after as many steps as the
    pointer has tokens.  The key of the root in its parent is nil, not a
    string, so the root gives the empty string. *)
Fixpoint GetFullKeyString_up (depth : nat) (csv : ptr) : string :=
  match parent csv with
  | Some par =>
      match depth with
      | O => EmptyString
      | S d =>
          let prefix := GetFullKeyString_up d par in
          if 0 <? Strs.len prefix
          then GetFullKeyString_up d par +:+ "." +:+ keyInParent csv
          else keyInParent csv
      end
  | None => EmptyString
  end.

Definition GetFullKeyString (csv : ptr) : string :=
  GetFullKeyString_up (length csv) csv.

(** The first statement of [ConsistencyLoss]: the loss time of the node is
    replaced when [lossTime] is greater. *)
Definition raiseLoss (lossTime : Z) (n : CacheStoreValue) : CacheStoreValue :=
  if storeConsistencyWithKVLossTime n <? lossTime
  then set_lossTime lossTime n else n.

(** [func (csv *CacheStoreValue) ConsistencyLoss(lossTime int64)] *)
Fixpoint ConsistencyLoss_up (depth : nat) (lossTime : Z) (csv : ptr)
    (root : CacheStoreValue) : CacheStoreValue :=
  let root := update csv (raiseLoss lossTime) root in
  match depth with
  | O => root
  | S d => ConsistencyLoss_up d lossTime (removelast csv) root
  end.

(** The recursion on [csv.parent] ends at the root, after as many steps as
    the pointer has tokens. *)
Definition ConsistencyLoss (lossTime : Z) (csv : ptr) (root : CacheStoreValue)
    : CacheStoreValue :=
  ConsistencyLoss_up (length csv) lossTime csv root.

(** [func (csv *CacheStoreValue) ValueExists() bool] *)
Definition ValueExists (n : CacheStoreValue) : bool := valueExists n.

(** [func (csv *CacheStoreValue) LoadChild(key any, safe bool)] *)
Definition LoadChild (csv : ptr) (key : string) (root : CacheStoreValue)
    : option ptr :=
  match getNode csv root with
  | Some n =>
      match store n !! key with
      | Some _ => Some (csv ++ [key])
      | None => None
      end
  | None => None
  end.

(** [func (csv *CacheStoreValue) StoreChild(key any, child *CacheStoreValue, safe bool)] *)
Definition StoreChild (csv : ptr) (key : string) (child : CacheStoreValue)
    (root : CacheStoreValue) : CacheStoreValue :=
  update csv (fun n =>
    notifySubscribers key (value child)
      (set_store (<[key := child]> (store n)) n)) root.

(** [func (csv *CacheStoreValue) Put(value any, updateInKV bool, customPutTime int64)] *)
Definition Put_fields (v : list byte) (updateInKV : bool) (t : Z)
    (n : CacheStoreValue) : CacheStoreValue :=
  mkCSV (Some v) true 0 (store n) (storeConsistencyWithKVLossTime n) t
        (notifyUpdates n) updateInKV (negb updateInKV).

Definition Put (csv : ptr) (v : list byte) (updateInKV : bool)
    (customPutTime now : Z) (root : CacheStoreValue) : CacheStoreValue :=
  let customPutTime := if customPutTime <? 0 then now else customPutTime in
  let root := update csv (Put_fields v updateInKV customPutTime) root in
  match parent csv with
  | Some par => update par (notifySubscribers (keyInParent csv) (Some v)) root
  | None => root
  end.

(** [func (csv *CacheStoreValue) TryPurgeReady(safe bool) bool] *)
Definition TryPurgeReady (n : CacheStoreValue) : CacheStoreValue * bool :=
  if purgeState n =? 0 then (set_purgeState 1 n, true) else (n, false).

(** [func (csv *CacheStoreValue) TryPurgeConfirm(safe bool) bool] *)
Definition TryPurgeConfirm (n : CacheStoreValue) : CacheStoreValue * bool :=
  if negb (syncNeeded n) && syncedWithKV n && (purgeState n =? 1)
  then (set_purgeState 2 n, true) else (n, false).

(** [func (csv *CacheStoreValue) Delete(updateInKV bool, customDeleteTime int64)] *)
Definition Delete_fields (updateInKV : bool) (t : Z) (n : CacheStoreValue)
    : CacheStoreValue :=
  if updateInKV
  then mkCSV None false 1 (store n) (storeConsistencyWithKVLossTime n) t
             (notifyUpdates n) true false
  else mkCSV None false 2 (store n) (storeConsistencyWithKVLossTime n) t
             (notifyUpdates n) false true.

Definition Delete (csv : ptr) (updateInKV : bool) (customDeleteTime now : Z)
    (root : CacheStoreValue) : CacheStoreValue :=
  let customDeleteTime :=
    if customDeleteTime <? 0 then now else customDeleteTime in
  let root := update csv (Delete_fields updateInKV customDeleteTime) root in
  match parent csv with
  | Some par => update par (notifySubscribers (keyInParent csv) None) root
  | None => root
  end.

(** The first part of [collectGarbage], under the node's lock: the purge
    transitions, then the five conditions of [canBeDeletedFromParent]. *)
Definition collectGarbage_purge (n : CacheStoreValue) : CacheStoreValue :=
  if negb (valueExists n) && bool_decide (store n = ∅) && syncedWithKV n
  then (TryPurgeConfirm (TryPurgeReady n).1).1
  else n.

Definition canBeDeletedFromParent (n : CacheStoreValue) : bool :=
  (purgeState n =? 2) && bool_decide (store n = ∅) && negb (syncNeeded n)
  && syncedWithKV n && bool_decide (notifyUpdates n = ∅).

(** [func (csv *CacheStoreValue) collectGarbage()]: the new tree, and the
    node on which [go csv.parent.collectGarbage()] was started, if any. *)
Definition collectGarbage (csv : ptr) (root : CacheStoreValue)
    : CacheStoreValue * option ptr :=
  match getNode csv root with
  | None => (root, None)
  | Some n =>
      let n := collectGarbage_purge n in
      let root := update csv (fun _ => n) root in
      match parent csv with
      | Some par =>
          if canBeDeletedFromParent n
          then (update par (fun p => set_store (delete (keyInParent csv) (store p)) p) root,
                Some par)
          else (root, None)
      | None => (root, None)
      end
  end.

(** ** The key/value bucket and the configuration *)

(** A Go [error], by its message. *)
Definition error := string.

Inductive result (A : Type) :=
| ROk (a : A)
| RErr (e : error).
Arguments ROk {A} a.
Arguments RErr {A} e.

(** What a Go call does: it returns, or it panics. *)
Inductive outcome (A : Type) :=
| Returns (a : A)
| Panics (msg : string).
Arguments Returns {A} a.
Arguments Panics {A} msg.

(** An index or slice expression: its value, or the run-time panic. *)
Definition orPanic {A C : Type} (o : option A) (msg : string)
    (k : A -> outcome C) : outcome C :=
  match o with
  | Some a => k a
  | None => Panics msg
  end.

Notation "'let?' x ':=' o 'orpanic' msg 'in' k" :=
  (orPanic o msg (fun x => k))
  (at level 10, x name, o at level 99, msg at level 0, k at level 200).

(** Modelled from the spec: [nats.KeyValueEntry], of which the cache reads
    [Key()] and [Value()]; the NATS client is not part of the sources. *)
Record KeyValueEntry := mkEntry {
  entryKey : string;
  entryValue : list byte
}.

(** Modelled from the spec: the bucket contract of section 6, the
    interface [nats.KeyValue] of the NATS client, which is not part of the
    sources.  [B] is the state of the bucket.  [kvWatch] gives the updates
    the watcher delivers, [None] being the nil entry that ends the initial
    backlog. *)
Class nats_KeyValue (B : Type) := {
  kvGet : B -> string -> result KeyValueEntry;
  kvPut : B -> string -> list byte -> B * option error;
  kvDelete : B -> string -> B;
  kvWatch : B -> string -> result (list (option KeyValueEntry))
}.

(** Modelled from the spec: [CacheConfig] with the three options of section
    6; its declaration is not part of the sources. *)
Record CacheConfig := mkCacheConfig {
  kvStorePrefix : string;
  lruSize : Z;
  levelSubscriptionChannelSize : Z
}.

(** [type CacheTransactionOperator struct] *)
Record CacheTransactionOperator := mkOperator {
  operatorType : Z;
  opKey : string;
  opValue : list byte;
  opUpdateInKV : bool;
  customTime : Z
}.

(** [type CacheTransaction struct] *)
Record CacheTransaction := mkTransaction {
  operators : list CacheTransactionOperator;
  beginCounter : Z
}.

Section Cache.

Context {B : Type} `{KV : nats_KeyValue B}.

(** [type CacheStore struct].  [initChanClosed] tells whether [initChan] has
    been closed, [pendingGC] holds the goroutines started by
    [collectGarbage] that have not run yet, [stdout] the lines printed. *)
Record CacheStore := mkCS {
  cacheConfig : CacheConfig;
  kv : B;
  initChanClosed : bool;
  rootValue : CacheStoreValue;
  lruTresholdTime : Z;
  valuesInCache : Z;
  transactions : gmap string CacheTransaction;
  pendingGC : list ptr;
  stdout : list string
}.

Definition set_kv (b : B) (cs : CacheStore) : CacheStore :=
  mkCS (cacheConfig cs) b (initChanClosed cs) (rootValue cs)
       (lruTresholdTime cs) (valuesInCache cs) (transactions cs)
       (pendingGC cs) (stdout cs).

Definition set_rootValue (r : CacheStoreValue) (cs : CacheStore) : CacheStore :=
  mkCS (cacheConfig cs) (kv cs) (initChanClosed cs) r
       (lruTresholdTime cs) (valuesInCache cs) (transactions cs)
       (pendingGC cs) (stdout cs).

Definition set_transactions (t : gmap string CacheTransaction) (cs : CacheStore)
    : CacheStore :=
  mkCS (cacheConfig cs) (kv cs) (initChanClosed cs) (rootValue cs)
       (lruTresholdTime cs) (valuesInCache cs) t
       (pendingGC cs) (stdout cs).

Definition set_pendingGC (g : list ptr) (cs : CacheStore) : CacheStore :=
  mkCS (cacheConfig cs) (kv cs) (initChanClosed cs) (rootValue cs)
       (lruTresholdTime cs) (valuesInCache cs) (transactions cs)
       g (stdout cs).

(** [fmt.Printf] *)
Definition Printf (line : string) (cs : CacheStore) : CacheStore :=
  mkCS (cacheConfig cs) (kv cs) (initChanClosed cs) (rootValue cs)
       (lruTresholdTime cs) (valuesInCache cs) (transactions cs)
       (pendingGC cs) (stdout cs ++ [line]).

(** The root [NewCacheStore] allocates. *)
Definition newRootValue : CacheStoreValue :=
  mkCSV None false 0 ∅ 0 (-1) ∅ false true.

(** The state [NewCacheStore] builds before it starts the two goroutines. *)
Definition NewCacheStore (cfg : CacheConfig) (bucket : B) : CacheStore :=
  mkCS cfg bucket false newRootValue 0 0 ∅ [] [].

(** [func (cs *CacheStore) toStoreKey(key string) string] *)
Definition toStoreKey (cs : CacheStore) (key : string) : string :=
  kvStorePrefix (cacheConfig cs) +:+ "." +:+ key.

(** [func (cs *CacheStore) fromStoreKey(key string) string] *)
Definition fromStoreKey (cs : CacheStore) (key : string) : string :=
  Strs.Replace1 key (kvStorePrefix (cacheConfig cs) +:+ ".").

(** The node [getLastKeyTokenAndItsParentCacheStoreValue] creates for a
    missing token on the way. *)
Definition routingNode (now : Z) : CacheStoreValue :=
  mkCSV None false 0 ∅ 0 now ∅ false true.

(** The loop of [getLastKeyTokenAndItsParentCacheStoreValue] over
    [tokens[currentTokenId:]], from [currentStoreLevel]. *)
Fixpoint lastKeyTokenLoop (tokens : list string) (createIfNotexists : bool)
    (now : Z) (currentStoreLevel : ptr) (root : CacheStoreValue)
    : string * option ptr * CacheStoreValue :=
  match tokens with
  | [] => (EmptyString, Some currentStoreLevel, root)
  | t :: rest =>
      match rest with
      | [] => (t, Some currentStoreLevel, root)
      | _ :: _ =>
          match LoadChild currentStoreLevel t root with
          | Some csv => lastKeyTokenLoop rest createIfNotexists now csv root
          | None =>
              if createIfNotexists
              then
                let root := StoreChild currentStoreLevel t (routingNode now) root in
                lastKeyTokenLoop rest createIfNotexists now
                                 (currentStoreLevel ++ [t]) root
              else (EmptyString, None, root)
          end
      end
  end.

(** [func (cs *CacheStore) getLastKeyTokenAndItsParentCacheStoreValue(key string, createIfNotexists bool) (string, *CacheStoreValue)];
    the tree is returned too, for the nodes the call may create. *)
Definition getLastKeyTokenAndItsParentCacheStoreValue (key : string)
    (createIfNotexists : bool) (now : Z) (root : CacheStoreValue)
    : string * option ptr * CacheStoreValue :=
  lastKeyTokenLoop (Strs.Split key) createIfNotexists now [] root.

(** The loop of [getLastExistingCacheStoreValueByKey]. *)
Fixpoint lastExistingLoop (tokens : list string) (currentStoreLevel : ptr)
    (root : CacheStoreValue) : ptr :=
  match tokens with
  | [] => currentStoreLevel
  | t :: rest =>
      match rest with
      | [] => currentStoreLevel
      | _ :: _ =>
          match LoadChild currentStoreLevel t root with
          | Some csv => lastExistingLoop rest csv root
          | None => currentStoreLevel
          end
      end
  end.

(** [func (cs *CacheStore) getLastExistingCacheStoreValueByKey(key string) *CacheStoreValue] *)
Definition getLastExistingCacheStoreValueByKey (key : string)
    (root : CacheStoreValue) : ptr :=
  lastExistingLoop (Strs.Split key) [] root.

(** The loop of [getLastKeyCacheStoreValue]. *)
Fixpoint lastKeyLoop (tokens : list string) (currentStoreLevel : ptr)
    (root : CacheStoreValue) : option ptr :=
  match tokens with
  | [] => Some currentStoreLevel
  | t :: rest =>
      match LoadChild currentStoreLevel t root with
      | Some csv => lastKeyLoop rest csv root
      | None => None
      end
  end.

(** [func (cs *CacheStore) getLastKeyCacheStoreValue(key string) *CacheStoreValue] *)
Definition getLastKeyCacheStoreValue (key : string) (root : CacheStoreValue)
    : option ptr :=
  lastKeyLoop (Strs.Split key) [] root.

(** The node a key names, when [getLastKeyTokenAndItsParentCacheStoreValue]
    without creation finds its parent, its last token is not empty and
    [LoadChild] finds it: the test that opens [GetValueUpdateTime],
    [GetValue] and [DeleteValue]. *)
Definition loadByKey (key : string) (root : CacheStoreValue) : option ptr :=
  match getLastKeyTokenAndItsParentCacheStoreValue key false 0 root with
  | (keyLastToken, Some parentCacheStoreValue, _) =>
      if 0 <? Strs.len keyLastToken
      then LoadChild parentCacheStoreValue keyLastToken root
      else None
  | (_, None, _) => None
  end.

(** [func (cs *CacheStore) GetValueUpdateTime(key string) int64] *)
Definition GetValueUpdateTime (key : string) (cs : CacheStore) : Z :=
  match loadByKey key (rootValue cs) with
  | Some csv =>
      match getNode csv (rootValue cs) with
      | Some n => valueUpdateTime n
      | None => -1
      end
  | None => -1
  end.

(** The node [SetValue] and [SetValueIfDoesNotExist] attach for a new key. *)
Definition newValueNode (v : list byte) (updateInKV : bool) (t : Z)
    : CacheStoreValue :=
  mkCSV (Some v) true 0 ∅ 0 t ∅ updateInKV (negb updateInKV).

(** [func (cs *CacheStore) SetValue(key string, value []byte, updateInKV bool, customSetTime int64, transactionId string)] *)
Definition SetValue (key : string) (v : list byte) (updateInKV : bool)
    (customSetTime : Z) (transactionId : string) (now : Z) (cs : CacheStore)
    : CacheStore :=
  let customSetTime := if customSetTime <? 0 then now else customSetTime in
  if Strs.len transactionId =? 0 then
    match getLastKeyTokenAndItsParentCacheStoreValue key true now (rootValue cs) with
    | (keyLastToken, Some parentCacheStoreValue, root) =>
        if 0 <? Strs.len keyLastToken then
          match LoadChild parentCacheStoreValue keyLastToken root with
          | Some csv =>
              set_rootValue (Put csv v updateInKV customSetTime now root) cs
          | None =>
              set_rootValue
                (StoreChild parentCacheStoreValue keyLastToken
                   (newValueNode v updateInKV customSetTime) root) cs
          end
        else set_rootValue root cs
    | (_, None, root) => set_rootValue root cs
    end
  else
    match transactions cs !! transactionId with
    | Some transaction =>
        set_transactions
          (<[transactionId :=
               mkTransaction
                 (operators transaction ++
                    [mkOperator 0 key v updateInKV customSetTime])
                 (beginCounter transaction)]> (transactions cs)) cs
    | None =>
        Printf ("ERROR SetValue: transaction with id=" +:+ transactionId
                +:+ " doesn't exist" +:+ Strs.nl) cs
    end.

(** [func (cs *CacheStore) DeleteValue(key string, updateInKV bool, customDeleteTime int64, transactionId string)] *)
Definition DeleteValue (key : string) (updateInKV : bool)
    (customDeleteTime : Z) (transactionId : string) (now : Z) (cs : CacheStore)
    : CacheStore :=
  let customDeleteTime :=
    if customDeleteTime <? 0 then now else customDeleteTime in
  if Strs.len transactionId =? 0 then
    match loadByKey key (rootValue cs) with
    | Some csv =>
        match getNode csv (rootValue cs) with
        | Some n =>
            if valueExists n
            then set_rootValue
                   (Delete csv updateInKV customDeleteTime now (rootValue cs)) cs
            else cs
        | None => cs
        end
    | None => cs
    end
  else
    match transactions cs !! transactionId with
    | Some transaction =>
        set_transactions
          (<[transactionId :=
               mkTransaction
                 (operators transaction ++
                    [mkOperator 1 key [] updateInKV customDeleteTime])
                 (beginCounter transaction)]> (transactions cs)) cs
    | None =>
        Printf ("ERROR DeleteValue: transaction with id=" +:+ transactionId
                +:+ " doesn't exist" +:+ Strs.nl) cs
    end.

(** [func (cs *CacheStore) GetValue(key string) ([]byte, error)].  On a
    cache miss the slice [valueBytes[9:]] is taken before the length of
    [valueBytes] is looked at. *)
Definition GetValue (key : string) (now : Z) (cs : CacheStore)
    : outcome (list byte * option error * CacheStore) :=
  match loadByKey key (rootValue cs) ≫= (fun csv => getNode csv (rootValue cs)) with
  | Some n =>
      if ValueExists n
      then Returns (default [] (value n), None, cs)
      else Returns ([], Some ("Value for for key=" +:+ key +:+ " does not exist"), cs)
  | None =>
      match kvGet (kv cs) (toStoreKey cs key) with
      | ROk entry =>
          let key := fromStoreKey cs (entryKey entry) in
          let valueBytes := entryValue entry in
          let? res := Wire.slice_from_9 valueBytes
            orpanic "slice bounds out of range" in
          if 9 <=? Wire.len valueBytes then
            let? appendFlag := Wire.index_8 valueBytes
              orpanic "index out of range" in
            let? timeBytes := Wire.slice_to_8 valueBytes
              orpanic "slice bounds out of range" in
            let kvRecordTime := Wire.int64 (Wire.Uint64 timeBytes) in
            if Byte.eqb appendFlag x01
            then Returns (res, None,
                          SetValue key res false kvRecordTime EmptyString now cs)
            else Returns (res, None, cs)
          else Returns (res, None, cs)
      | RErr err => Returns ([], Some err, cs)
      end
  end.

(** [func (cs *CacheStore) SetValueIfDoesNotExist(key string, newValue []byte, updateInKV bool, customSetTime int64) bool] *)
Definition SetValueIfDoesNotExist (key : string) (newValue : list byte)
    (updateInKV : bool) (customSetTime : Z) (now : Z) (cs : CacheStore)
    : bool * CacheStore :=
  let customSetTime := if customSetTime <? 0 then now else customSetTime in
  match getLastKeyTokenAndItsParentCacheStoreValue key true now (rootValue cs) with
  | (keyLastToken, Some parentCacheStoreValue, root) =>
      if 0 <? Strs.len keyLastToken then
        match LoadChild parentCacheStoreValue keyLastToken root with
        | Some csv =>
            match getNode csv root with
            | Some n =>
                if bool_decide (value n = None) && negb (valueExists n)
                then (true, set_rootValue
                              (Put csv newValue updateInKV customSetTime now root) cs)
                else (false, set_rootValue root cs)
            | None => (false, set_rootValue root cs)
            end
        | None =>
            (true, set_rootValue
                     (StoreChild parentCacheStoreValue keyLastToken
                        (newValueNode newValue updateInKV customSetTime) root) cs)
        end
      else (false, set_rootValue root cs)
  | (_, None, root) => (false, set_rootValue root cs)
  end.

(** [func (cs *CacheStore) TransactionBegin(transactionId string)] *)
Definition TransactionBegin (transactionId : string) (cs : CacheStore)
    : CacheStore :=
  match transactions cs !! transactionId with
  | Some transaction =>
      set_transactions
        (<[transactionId :=
             mkTransaction (operators transaction)
                           (beginCounter transaction + 1)]> (transactions cs)) cs
  | None =>
      set_transactions
        (<[transactionId := mkTransaction [] 1]> (transactions cs)) cs
  end.

(** One operator of a transaction, as [TransactionEnd] applies it. *)
Definition applyOperator (now : Z) (cs : CacheStore)
    (op : CacheTransactionOperator) : CacheStore :=
  if operatorType op =? 0
  then SetValue (opKey op) (opValue op) (opUpdateInKV op) (customTime op)
                EmptyString now cs
  else if operatorType op =? 1
  then DeleteValue (opKey op) (opUpdateInKV op) (customTime op)
                   EmptyString now cs
  else cs.

(** [func (cs *CacheStore) TransactionEnd(transactionId string)] *)
Definition TransactionEnd (transactionId : string) (now : Z) (cs : CacheStore)
    : CacheStore :=
  match transactions cs !! transactionId with
  | Some transaction =>
      let counter := beginCounter transaction - 1 in
      if counter =? 0 then
        let cs := fold_left (applyOperator now) (operators transaction) cs in
        set_transactions (delete transactionId (transactions cs)) cs
      else
        set_transactions
          (<[transactionId :=
               mkTransaction (operators transaction) counter]>
             (transactions cs)) cs
  | None => cs
  end.

(** [func (cs *CacheStore) SubscribeLevelCallback(key string, callbackId string) chan KeyValue]:
    the channel is new and empty. *)
Definition SubscribeLevelCallback (key callbackId : string) (now : Z)
    (cs : CacheStore) : CacheStore :=
  match getLastKeyTokenAndItsParentCacheStoreValue key true now (rootValue cs) with
  | (_, Some parentCacheStoreValue, root) =>
      set_rootValue
        (update parentCacheStoreValue
           (fun n => set_notifyUpdates (<[callbackId := []]> (notifyUpdates n)) n)
           root) cs
  | (_, None, root) => set_rootValue root cs
  end.

(** [func (cs *CacheStore) UnsubscribeLevelCallback(key string, callbackId string)] *)
Definition UnsubscribeLevelCallback (key callbackId : string) (cs : CacheStore)
    : CacheStore :=
  match getLastKeyTokenAndItsParentCacheStoreValue key false 0 (rootValue cs) with
  | (_, Some parentCacheStoreValue, root) =>
      set_rootValue
        (update parentCacheStoreValue
           (fun n => set_notifyUpdates (delete callbackId (notifyUpdates n)) n)
           root) cs
  | (_, None, _) => cs
  end.

(** ** The watcher *)

(** What the watcher does with the node of a key whose record the bucket
    has confirmed ([t_kv = t_local]). *)
Definition confirmSync (n : CacheStoreValue) : CacheStoreValue :=
  (TryPurgeConfirm (set_syncedWithKV true n)).1.

(** What the watcher does with the node of a key the bucket has dropped
    (an entry of no bytes). *)
Definition confirmDelete (n : CacheStoreValue) : CacheStoreValue :=
  (TryPurgeConfirm (TryPurgeReady (set_syncedWithKV true n)).1).1.

(** The body of [for entry := range w.Updates()] in [storeUpdatesHandler]. *)
Definition storeUpdatesHandler_entry (entry : option KeyValueEntry) (now : Z)
    (cs : CacheStore) : outcome CacheStore :=
  match entry with
  | Some entry =>
      let key := fromStoreKey cs (entryKey entry) in
      let valueBytes := entryValue entry in
      if 9 <=? Wire.len valueBytes then
        let? appendFlag := Wire.index_8 valueBytes
          orpanic "index out of range" in
        let? timeBytes := Wire.slice_to_8 valueBytes
          orpanic "slice bounds out of range" in
        let kvRecordTime := Wire.int64 (Wire.Uint64 timeBytes) in
        let cacheRecordTime := GetValueUpdateTime key cs in
        if cacheRecordTime <? kvRecordTime then
          if Byte.eqb appendFlag x01 then
            let? payload := Wire.slice_from_9 valueBytes
              orpanic "slice bounds out of range" in
            Returns (SetValue key payload false kvRecordTime EmptyString now cs)
          else
            Returns (set_kv (kvDelete (kv cs) (entryKey entry)) cs)
        else if kvRecordTime =? cacheRecordTime then
          let cs :=
            if Byte.eqb appendFlag x00
            then set_kv (kvDelete (kv cs) (entryKey entry)) cs
            else cs in
          match getLastKeyCacheStoreValue key (rootValue cs) with
          | Some csv =>
              Returns (set_rootValue (update csv confirmSync (rootValue cs)) cs)
          | None => Returns cs
          end
        else Returns cs
      else if Wire.len valueBytes =? 0 then
        match getLastKeyCacheStoreValue key (rootValue cs) with
        | Some csv =>
            Returns (set_rootValue (update csv confirmDelete (rootValue cs)) cs)
        | None => Returns cs
        end
      else
        Returns
          (Printf ("ERROR storeUpdatesHandler: received value without time and append flag!"
                   +:+ Strs.nl) cs)
  | None =>
      if initChanClosed cs
      then Panics "close of closed channel"
      else Returns (mkCS (cacheConfig cs) (kv cs) true (rootValue cs)
                         (lruTresholdTime cs) (valuesInCache cs)
                         (transactions cs) (pendingGC cs) (stdout cs))
  end.

(** The loop [for entry := range w.Updates()] over the updates delivered. *)
Fixpoint storeUpdatesHandler_updates (updates : list (option KeyValueEntry))
    (now : Z) (cs : CacheStore) : outcome CacheStore :=
  match updates with
  | [] => Returns cs
  | entry :: rest =>
      match storeUpdatesHandler_entry entry now cs with
      | Returns cs => storeUpdatesHandler_updates rest now cs
      | Panics msg => Panics msg
      end
  end.

(** ** The lazy writer *)

(** One entry of the three stacks of a tree walk ([cacheStoreValueStack],
    [suffixPathsStack], [depthsStack]), which grow and shrink together. *)
Record walkItem := mkWalkItem {
  itemCSV : ptr;
  itemSuffix : string;
  itemDepth : Z
}.

(** [newSuffix] in the two tree walks. *)
Definition newSuffixOf (currentSuffix : string) (currentDepth : Z)
    (key : string) : string :=
  if currentDepth =? 0 then currentSuffix +:+ key
  else currentSuffix +:+ "." +:+ key.

(** The test of the lazy writer on a child that needs no sync: older than
    or equal to the threshold, and live. *)
Definition lruCold (threshold : Z) (n : CacheStoreValue) : bool :=
  (0 <? valueUpdateTime n) && (valueUpdateTime n <=? threshold)
  && (purgeState n =? 0).

(** The purge transitions the lazy writer runs on a cold child. *)
Definition lruPurge (n : CacheStoreValue) : CacheStoreValue :=
  (TryPurgeConfirm (TryPurgeReady n).1).1.

(** The bytes the lazy writer sends for a child that needs sync. *)
Definition finalBytesOf (n : CacheStoreValue) : list byte :=
  if valueExists n
  then Wire.frame (valueUpdateTime n) x01 (default [] (value n))
  else Wire.frame (valueUpdateTime n) x00 [].

(** The first half of the callback of [currentStoreValue.Range] in
    [kvLazyWriter], under the child's lock: the captured time, the bytes to
    send, and the tree. *)
Definition lazyWriter_mark (currentStoreValue : ptr) (key : string) (now : Z)
    (cs : CacheStore) : Z * list byte * CacheStore :=
  let csvChild := currentStoreValue ++ [key] in
  match getNode csvChild (rootValue cs) with
  | Some child =>
      if syncNeeded child then
        (valueUpdateTime child, finalBytesOf child, cs)
      else if lruCold (lruTresholdTime cs) child then
        let root := ConsistencyLoss now currentStoreValue (rootValue cs) in
        (0, [], set_rootValue (update csvChild lruPurge root) cs)
      else (0, [], cs)
  | None => (0, [], cs)
  end.

(** The second half: putting the value into the KV store. *)
Definition lazyWriter_put (currentStoreValue : ptr) (key newSuffix : string)
    (capturedTime : Z) (finalBytes : list byte) (cs : CacheStore)
    : CacheStore :=
  let csvChild := currentStoreValue ++ [key] in
  match getNode csvChild (rootValue cs) with
  | Some child =>
      if syncNeeded child then
        let '(bucket, putErr) := kvPut (kv cs) (toStoreKey cs newSuffix) finalBytes in
        let cs := set_kv bucket cs in
        match putErr with
        | None =>
            set_rootValue
              (update csvChild
                 (fun n => if capturedTime =? valueUpdateTime n
                           then set_syncNeeded false n else n)
                 (rootValue cs)) cs
        | Some err =>
            Printf ("CacheStore kvLazyWriter cannot update key=" +:+ key
                    +:+ Strs.nl +:+ ": " +:+ err) cs
        end
      else cs
  | None => cs
  end.

(** The callback of [currentStoreValue.Range] in [kvLazyWriter] on one
    child: the store after it and the entry pushed on the stacks. *)
Definition lazyWriter_child (currentStoreValue : ptr) (currentSuffix : string)
    (currentDepth : Z) (now : Z) (acc : CacheStore * list walkItem)
    (key : string) : CacheStore * list walkItem :=
  let '(cs, stack) := acc in
  let newSuffix := newSuffixOf currentSuffix currentDepth key in
  let '(capturedTime, finalBytes, cs) :=
    lazyWriter_mark currentStoreValue key now cs in
  let cs := lazyWriter_put currentStoreValue key newSuffix capturedTime finalBytes cs in
  (cs, stack ++ [mkWalkItem (currentStoreValue ++ [key]) newSuffix (currentDepth + 1)]).

(** [collectGarbage] on the store: the goroutine it starts is queued. *)
Definition collectGarbageCS (csv : ptr) (cs : CacheStore) : CacheStore :=
  match collectGarbage csv (rootValue cs) with
  | (root, Some par) =>
      set_pendingGC (pendingGC cs ++ [par]) (set_rootValue root cs)
  | (root, None) => set_rootValue root cs
  end.

(** One round of [for len(cacheStoreValueStack) > 0] in [kvLazyWriter]. *)
Definition lazyWriter_visit (top : walkItem) (stack : list walkItem)
    (lruTimes : list Z) (now : Z) (cs : CacheStore)
    : option (CacheStore * list walkItem * list Z) :=
  match getNode (itemCSV top) (rootValue cs) with
  | Some currentStoreValue =>
      let lruTimes := lruTimes ++ [valueUpdateTime currentStoreValue] in
      let children := (map_to_list (store currentStoreValue)).*1 in
      let '(cs, stack) :=
        fold_left
          (lazyWriter_child (itemCSV top) (itemSuffix top) (itemDepth top) now)
          children (cs, stack) in
      let noChildred := bool_decide (children = []) in
      let cs := if noChildred then collectGarbageCS (itemCSV top) cs else cs in
      Some (cs, stack, lruTimes)
  | None => None
  end.

(** The tree walk of [kvLazyWriter].  The top of the stacks is the last
    element, as in the source.  [None] when [fuel] rounds were not enough,
    or when an entry of the stack names no node of the tree. *)
Fixpoint lazyWriter_walk (fuel : nat) (stack : list walkItem)
    (lruTimes : list Z) (now : Z) (cs : CacheStore)
    : option (CacheStore * list Z) :=
  match last stack with
  | None => Some (cs, lruTimes)
  | Some top =>
      match fuel with
      | O => None
      | S fuel =>
          match lazyWriter_visit top (removelast stack) lruTimes now cs with
          | Some (cs, stack, lruTimes) =>
              lazyWriter_walk fuel stack lruTimes now cs
          | None => None
          end
      end
  end.

(** [sort.Slice(lruTimes, func(i, j int) bool { return lruTimes[i] > lruTimes[j] })]:
    the times in descending order. *)
Fixpoint insertDesc (x : Z) (l : list Z) : list Z :=
  match l with
  | [] => [x]
  | y :: r => if y <? x then x :: y :: r else y :: insertDesc x r
  end.

Definition sortDesc (l : list Z) : list Z := foldr insertDesc [] l.

(** [lruTimes[i]] for an [int] index. *)
Definition indexZ (l : list Z) (i : Z) : option Z :=
  if i <? 0 then None else l !! Z.to_nat i.

(** The end of a pass of [kvLazyWriter]: the threshold and the count. *)
Definition lazyWriter_finish (lruTimes : list Z) (cs : CacheStore)
    : outcome CacheStore :=
  let lruTimes := sortDesc lruTimes in
  let size := lruSize (cacheConfig cs) in
  let? threshold :=
    (if size <? Z.of_nat (length lruTimes)
     then indexZ lruTimes (size - 1)
     else indexZ lruTimes (Z.of_nat (length lruTimes) - 1))
    orpanic "index out of range" in
  Returns (mkCS (cacheConfig cs) (kv cs) (initChanClosed cs) (rootValue cs)
                threshold (Z.of_nat (length lruTimes)) (transactions cs)
                (pendingGC cs) (stdout cs)).

(** One pass of [kvLazyWriter]: the walk from the root, then the threshold. *)
Definition kvLazyWriter_pass (fuel : nat) (now : Z) (cs : CacheStore)
    : option (outcome CacheStore) :=
  match lazyWriter_walk fuel [mkWalkItem [] EmptyString 0] [] now cs with
  | Some (cs, lruTimes) => Some (lazyWriter_finish lruTimes cs)
  | None => None
  end.

(** A goroutine [go csv.parent.collectGarbage()] that was waiting runs. *)
Definition runPendingGC (cs : CacheStore) : CacheStore :=
  match pendingGC cs with
  | [] => cs
  | csv :: rest => collectGarbageCS csv (set_pendingGC rest cs)
  end.

(** ** Pattern queries *)

(** The loop of [appendKeysFromKV] over the updates of the watch: it stops
    at the nil entry, and at the first entry shorter than the header. *)
Fixpoint drainUpdates (cs : CacheStore) (updates : list (option KeyValueEntry))
    (keys : gset string) : gset string :=
  match updates with
  | Some entry :: rest =>
      if 9 <=? Wire.len (entryValue entry)
      then drainUpdates cs rest (keys ∪ {[fromStoreKey cs (entryKey entry)]})
      else keys
  | None :: _ => keys
  | [] => keys
  end.

(** The closure [appendKeysFromKV] of [GetKeysByPattern]. *)
Definition appendKeysFromKV (pattern : string) (keys : gset string)
    (cs : CacheStore) : gset string * CacheStore :=
  match kvWatch (kv cs) (toStoreKey cs pattern) with
  | ROk updates => (drainUpdates cs updates keys, cs)
  | RErr err =>
      (keys, Printf ("GetKeysByPattern kv.Watch error " +:+ err +:+ Strs.nl) cs)
  end.

(** [atomic.CompareAndSwapInt64(&csv.storeConsistencyWithKVLossTime, old, new)] *)
Definition CompareAndSwapLossTime (old new : Z) (n : CacheStoreValue)
    : CacheStoreValue :=
  if storeConsistencyWithKVLossTime n =? old then set_lossTime new n else n.

(** The callback of [parentCacheStoreValue.Range] in the branch of [*]. *)
Definition starChild (keyWithoutLastToken : string) (acc : gset string * bool)
    (kc : string * CacheStoreValue) : gset string * bool :=
  let '(keys, childrenStoresAreConsistentWithKV) := acc in
  (if ValueExists kc.2 then keys ∪ {[keyWithoutLastToken +:+ kc.1]} else keys,
   if 0 <? storeConsistencyWithKVLossTime kc.2
   then false else childrenStoresAreConsistentWithKV).

Definition starScan (keyWithoutLastToken : string) (par : CacheStoreValue)
    : gset string * bool :=
  fold_left (starChild keyWithoutLastToken) (map_to_list (store par)) (∅, true).

(** The end of the branch of [*], after the keys of the bucket have been
    added: the loss time read at the start is swapped for 0. *)
Definition starRestore (par : ptr) (consistencyWithKVLossTime : Z)
    (keysCountBefore keysCountAfter : nat)
    (childrenStoresAreConsistentWithKV : bool) (root : CacheStoreValue)
    : CacheStoreValue :=
  if bool_decide (keysCountBefore = keysCountAfter)
     && childrenStoresAreConsistentWithKV
  then update par (CompareAndSwapLossTime consistencyWithKVLossTime 0) root
  else root.

(** The branch [keyLastToken == "*"]. *)
Definition GetKeysByPattern_star (pattern : string) (par : ptr)
    (parentNode : CacheStoreValue) (cs : CacheStore)
    : gset string * CacheStore :=
  let keyWithoutLastToken := Strs.init pattern in
  let consistencyWithKVLossTime := storeConsistencyWithKVLossTime parentNode in
  let '(keys, childrenStoresAreConsistentWithKV) :=
    starScan keyWithoutLastToken parentNode in
  if 0 <? consistencyWithKVLossTime then
    let keysCountBefore := size keys in
    let '(keys, cs) := appendKeysFromKV pattern keys cs in
    let keysCountAfter := size keys in
    (keys,
     set_rootValue
       (starRestore par consistencyWithKVLossTime keysCountBefore
          keysCountAfter childrenStoresAreConsistentWithKV (rootValue cs)) cs)
  else (keys, cs).

(** The callback of [currentStoreValue.Range] in the branch of [>]. *)
Definition gtChild (top : walkItem) (acc : gset string * list walkItem)
    (kc : string * CacheStoreValue) : gset string * list walkItem :=
  let '(keys, stack) := acc in
  let newSuffix := newSuffixOf (itemSuffix top) (itemDepth top) kc.1 in
  (if ValueExists kc.2 then keys ∪ {[newSuffix]} else keys,
   stack ++ [mkWalkItem (itemCSV top ++ [kc.1]) newSuffix (itemDepth top + 1)]).

(** The tree walk of the branch of [>]. *)
Fixpoint gtWalk (fuel : nat) (stack : list walkItem)
    (allSubCSVsToConsistencyWithKVLossTime : gmap ptr Z)
    (inconsistencyWithKVExistsOnSubLevel : bool) (keys : gset string)
    (root : CacheStoreValue) : option (gset string * gmap ptr Z * bool) :=
  match last stack with
  | None =>
      Some (keys, allSubCSVsToConsistencyWithKVLossTime,
            inconsistencyWithKVExistsOnSubLevel)
  | Some top =>
      match fuel with
      | O => None
      | S fuel =>
          match getNode (itemCSV top) root with
          | Some currentStoreValue =>
              let lossTime := storeConsistencyWithKVLossTime currentStoreValue in
              let '(allSub, inconsistent) :=
                if 0 <? lossTime
                then (<[itemCSV top := lossTime]>
                        allSubCSVsToConsistencyWithKVLossTime, true)
                else (allSubCSVsToConsistencyWithKVLossTime,
                      inconsistencyWithKVExistsOnSubLevel) in
              let '(keys, stack) :=
                fold_left (gtChild top)
                          (map_to_list (store currentStoreValue))
                          (keys, removelast stack) in
              gtWalk fuel stack allSub inconsistent keys root
          | None => None
          end
      end
  end.

(** The branch [keyLastToken == ">"]. *)
Definition GetKeysByPattern_gt (fuel : nat) (pattern : string) (par : ptr)
    (cs : CacheStore) : option (gset string * CacheStore) :=
  let keyWithoutLastToken := Strs.init pattern in
  match gtWalk fuel [mkWalkItem par keyWithoutLastToken 0] ∅ false ∅
               (rootValue cs) with
  | Some (keys, allSub, inconsistent) =>
      if inconsistent then
        let keysCountBefore := size keys in
        let '(keys, cs) := appendKeysFromKV pattern keys cs in
        let keysCountAfter := size keys in
        if bool_decide (keysCountBefore = keysCountAfter) then
          Some (keys,
                set_rootValue
                  (fold_left
                     (fun root sub =>
                        update sub.1 (CompareAndSwapLossTime sub.2 0) root)
                     (map_to_list allSub) (rootValue cs)) cs)
        else Some (keys, cs)
      else Some (keys, cs)
  | None => None
  end.

(** The branch of a literal last token. *)
Definition GetKeysByPattern_literal (pattern keyLastToken : string) (par : ptr)
    (parentNode : CacheStoreValue) (cs : CacheStore)
    : gset string * CacheStore :=
  let consistencyWithKVLossTime := storeConsistencyWithKVLossTime parentNode in
  let keys : gset string :=
    match LoadChild par keyLastToken (rootValue cs) with
    | Some _ => {[pattern]}
    | None => ∅
    end in
  if 0 <? consistencyWithKVLossTime
  then appendKeysFromKV pattern keys cs
  else (keys, cs).

(** The branch taken when there is no node at the level of the pattern. *)
Definition GetKeysByPattern_noLevel (pattern : string) (cs : CacheStore)
    : gset string * CacheStore :=
  let ancestorCacheStoreValue :=
    getLastExistingCacheStoreValueByKey pattern (rootValue cs) in
  match getNode ancestorCacheStoreValue (rootValue cs) with
  | Some ancestor =>
      if 0 <? storeConsistencyWithKVLossTime ancestor
      then appendKeysFromKV pattern ∅ cs
      else (∅, cs)
  | None =>
      (∅, Printf ("ERROR GetKeysByPattern: getLastExistingCacheStoreValueByKey returns nil"
                  +:+ Strs.nl) cs)
  end.

(** The keys [GetKeysByPattern] has gathered, before they are copied into
    the slice it returns. *)
Definition GetKeysByPattern_keys (fuel : nat) (pattern : string)
    (cs : CacheStore) : option (gset string * CacheStore) :=
  match getLastKeyTokenAndItsParentCacheStoreValue pattern false 0 (rootValue cs) with
  | (keyLastToken, Some par, _) =>
      if 0 <? Strs.len keyLastToken then
        match getNode par (rootValue cs) with
        | Some parentNode =>
            if String.eqb keyLastToken "*"
            then Some (GetKeysByPattern_star pattern par parentNode cs)
            else if String.eqb keyLastToken ">"
            then GetKeysByPattern_gt fuel pattern par cs
            else Some (GetKeysByPattern_literal pattern keyLastToken par
                                                parentNode cs)
        | None => Some (GetKeysByPattern_noLevel pattern cs)
        end
      else Some (GetKeysByPattern_noLevel pattern cs)
  | (_, None, _) => Some (GetKeysByPattern_noLevel pattern cs)
  end.

(** [func (cs *CacheStore) GetKeysByPattern(pattern string) []string]: the
    keys of the map, each once, in the order of [elements]. *)
Definition GetKeysByPattern (fuel : nat) (pattern : string) (cs : CacheStore)
    : option (list string * CacheStore) :=
  match GetKeysByPattern_keys fuel pattern cs with
  | Some (keys, cs) => Some (elements keys, cs)
  | None => None
  end.

End Cache.

Arguments CacheStore B : clear implicits.

(** ** A bucket in memory *)

(** Modelled from the spec: a bucket that meets the contract of section 6,
    standing for the NATS bucket, which is not part of the sources.  Its
    entries are the last record of each key in the order they were written;
    a record of [None] is the marker a delete leaves, which a watch delivers
    as an entry of no bytes and which [Get] reports as a missing key. *)
Module MemKV.

Record t := mk {
  entries : list (string * option (list byte));
  online : bool
}.

Fixpoint find (key : string) (l : list (string * option (list byte)))
    : option (option (list byte)) :=
  match l with
  | [] => None
  | e :: r => if String.eqb e.1 key then Some e.2 else find key r
  end.

Definition without (key : string) (l : list (string * option (list byte)))
    : list (string * option (list byte)) :=
  List.filter (fun e => negb (String.eqb e.1 key)) l.

(** A subject against a watch pattern: [*] stands for one token, a final
    [>] for one token or more. *)
Fixpoint subjectMatch (pat subj : list string) : bool :=
  match pat, subj with
  | [], [] => true
  | p :: ps, s :: ss =>
      if String.eqb p ">" then bool_decide (ps = [])
      else if String.eqb p "*" || String.eqb p s then subjectMatch ps ss
      else false
  | _, _ => false
  end.

Definition get (b : t) (key : string) : result KeyValueEntry :=
  if online b then
    match find key (entries b) with
    | Some (Some v) => ROk (mkEntry key v)
    | _ => RErr "nats: key not found"
    end
  else RErr "nats: timeout".

Definition put (b : t) (key : string) (v : list byte) : t * option error :=
  if online b
  then (mk (without key (entries b) ++ [(key, Some v)]) true, None)
  else (b, Some "nats: timeout"%string).

Definition delete (b : t) (key : string) : t :=
  if online b
  then mk (without key (entries b) ++ [(key, None)]) true
  else b.

Definition watch (b : t) (pattern : string)
    : result (list (option KeyValueEntry)) :=
  if online b then
    ROk (map (fun e => Some (mkEntry e.1 (default [] e.2)))
             (List.filter
                (fun e => subjectMatch (Strs.Split pattern) (Strs.Split e.1))
                (entries b))
         ++ [None])
  else RErr "nats: timeout".

#[global] Instance bucket : nats_KeyValue t :=
  {| kvGet := get; kvPut := put; kvDelete := delete; kvWatch := watch |}.

End MemKV.

(** * The statements of the specification

    Notions the specification uses, and those of its sentences that the
    code does not bear out, worded as the specification words them. *)

Section Stated.

Context {B : Type} `{KV : nats_KeyValue B}.

(** The last token of a key. *)
Definition lastToken (key : string) : string :=
  default EmptyString (last (Strs.Split key)).

(** The node a key names in the tree: the one its tokens lead to, for a key
    whose last token is not empty. *)
Definition cachedNode (key : string) (root : CacheStoreValue)
    : option CacheStoreValue :=
  if 0 <? Strs.len (lastToken key) then getNode (Strs.Split key) root else None.

(** P1 and R2: of two local writes of a key, the one with the greater time
    is the one read. *)
Definition greatest_timestamp_wins (key : string) (v1 v2 : list byte)
    (updateInKV : bool) (t1 t2 now : Z) (cs : CacheStore B) : Prop :=
  t2 < t1 ->
  exists cs',
    GetValue key now
      (SetValue key v2 updateInKV t2 EmptyString now
         (SetValue key v1 updateInKV t1 EmptyString now cs))
    = Returns (v1, None, cs').


(** Section 4.3, step 3: a pass of the lazy writer leaves a cold clean node
    in the tree with [valueExists = false] and no payload, has raised the
    loss time of its parent, and has left the bucket as it was. *)
Definition cold_node_is_cleared (fuel : nat) (now : Z) (csv : ptr)
    (cs : CacheStore B) : Prop :=
  forall n par,
    getNode csv (rootValue cs) = Some n ->
    parent csv = Some par ->
    syncNeeded n = false ->
    0 < valueUpdateTime n ->
    valueUpdateTime n <= lruTresholdTime cs ->
    purgeState n = 0 ->
    exists cs' n' p p',
      kvLazyWriter_pass fuel now cs = Some (Returns cs')
      /\ getNode csv (rootValue cs') = Some n'
      /\ valueExists n' = false /\ value n' = None
      /\ getNode par (rootValue cs) = Some p
      /\ getNode par (rootValue cs') = Some p'
      /\ storeConsistencyWithKVLossTime p'
         = Z.max (storeConsistencyWithKVLossTime p) now
      /\ kv cs' = kv cs.

(** The time a record of the bucket carries in its header. *)
Definition recordTime (valueBytes : list byte) : Z :=
  Wire.int64 (Wire.Uint64 valueBytes).

(** Section 4.4.1: what [GetValue] does, in the three cases of the
    specification. *)
Definition GetValue_as_specified (key : string) (now : Z) (cs : CacheStore B)
    : Prop :=
  match cachedNode key (rootValue cs) with
  | Some n =>
      if valueExists n
      then GetValue key now cs = Returns (default [] (value n), None, cs)
      else exists err, GetValue key now cs = Returns ([], Some err, cs)
  | None =>
      match kvGet (kv cs) (toStoreKey cs key) with
      | ROk entry =>
          let payload := drop 9 (entryValue entry) in
          GetValue key now cs
          = Returns (payload, None,
                     SetValue (fromStoreKey cs (entryKey entry)) payload false
                              (recordTime (entryValue entry)) EmptyString
                              now cs)
      | RErr err => GetValue key now cs = Returns ([], Some err, cs)
      end
  end.

(** The merge rules of section 4.2 for a record that has a header, of flag
    [flag]: the table of the specification, row by row. *)
Definition handleFramed (entry : KeyValueEntry) (flag : byte) (now : Z)
    (cs : CacheStore B) : CacheStore B :=
  let key := fromStoreKey cs (entryKey entry) in
  let kvRecordTime := recordTime (entryValue entry) in
  let cacheRecordTime := GetValueUpdateTime key cs in
  if cacheRecordTime <? kvRecordTime then
    if Byte.eqb flag x01
    then SetValue key (drop 9 (entryValue entry)) false kvRecordTime
                  EmptyString now cs
    else set_kv (kvDelete (kv cs) (entryKey entry)) cs
  else if kvRecordTime =? cacheRecordTime then
    let cs1 := if Byte.eqb flag x00
               then set_kv (kvDelete (kv cs) (entryKey entry)) cs else cs in
    match getNode (Strs.Split key) (rootValue cs) with
    | Some _ =>
        set_rootValue (update (Strs.Split key) confirmSync (rootValue cs)) cs1
    | None => cs1
    end
  else cs.

(** Whether a record says that a value is set: its flag is 1. *)
Definition recordIsSet (valueBytes : list byte) : bool :=
  match valueBytes !! 8%nat with
  | Some flag => Byte.eqb flag x01
  | None => false
  end.

(** The entries a watch delivers before the first one that is nil or has
    no header. *)
Fixpoint takeFramed (updates : list (option KeyValueEntry))
    : list KeyValueEntry :=
  match updates with
  | Some entry :: rest =>
      if 9 <=? Wire.len (entryValue entry)
      then entry :: takeFramed rest else []
  | None :: _ => []
  | [] => []
  end.

(** The enumeration of the bucket for a pattern: the keys, without the
    prefix of the store, of the entries a watch of the pattern delivers
    before the first one that is nil or has no header; no key when the
    watch fails. *)
Definition kvEnumeration (pattern : string) (cs : CacheStore B)
    : gset string :=
  match kvWatch (kv cs) (toStoreKey cs pattern) with
  | ROk updates =>
      list_to_set
        ((fun entry => fromStoreKey cs (entryKey entry)) <$> takeFramed updates)
  | RErr _ => ∅
  end.


(** A tree [root'] each node of which is a node of [root] with the same
    value and the same [valueExists]. *)
Definition keepsValues (root root' : CacheStoreValue) : Prop :=
  forall q n',
    getNode q root' = Some n' ->
    exists n, getNode q root = Some n
      /\ value n' = value n /\ valueExists n' = valueExists n.

(** Two stores whose trees have the same nodes, with the same numbers of
    nodes below them, and the same configuration. *)
Definition sameShape (cs cs' : CacheStore B) : Prop :=
  (forall q, nsize <$> getNode q (rootValue cs')
             = nsize <$> getNode q (rootValue cs))
  /\ cacheConfig cs' = cacheConfig cs.

(** The pointers of a stack of the walk: no two of them name the same node
    or a node and one above it, and each names a node of the tree. *)
Definition stackOK (ps : list ptr) (root : CacheStoreValue) : Prop :=
  NoDup ps
  /\ (forall p q, p ∈ ps -> q ∈ ps -> p `prefix_of` q -> p = q)
  /\ (forall p, p ∈ ps -> is_Some (getNode p root)).

(** One operation of the cache, or one round of one of its goroutines. *)
Inductive step : CacheStore B -> CacheStore B -> Prop :=
| step_SetValue key v updateInKV t transactionId now cs :
    step cs (SetValue key v updateInKV t transactionId now cs)
| step_DeleteValue key updateInKV t transactionId now cs :
    step cs (DeleteValue key updateInKV t transactionId now cs)
| step_SetValueIfDoesNotExist key v updateInKV t now cs :
    step cs (SetValueIfDoesNotExist key v updateInKV t now cs).2
| step_GetValue key now cs res err cs' :
    GetValue key now cs = Returns (res, err, cs') -> step cs cs'
| step_GetKeysByPattern fuel pattern cs keys cs' :
    GetKeysByPattern fuel pattern cs = Some (keys, cs') -> step cs cs'
| step_TransactionBegin transactionId cs :
    step cs (TransactionBegin transactionId cs)
| step_TransactionEnd transactionId now cs :
    step cs (TransactionEnd transactionId now cs)
| step_Subscribe key callbackId now cs :
    step cs (SubscribeLevelCallback key callbackId now cs)
| step_Unsubscribe key callbackId cs :
    step cs (UnsubscribeLevelCallback key callbackId cs)
| step_watcher entry now cs cs' :
    storeUpdatesHandler_entry entry now cs = Returns cs' -> step cs cs'
| step_lazyWriter fuel now cs cs' :
    kvLazyWriter_pass fuel now cs = Some (Returns cs') -> step cs cs'
| step_collectGarbage cs :
    step cs (runPendingGC cs).

(** The states the cache can be in. *)
Inductive reachable : CacheStore B -> Prop :=
| reachable_new cfg bucket : reachable (NewCacheStore cfg bucket)
| reachable_step cs cs' : reachable cs -> step cs cs' -> reachable cs'.

(** Invariant 2: in every state the cache can be in, a node that needs
    sync is not synced. *)
Definition syncNeeded_excludes_synced : Prop :=
  forall cs, reachable cs ->
  forall q n, getNode q (rootValue cs) = Some n ->
    syncNeeded n = true -> syncedWithKV n = false.

End Stated.

(** * Notions of the further properties

    What the properties of the last part of the file are stated with. *)

Section Notions.

Context {B : Type} `{KV : nats_KeyValue B}.

(** A call of [SetValue] (operator type 0) or of [DeleteValue] (any other
    type), with the arguments an operator holds, made within the
    transaction [transactionId] at the time [now]. *)
Definition callInTransaction (transactionId : string) (now : Z)
    (cs : CacheStore B) (op : CacheTransactionOperator) : CacheStore B :=
  if operatorType op =? 0
  then SetValue (opKey op) (opValue op) (opUpdateInKV op) (customTime op)
                transactionId now cs
  else DeleteValue (opKey op) (opUpdateInKV op) (customTime op)
                   transactionId now cs.

(** The same call made outside of any transaction at the time [now], its
    time argument being the one the call made at [calledAt] settled on. *)
Definition callDirect (calledAt now : Z) (cs : CacheStore B)
    (op : CacheTransactionOperator) : CacheStore B :=
  let t := if customTime op <? 0 then calledAt else customTime op in
  if operatorType op =? 0
  then SetValue (opKey op) (opValue op) (opUpdateInKV op) t EmptyString now cs
  else DeleteValue (opKey op) (opUpdateInKV op) t EmptyString now cs.

(** The operator such a call appends to the transaction. *)
Definition recorded (calledAt : Z) (op : CacheTransactionOperator)
    : CacheTransactionOperator :=
  let t := if customTime op <? 0 then calledAt else customTime op in
  if operatorType op =? 0
  then mkOperator 0 (opKey op) (opValue op) (opUpdateInKV op) t
  else mkOperator 1 (opKey op) [] (opUpdateInKV op) t.

(** The store [cs] with the transaction [id] holding the operators [ops]
    and begun [c] times more than it was ended. *)
Definition pending (id : string) (ops : list CacheTransactionOperator)
    (c : Z) (cs : CacheStore B) : CacheStore B :=
  set_transactions (<[id := mkTransaction ops c]> (transactions cs)) cs.

(** The channels of the subscribers of a level, by callback id; [None]
    when the level is not in the tree. *)
Definition channelsOf (level : ptr) (root : CacheStoreValue)
    : option (gmap string (list KeyValue)) :=
  notifyUpdates <$> getNode level root.

(** The messages sent so far to the channel of a callback id at a level. *)
Definition channel (level : ptr) (callbackId : string) (root : CacheStoreValue)
    : option (list KeyValue) :=
  channelsOf level root ≫= (fun chans => chans !! callbackId).

(** The fields of a node other than its children and the channels of its
    subscribers. *)
Definition ownFields (n : CacheStoreValue)
    : option (list byte) * bool * Z * Z * Z * bool * bool :=
  (value n, valueExists n, purgeState n, storeConsistencyWithKVLossTime n,
   valueUpdateTime n, syncNeeded n, syncedWithKV n).

(** Every node of a tree satisfies [P]. *)
Definition allNodes (P : CacheStoreValue -> Prop) (root : CacheStoreValue)
    : Prop :=
  forall q n, getNode q root = Some n -> P n.

(** The purge state of a node is 0, 1 or 2, and a node in the state 2 needs
    no sync and is synced. *)
Definition purgeStateOK (n : CacheStoreValue) : Prop :=
  (purgeState n = 0 \/ purgeState n = 1 \/ purgeState n = 2)
  /\ (purgeState n = 2 -> syncNeeded n = false /\ syncedWithKV n = true).

(** [valueExists] says whether the node holds a value. *)
Definition valueFlagOK (n : CacheStoreValue) : Prop :=
  valueExists n = true <-> is_Some (value n).

End Notions.

(** ** Worked runs *)

Module Runs.

Import MemKV.

Definition bytes_of (s : string) : list byte :=
  map (fun c => Wire.byte_of_Z (Z.of_N (Ascii.N_of_ascii c))) (String.list_ascii_of_string s).

Definition cfg : CacheConfig := mkCacheConfig "store" 2 16.

Definition empty_bucket : MemKV.t := MemKV.mk [] true.

Definition cs0 : CacheStore MemKV.t := NewCacheStore cfg empty_bucket.

Definition old : list byte := bytes_of "old".
Definition new : list byte := bytes_of "new".

(** The records of a bucket, as the watcher receives them. *)
Definition liveUpdates (b : MemKV.t) : list (option KeyValueEntry) :=
  map (fun e => Some (mkEntry e.1 (default [] e.2))) (MemKV.entries b).

Definition run_watcher (updates : list (option KeyValueEntry)) (now : Z)
    (cs : CacheStore MemKV.t) : CacheStore MemKV.t :=
  match storeUpdatesHandler_updates updates now cs with
  | Returns cs => cs
  | Panics _ => cs
  end.

Definition run_pass (fuel : nat) (now : Z) (cs : CacheStore MemKV.t)
    : CacheStore MemKV.t :=
  match kvLazyWriter_pass fuel now cs with
  | Some (Returns cs) => cs
  | _ => cs
  end.

(** Scenario 3 of the specification: a cache of [lruSize] 2, three keys set
    at the times 1, 2 and 3. *)

(** The constructor has returned: the watcher has seen the end of the
    backlog of an empty bucket. *)
Definition s0 : CacheStore MemKV.t := run_watcher [None] 0 cs0.

(** The three keys are set. *)
Definition s1 : CacheStore MemKV.t :=
  SetValue "k3" (bytes_of "three") true 3 "" 5
    (SetValue "k2" (bytes_of "two") true 2 "" 5
       (SetValue "k1" (bytes_of "one") true 1 "" 5 s0)).

(** A first pass of the lazy writer sends them to the bucket. *)
Definition s2 : CacheStore MemKV.t := run_pass 10 10 s1.

(** The watcher receives the three records back. *)
Definition s3 : CacheStore MemKV.t := run_watcher (liveUpdates (kv s2)) 15 s2.

(** The lazy writer, in its second pass, has run its callback on [k1]. *)
Definition s3_marked : CacheStore MemKV.t :=
  (lazyWriter_child [] "" 0 20 (s3, []) "k1").1.


(** The second pass is over. *)
Definition s4 : CacheStore MemKV.t := run_pass 10 20 s3.

(** A key is set at the time 100 and, before the lazy writer has run, the
    watcher receives a record of that key with the same time. *)
Definition e1 : CacheStore MemKV.t := SetValue "a" old true 100 "" 5 s0.

Definition echo : KeyValueEntry := mkEntry "store.a" (Wire.frame 100 x01 old).

Definition e2 : CacheStore MemKV.t := run_watcher [Some echo] 6 e1.

(** Scenario 6 of the specification: a key set at the time 500, and a
    record of that key with the time 400. *)
Definition t6 : CacheStore MemKV.t := SetValue "n" old true 500 "" 5 s0.

Definition stale : KeyValueEntry := mkEntry "store.n" (Wire.frame 400 x01 new).

(** Another module has left in the bucket the record of a delete of the key
    [d], which the cache does not hold. *)
Definition d0 : CacheStore MemKV.t :=
  set_kv (MemKV.put (kv s0) "store.d" (Wire.frame 100 x00 [])).1 s0.

(** The bucket holds, for the key [a], a record of three bytes. *)
Definition short0 : CacheStore MemKV.t :=
  set_kv (MemKV.put (kv s0) "store.a" [x01; x02; x03]).1 s0.

End Runs.

Import Runs.

(** * Properties

    ** Reading and writing through pointers *)

Section TreeLemmas.

Implicit Types (p q : ptr) (root n : CacheStoreValue) (f : CacheStoreValue -> CacheStoreValue).

Lemma getNode_app p q root :
  getNode (p ++ q) root = getNode p root ≫= getNode q.
Proof.
  revert root. induction p as [|k p IH]; intros root; simpl; [done|].
  destruct (store root !! k); [apply IH|done].
Qed.

Lemma getNode_update p q f root :
  getNode (p ++ q) (update p f root)
  = getNode p root ≫= (fun n => getNode q (f n)).
Proof.
  revert root. induction p as [|k p IH]; intros root; simpl; [done|].
  destruct (store root !! k) as [c|] eqn:E; simpl.
  - rewrite lookup_insert_eq. apply IH.
  - by rewrite E.
Qed.

Lemma getNode_update_same p f root :
  getNode p (update p f root) = f <$> getNode p root.
Proof.
  pose proof (getNode_update p [] f root) as H.
  rewrite app_nil_r in H. rewrite H.
  by destruct (getNode p root).
Qed.

Lemma update_missing p f root :
  getNode p root = None -> update p f root = root.
Proof.
  revert root. induction p as [|k p IH]; intros root; simpl; [done|].
  destruct (store root !! k) as [c|] eqn:E; [|done].
  intros H. rewrite (IH _ H). destruct root; simpl in *.
  unfold set_store; simpl. f_equal. by apply insert_id.
Qed.

Lemma getNode_update_prefix q r f root :
  getNode q (update (q ++ r) f root) = update r f <$> getNode q root.
Proof.
  revert root. induction q as [|k q IH]; intros root; simpl; [done|].
  destruct (store root !! k) as [c|] eqn:E; simpl.
  - rewrite lookup_insert_eq. apply IH.
  - by rewrite E.
Qed.

(** A view of a node that does not look at its children is left as it is,
    on every node of the tree, by an update that preserves it and the
    children map. *)
Lemma update_preserves_view {A} (V : CacheStoreValue -> A) f :
  (forall n, store (f n) = store n) ->
  (forall n, V (f n) = V n) ->
  (forall s n, V (set_store s n) = V n) ->
  forall p q root, V <$> getNode q (update p f root) = V <$> getNode q root.
Proof.
  intros Hs Hv Hset p. induction p as [|k p IH]; intros q root; simpl.
  - destruct q as [|k' q]; simpl; [by rewrite Hv|by rewrite Hs].
  - destruct (store root !! k) as [c|] eqn:E; [|done].
    destruct q as [|k' q]; simpl; [by rewrite Hset|].
    destruct (decide (k = k')) as [->|Hne].
    + rewrite lookup_insert_eq, E. apply IH.
    + by rewrite lookup_insert_ne.
Qed.

Lemma Split_nonempty s : Strs.Split s <> [].
Proof.
  destruct s as [|c r]; simpl; [done|].
  destruct (Ascii.eqb c Strs.dot); [done|].
  by destruct (Strs.Split r).
Qed.

Lemma Split_snoc s : exists pre t, Strs.Split s = pre ++ [t].
Proof.
  destruct (Strs.Split s) as [|x l] eqn:E using rev_ind.
  - by apply Split_nonempty in E.
  - eauto.
Qed.

Lemma LoadChild_spec csv key root :
  LoadChild csv key root
  = match getNode (csv ++ [key]) root with
    | Some _ => Some (csv ++ [key])
    | None => None
    end.
Proof.
  unfold LoadChild. rewrite getNode_app.
  destruct (getNode csv root) as [n|]; simpl; [|done].
  by destruct (store n !! key).
Qed.

Lemma getNode_app_Some p q root n :
  getNode (p ++ q) root = Some n -> is_Some (getNode p root).
Proof.
  rewrite getNode_app. destruct (getNode p root); [eauto|done].
Qed.

Lemma lastKeyTokenLoop_false pre t now cur root :
  is_Some (getNode cur root) ->
  lastKeyTokenLoop (pre ++ [t]) false now cur root
  = match getNode (cur ++ pre) root with
    | Some _ => (t, Some (cur ++ pre), root)
    | None => (EmptyString, None, root)
    end.
Proof.
  revert cur. induction pre as [|k pre IH]; intros cur [m Hm]; simpl.
  - by rewrite app_nil_r, Hm.
  - destruct (pre ++ [t]) as [|x l] eqn:E; [by destruct pre|].
    rewrite LoadChild_spec.
    destruct (getNode (cur ++ [k]) root) as [c|] eqn:Ec.
    + rewrite IH by eauto. by rewrite <- app_assoc.
    + replace (cur ++ k :: pre) with ((cur ++ [k]) ++ pre)
        by (by rewrite <- app_assoc).
      rewrite getNode_app, Ec. done.
Qed.

Lemma getNode_StoreChild csv key child root :
  is_Some (getNode csv root) ->
  getNode (csv ++ [key]) (StoreChild csv key child root) = Some child.
Proof.
  intros [n Hn]. unfold StoreChild. rewrite getNode_update, Hn. simpl.
  by rewrite lookup_insert_eq.
Qed.

Lemma lastKeyTokenLoop_true pre t now cur root :
  is_Some (getNode cur root) ->
  exists root',
    lastKeyTokenLoop (pre ++ [t]) true now cur root
    = (t, Some (cur ++ pre), root')
    /\ is_Some (getNode (cur ++ pre) root').
Proof.
  revert cur root. induction pre as [|k pre IH]; intros cur root Hcur; simpl.
  - exists root. by rewrite app_nil_r.
  - destruct (pre ++ [t]) as [|x l] eqn:E; [by destruct pre|].
    replace (cur ++ k :: pre) with ((cur ++ [k]) ++ pre)
      by (by rewrite <- app_assoc).
    rewrite LoadChild_spec.
    destruct (getNode (cur ++ [k]) root) as [c|] eqn:Ec.
    + apply IH. eauto.
    + apply IH. rewrite getNode_StoreChild; eauto.
Qed.

Lemma loadByKey_spec key pre t root :
  Strs.Split key = pre ++ [t] ->
  loadByKey key root
  = match getNode (pre ++ [t]) root with
    | Some _ => if 0 <? Strs.len t then Some (pre ++ [t]) else None
    | None => None
    end.
Proof.
  intros E. unfold loadByKey, getLastKeyTokenAndItsParentCacheStoreValue.
  rewrite E, lastKeyTokenLoop_false by (simpl; eauto). simpl.
  rewrite getNode_app.
  destruct (getNode pre root) as [n|] eqn:En; simpl; [|done].
  rewrite LoadChild_spec, getNode_app, En. simpl.
  destruct (store n !! t); by destruct (0 <? Strs.len t).
Qed.

Lemma getNode_Put csv v updateInKV t now root n :
  getNode csv root = Some n ->
  exists n', getNode csv (Put csv v updateInKV t now root) = Some n'
    /\ value n' = Some v /\ valueExists n' = true
    /\ valueUpdateTime n' = (if t <? 0 then now else t)
    /\ syncNeeded n' = updateInKV /\ syncedWithKV n' = negb updateInKV.
Proof.
  intros Hn. unfold Put.
  set (root1 := update csv _ root).
  assert (H1 : getNode csv root1 = Some (Put_fields v updateInKV (if t <? 0 then now else t) n)).
  { unfold root1. by rewrite getNode_update_same, Hn. }
  destruct csv as [|k csv'] eqn:Ecsv using rev_ind.
  - simpl. eexists. split; [exact H1|]. done.
  - clear IHcsv'. unfold parent.
    destruct (csv' ++ [k]) as [|y l] eqn:E; [by destruct csv'|].
    rewrite <- E in *. rewrite removelast_last.
    rewrite getNode_update.
    rewrite getNode_app in H1.
    destruct (getNode csv' root1) as [m|]; simpl in *; [|done].
    eexists. split; [exact H1|]. done.
Qed.

End TreeLemmas.

(** ** A value that was set is the value read *)

Section SetGet.
Context {B : Type} `{KV : nats_KeyValue B}.
Implicit Types (cs : CacheStore B).

Lemma SetValue_node key pre t v updateInKV time now cs :
  Strs.Split key = pre ++ [t] ->
  0 < Strs.len t ->
  exists n,
    getNode (pre ++ [t]) (rootValue (SetValue key v updateInKV time EmptyString now cs)) = Some n
    /\ value n = Some v /\ valueExists n = true
    /\ valueUpdateTime n = (if time <? 0 then now else time)
    /\ syncNeeded n = updateInKV /\ syncedWithKV n = negb updateInKV.
Proof.
  intros E Ht. unfold SetValue. simpl.
  unfold getLastKeyTokenAndItsParentCacheStoreValue. rewrite E.
  destruct (lastKeyTokenLoop_true pre t now [] (rootValue cs)) as (root1 & -> & Hpar);
    [simpl; eauto|].
  simpl in *. apply Z.ltb_lt in Ht. rewrite Ht.
  rewrite LoadChild_spec.
  destruct (getNode (pre ++ [t]) root1) as [c|] eqn:Ec; simpl.
  - destruct (getNode_Put (pre ++ [t]) v updateInKV
                (if time <? 0 then now else time) now root1 c Ec)
      as (n' & Hn' & Hv & He & Ht' & Hs1 & Hs2).
    exists n'. split_and!; try done.
    rewrite Ht'.
    destruct (time <? 0) eqn:E1; [by destruct (now <? 0)|by rewrite E1].
  - rewrite getNode_StoreChild by done. eexists. split; [done|]. done.
Qed.

Lemma GetValue_hit key pre t now cs n :
  Strs.Split key = pre ++ [t] ->
  0 < Strs.len t ->
  getNode (pre ++ [t]) (rootValue cs) = Some n ->
  GetValue key now cs
  = if valueExists n
    then Returns (default [] (value n), None, cs)
    else Returns ([], Some ("Value for for key=" +:+ key +:+ " does not exist"), cs).
Proof.
  intros E Ht Hn. unfold GetValue.
  rewrite (loadByKey_spec key pre t) by done. rewrite Hn.
  apply Z.ltb_lt in Ht. rewrite Ht. simpl. rewrite Hn. done.
Qed.

Theorem SetValue_then_GetValue key pre t v updateInKV time now now' cs :
  Strs.Split key = pre ++ [t] ->
  0 < Strs.len t ->
  GetValue key now' (SetValue key v updateInKV time EmptyString now cs)
  = Returns (v, None, SetValue key v updateInKV time EmptyString now cs).
Proof.
  intros E Ht.
  destruct (SetValue_node key pre t v updateInKV time now cs E Ht)
    as (n & Hn & Hv & He & _).
  rewrite (GetValue_hit key pre t now' _ n E Ht Hn), He, Hv. done.
Qed.

End SetGet.

(** ** C1: two local writes of one key *)

Section LocalWrites.

Context {B : Type} `{KV : nats_KeyValue B}.
Implicit Types (cs : CacheStore B).

Lemma lastToken_snoc key :
  exists pre, Strs.Split key = pre ++ [lastToken key].
Proof.
  destruct (Split_snoc key) as (pre & t & E). exists pre.
  unfold lastToken. by rewrite E, last_snoc.
Qed.

Lemma GetValueUpdateTime_hit key pre t cs n :
  Strs.Split key = pre ++ [t] ->
  0 < Strs.len t ->
  getNode (pre ++ [t]) (rootValue cs) = Some n ->
  GetValueUpdateTime key cs = valueUpdateTime n.
Proof.
  intros E Ht Hn. unfold GetValueUpdateTime.
  rewrite (loadByKey_spec key pre t) by done. rewrite Hn.
  apply Z.ltb_lt in Ht. by rewrite Ht, Hn.
Qed.

(** C1, as the code has it: a local write is not compared with the time of
    the value it replaces.  After two writes of a key with an empty
    transaction id, [GetValue] returns the value of the second call, and
    the update time of the key is the time of the second call, whatever the
    order of the two times. *)
Theorem C1_last_call_wins key v1 v2 u1 u2 t1 t2 now1 now2 now3 cs :
  0 < Strs.len (lastToken key) ->
  let cs2 := SetValue key v2 u2 t2 EmptyString now2
               (SetValue key v1 u1 t1 EmptyString now1 cs) in
  GetValue key now3 cs2 = Returns (v2, None, cs2)
  /\ GetValueUpdateTime key cs2 = (if t2 <? 0 then now2 else t2).
Proof.
  intros Ht cs2. subst cs2. destruct (lastToken_snoc key) as [pre E]. split.
  - by apply (SetValue_then_GetValue key pre (lastToken key)).
  - destruct (SetValue_node key pre (lastToken key) v2 u2 t2 now2
                (SetValue key v1 u1 t1 EmptyString now1 cs) E Ht)
      as (n & Hn & _ & _ & Htime & _).
    by rewrite (GetValueUpdateTime_hit key pre (lastToken key) _ n E Ht Hn).
Qed.

End LocalWrites.

Lemma C1_last_call_wins_witness :
  GetValue "a.b" 9 (SetValue "a.b" new true 50 "" 8 (SetValue "a.b" old true 100 "" 7 cs0))
  = Returns (new, None,
             SetValue "a.b" new true 50 "" 8 (SetValue "a.b" old true 100 "" 7 cs0))
  /\ GetValueUpdateTime "a.b"
       (SetValue "a.b" new true 50 "" 8 (SetValue "a.b" old true 100 "" 7 cs0))
     = 50.
Proof.
  apply (C1_last_call_wins "a.b" old new true true 100 50 7 8 9 cs0).
  vm_compute. reflexivity.
Defined.

(** C1, as the specification states it, fails: after a write at time 100
    and a write at time 50 the value read is that of the write at 50. *)
Lemma C1_counterexample :
  ~ greatest_timestamp_wins "a.b" old new true 100 50 7 cs0.
Proof.
  intros H. destruct H as [cs' H]; [lia|].
  vm_compute in H. discriminate H.
Qed.

(** ** C3: when [collectGarbage] removes a node *)

Section GarbageLemmas.

Implicit Types (p q : ptr) (root n : CacheStoreValue).

Lemma parent_snoc p k : parent (p ++ [k]) = Some p.
Proof.
  unfold parent. destruct (p ++ [k]) eqn:E; [by destruct p|].
  by rewrite <- E, removelast_last.
Qed.

Lemma keyInParent_snoc p k : keyInParent (p ++ [k]) = k.
Proof. unfold keyInParent. by rewrite last_snoc. Qed.

Lemma parent_Some csv par :
  parent csv = Some par -> csv = par ++ [keyInParent csv].
Proof.
  destruct csv as [|k csv _] using rev_ind; [done|].
  rewrite parent_snoc, keyInParent_snoc. by intros [= ->].
Qed.

Lemma getNode_delete_child par k root :
  getNode (par ++ [k])
    (update par (fun m => set_store (delete k (store m)) m) root) = None.
Proof.
  rewrite getNode_update. destruct (getNode par root); simpl; [|done].
  by rewrite lookup_delete_eq.
Qed.

Lemma canBeDeletedFromParent_spec n :
  canBeDeletedFromParent n = true <->
  purgeState n = 2 /\ store n = ∅ /\ syncNeeded n = false
  /\ syncedWithKV n = true /\ notifyUpdates n = ∅.
Proof.
  unfold canBeDeletedFromParent.
  rewrite !andb_true_iff, !bool_decide_eq_true, Z.eqb_eq, negb_true_iff.
  tauto.
Qed.

(** [collectGarbage] takes the node out of the tree exactly when the node
    has a parent and [canBeDeletedFromParent] holds of it after the purge
    transitions. *)
Lemma collectGarbage_removes csv root n :
  getNode csv root = Some n ->
  getNode csv (collectGarbage csv root).1 = None <->
  csv <> [] /\ canBeDeletedFromParent (collectGarbage_purge n) = true.
Proof.
  intros Hn. unfold collectGarbage. rewrite Hn.
  destruct (parent csv) as [par|] eqn:Epar.
  - pose proof (parent_Some csv par Epar) as Ecsv.
    destruct (canBeDeletedFromParent (collectGarbage_purge n)); simpl.
    + rewrite Ecsv at 1. rewrite getNode_delete_child.
      split; [intros _; split; [by intros ->|done]|done].
    + rewrite getNode_update_same, Hn. simpl. split; [done|by intros [_ ?]].
  - simpl. rewrite getNode_update_same, Hn. simpl.
    split; [done|]. destruct csv; [by intros [? _]|done].
Qed.

End GarbageLemmas.

(** ** Loss of consistency goes up to the root *)

Section LossLemmas.

Implicit Types (p q csv : ptr) (root n : CacheStoreValue).

Lemma raiseLoss_time lossTime n :
  storeConsistencyWithKVLossTime (raiseLoss lossTime n)
  = Z.max (storeConsistencyWithKVLossTime n) lossTime.
Proof.
  unfold raiseLoss. destruct (Z.ltb_spec (storeConsistencyWithKVLossTime n) lossTime);
    simpl; lia.
Qed.

Lemma raiseLoss_store lossTime n : store (raiseLoss lossTime n) = store n.
Proof. unfold raiseLoss. by destruct (_ <? _). Qed.

(** An update that keeps the children of the node it changes leaves every
    node that is not above that node as it was. *)
Lemma getNode_update_not_prefix f p q root :
  (forall n, store (f n) = store n) ->
  ~ q `prefix_of` p ->
  getNode q (update p f root) = getNode q root.
Proof.
  intros Hs. revert q root. induction p as [|k p IH]; intros q root Hq; simpl.
  - destruct q as [|k' q]; [destruct Hq; apply prefix_nil|].
    simpl. by rewrite Hs.
  - destruct q as [|k' q]; [destruct Hq; apply prefix_nil|].
    destruct (store root !! k) as [c|] eqn:E; [|done]. simpl.
    destruct (decide (k = k')) as [->|Hne].
    + rewrite lookup_insert_eq, E. apply IH.
      intros Hp. apply Hq. by apply prefix_cons.
    + by rewrite lookup_insert_ne.
Qed.

(** An update that keeps the children of the node it changes leaves, on
    every other node, whatever does not depend on the children. *)
Lemma update_other_view {A} (V : CacheStoreValue -> A) f :
  (forall n, store (f n) = store n) ->
  (forall s n, V (set_store s n) = V n) ->
  forall p q root, q <> p ->
    V <$> getNode q (update p f root) = V <$> getNode q root.
Proof.
  intros Hs Hset p. induction p as [|k p IH]; intros q root Hq; simpl.
  - destruct q as [|k' q]; [done|]. simpl. by rewrite Hs.
  - destruct (store root !! k) as [c|] eqn:E; [|done].
    destruct q as [|k' q]; simpl; [by rewrite Hset|].
    destruct (decide (k = k')) as [->|Hne].
    + rewrite lookup_insert_eq, E. apply IH. congruence.
    + by rewrite lookup_insert_ne.
Qed.

Lemma prefix_removelast q csv :
  q `prefix_of` removelast csv -> q `prefix_of` csv.
Proof.
  destruct csv as [|k csv _] using rev_ind; [done|].
  rewrite removelast_last. intros. by apply prefix_app_r.
Qed.

Lemma ConsistencyLoss_up_not_prefix d lossTime csv q root :
  ~ q `prefix_of` csv ->
  getNode q (ConsistencyLoss_up d lossTime csv root) = getNode q root.
Proof.
  revert csv root. induction d as [|d IH]; intros csv root Hq; simpl.
  - by apply (getNode_update_not_prefix (raiseLoss lossTime));
      [apply raiseLoss_store|].
  - rewrite IH by (intros Hp; apply Hq; by apply prefix_removelast).
    by apply (getNode_update_not_prefix (raiseLoss lossTime));
      [apply raiseLoss_store|].
Qed.

(** [ConsistencyLoss] changes nothing but loss times. *)
Lemma ConsistencyLoss_up_view {A} (V : CacheStoreValue -> A) d lossTime csv q root :
  (forall s n, V (set_store s n) = V n) ->
  (forall t n, V (set_lossTime t n) = V n) ->
  V <$> getNode q (ConsistencyLoss_up d lossTime csv root) = V <$> getNode q root.
Proof.
  intros Hset Hloss.
  assert (Hraise : forall n, V (raiseLoss lossTime n) = V n).
  { intros n. unfold raiseLoss. by destruct (_ <? _). }
  revert csv root. induction d as [|d IH]; intros csv root; simpl.
  - by apply (update_preserves_view V (raiseLoss lossTime));
      [apply raiseLoss_store| |].
  - rewrite IH.
    by apply (update_preserves_view V (raiseLoss lossTime));
      [apply raiseLoss_store| |].
Qed.

Local Abbreviation lossOf := storeConsistencyWithKVLossTime.

Lemma update_raise_loss_same lossTime p root :
  lossOf <$> getNode p (update p (raiseLoss lossTime) root)
  = (fun n => Z.max (lossOf n) lossTime) <$> getNode p root.
Proof.
  rewrite getNode_update_same. destruct (getNode p root); simpl; [|done].
  by rewrite raiseLoss_time.
Qed.

Lemma update_raise_loss_other lossTime p q root :
  q <> p ->
  lossOf <$> getNode q (update p (raiseLoss lossTime) root)
  = lossOf <$> getNode q root.
Proof.
  intros Hne.
  by apply (update_other_view lossOf (raiseLoss lossTime));
    [apply raiseLoss_store| |].
Qed.

(** [ConsistencyLoss] raises the loss time of the node and of every node
    above it, up to the root. *)
Lemma ConsistencyLoss_up_prefix d lossTime csv q root :
  q `prefix_of` csv ->
  (length csv <= length q + d)%nat ->
  lossOf <$> getNode q (ConsistencyLoss_up d lossTime csv root)
  = (fun n => Z.max (lossOf n) lossTime) <$> getNode q root.
Proof.
  revert csv root. induction d as [|d IH]; intros csv root Hq Hlen; simpl.
  - assert (q = csv) as ->.
    { destruct Hq as [r ->]. rewrite length_app in Hlen.
      destruct r; [by rewrite app_nil_r|simpl in Hlen; lia]. }
    apply update_raise_loss_same.
  - destruct (decide (q = csv)) as [->|Hne].
    + destruct (decide (csv `prefix_of` removelast csv)) as [Hp|Hp].
      * (* only the root is above itself *)
        assert (csv = []) as ->.
        { destruct csv as [|k csv _] using rev_ind; [done|].
          rewrite removelast_last in Hp. apply prefix_length in Hp.
          rewrite length_app in Hp. simpl in Hp. lia. }
        change (removelast []) with (@nil string).
        rewrite IH by (done || simpl; lia).
        simpl. rewrite raiseLoss_time. f_equal. lia.
      * rewrite ConsistencyLoss_up_not_prefix by done.
        apply update_raise_loss_same.
    + assert (q `prefix_of` removelast csv /\ (length (removelast csv) <= length q + d)%nat)
        as [Hq' Hlen'].
      { destruct csv as [|k csv _] using rev_ind.
        - apply prefix_nil_inv in Hq. done.
        - rewrite removelast_last. destruct Hq as [r Hr].
          destruct r as [|x r _] using rev_ind.
          + rewrite app_nil_r in Hr. done.
          + rewrite app_assoc in Hr. apply app_inj_tail in Hr as [-> ->].
            split; [by exists r|].
            rewrite !length_app in *. simpl in *. lia. }
      rewrite IH by done.
      by apply (update_other_view (fun n => Z.max (lossOf n) lossTime)
                  (raiseLoss lossTime)); [apply raiseLoss_store| |].
Qed.

Lemma ConsistencyLoss_above lossTime csv q root :
  q `prefix_of` csv ->
  lossOf <$> getNode q (ConsistencyLoss lossTime csv root)
  = (fun n => Z.max (lossOf n) lossTime) <$> getNode q root.
Proof. intros Hq. apply ConsistencyLoss_up_prefix; [done|lia]. Qed.

End LossLemmas.

(** ** C2: the lazy writer on a cold node *)

Section Sweeper.

Context {B : Type} `{KV : nats_KeyValue B}.
Implicit Types (cs : CacheStore B) (n : CacheStoreValue).

Local Abbreviation lossOf := storeConsistencyWithKVLossTime.

Lemma lruPurge_clean n :
  syncNeeded n = false -> purgeState n = 0 ->
  lruPurge n = set_purgeState (if syncedWithKV n then 2 else 1) n.
Proof.
  intros Hs Hp. unfold lruPurge, TryPurgeReady, TryPurgeConfirm.
  rewrite Hp. simpl. rewrite Hs. simpl.
  destruct (syncedWithKV n) eqn:E; simpl; [done|].
  destruct n; simpl in *; by subst.
Qed.

Lemma lruPurge_store n : store (lruPurge n) = store n.
Proof.
  unfold lruPurge, TryPurgeReady, TryPurgeConfirm.
  destruct (purgeState n =? 0); simpl;
    by destruct (negb _ && _ && _).
Qed.

Lemma snoc_not_prefix (p : ptr) k : ~ (p ++ [k]) `prefix_of` p.
Proof.
  intros H. apply prefix_length in H. rewrite length_app in H. simpl in H. lia.
Qed.

Lemma collectGarbage_purge_confirmed n :
  purgeState n = 2 -> collectGarbage_purge n = n.
Proof.
  intros Hp. unfold collectGarbage_purge, TryPurgeReady, TryPurgeConfirm.
  destruct (negb (valueExists n) && _ && _); [|done].
  rewrite Hp. simpl. rewrite Hp.
  by rewrite andb_false_r.
Qed.

(** The callback of the lazy writer on a child that is clean and cold. *)
Lemma lazyWriter_child_cold par key suffix depth now stack cs n :
  getNode (par ++ [key]) (rootValue cs) = Some n ->
  syncNeeded n = false ->
  0 < valueUpdateTime n ->
  valueUpdateTime n <= lruTresholdTime cs ->
  purgeState n = 0 ->
  let cs' := (lazyWriter_child par suffix depth now (cs, stack) key).1 in
  getNode (par ++ [key]) (rootValue cs')
  = Some (set_purgeState (if syncedWithKV n then 2 else 1) n)
  /\ (forall q, q `prefix_of` par ->
        lossOf <$> getNode q (rootValue cs')
        = (fun a => Z.max (lossOf a) now) <$> getNode q (rootValue cs))
  /\ kv cs' = kv cs
  /\ stdout cs' = stdout cs
  /\ (syncedWithKV n = true -> store n = ∅ -> notifyUpdates n = ∅ ->
      getNode (par ++ [key])
        (collectGarbage (par ++ [key]) (rootValue cs')).1 = None).
Proof.
  intros Hn Hsync Hpos Hcold Hpurge cs'.
  assert (Hroot : cs' = set_rootValue
            (update (par ++ [key]) lruPurge
               (ConsistencyLoss now par (rootValue cs))) cs).
  { subst cs'. unfold lazyWriter_child, lazyWriter_mark. rewrite Hn, Hsync.
    unfold lruCold. rewrite Hpurge.
    apply Z.ltb_lt in Hpos. apply Z.leb_le in Hcold. rewrite Hpos, Hcold. simpl.
    unfold lazyWriter_put. simpl.
    rewrite getNode_update_same.
    unfold ConsistencyLoss.
    rewrite ConsistencyLoss_up_not_prefix by apply snoc_not_prefix.
    rewrite Hn. simpl. rewrite lruPurge_clean by done. simpl.
    by rewrite Hsync. }
  assert (Hchild : getNode (par ++ [key]) (rootValue cs')
                   = Some (set_purgeState (if syncedWithKV n then 2 else 1) n)).
  { rewrite Hroot. simpl. rewrite getNode_update_same. unfold ConsistencyLoss.
    rewrite ConsistencyLoss_up_not_prefix by apply snoc_not_prefix.
    rewrite Hn. simpl. by rewrite lruPurge_clean. }
  split_and!.
  - done.
  - intros q Hq. rewrite Hroot. simpl.
    rewrite (update_other_view lossOf lruPurge); [|apply lruPurge_store|done|].
    + by apply ConsistencyLoss_above.
    + intros ->. by apply snoc_not_prefix in Hq.
  - by rewrite Hroot.
  - by rewrite Hroot.
  - intros Hsynced Hstore Hsubs.
    apply (collectGarbage_removes _ _ _ Hchild). split; [by destruct par|].
    rewrite Hsynced. rewrite collectGarbage_purge_confirmed by done.
    apply canBeDeletedFromParent_spec. done.
Qed.

End Sweeper.




(** ** The wire header *)

Section WireLemmas.

Implicit Types (b : list byte).

Lemma index_8_framed b : 9 <= Wire.len b -> is_Some (Wire.index_8 b).
Proof.
  unfold Wire.len, Wire.index_8. intros H. apply lookup_lt_is_Some. lia.
Qed.

Lemma slice_to_8_framed b :
  9 <= Wire.len b -> Wire.slice_to_8 b = Some (take 8 b).
Proof.
  unfold Wire.slice_to_8. intros H.
  destruct (Z.leb_spec 8 (Wire.len b)); [done|lia].
Qed.

Lemma slice_from_9_framed b :
  9 <= Wire.len b -> Wire.slice_from_9 b = Some (drop 9 b).
Proof.
  unfold Wire.slice_from_9. intros H.
  destruct (Z.leb_spec 9 (Wire.len b)); [done|lia].
Qed.

Lemma slice_from_9_short b :
  Wire.len b < 9 -> Wire.slice_from_9 b = None.
Proof.
  unfold Wire.slice_from_9. intros H.
  destruct (Z.leb_spec 9 (Wire.len b)); [lia|done].
Qed.

Lemma Uint64_take b : Wire.Uint64 (take 8 b) = Wire.Uint64 b.
Proof. unfold Wire.Uint64. by rewrite take_take. Qed.

End WireLemmas.

(** ** The watcher *)

Section Watcher.

Context {B : Type} `{KV : nats_KeyValue B}.
Implicit Types (cs : CacheStore B) (n : CacheStoreValue).

Lemma lastKeyLoop_spec tokens cur root :
  is_Some (getNode cur root) ->
  lastKeyLoop tokens cur root
  = match getNode (cur ++ tokens) root with
    | Some _ => Some (cur ++ tokens)
    | None => None
    end.
Proof.
  revert cur. induction tokens as [|t tokens IH]; intros cur [m Hm]; simpl.
  - by rewrite app_nil_r, Hm.
  - rewrite LoadChild_spec.
    replace (cur ++ t :: tokens) with ((cur ++ [t]) ++ tokens)
      by (by rewrite <- app_assoc).
    destruct (getNode (cur ++ [t]) root) as [c|] eqn:Ec.
    + apply IH. eauto.
    + by rewrite getNode_app, Ec.
Qed.

Lemma getLastKeyCacheStoreValue_spec key root :
  getLastKeyCacheStoreValue key root
  = match getNode (Strs.Split key) root with
    | Some _ => Some (Strs.Split key)
    | None => None
    end.
Proof.
  unfold getLastKeyCacheStoreValue.
  by rewrite lastKeyLoop_spec by (simpl; eauto).
Qed.

Lemma storeUpdatesHandler_entry_framed entry now cs :
  9 <= Wire.len (entryValue entry) ->
  exists flag, entryValue entry !! 8%nat = Some flag
    /\ storeUpdatesHandler_entry (Some entry) now cs
       = Returns (handleFramed entry flag now cs).
Proof.
  intros Hlen. destruct (index_8_framed _ Hlen) as [flag Hflag].
  exists flag. split; [exact Hflag|].
  unfold storeUpdatesHandler_entry, handleFramed, recordTime.
  pose proof Hlen as Hlen'. apply Z.leb_le in Hlen'. rewrite Hlen'.
  rewrite Hflag, slice_to_8_framed by done. simpl.
  rewrite Uint64_take.
  destruct (_ <? _).
  - destruct (Byte.eqb flag x01); [|done].
    by rewrite slice_from_9_framed.
  - destruct (_ =? _); [|done].
    destruct (Byte.eqb flag x00); simpl;
      rewrite getLastKeyCacheStoreValue_spec;
      by destruct (getNode _ _).
Qed.

End Watcher.

(** ** C10 and C4: records that are not newer than the cache *)

Section WatcherClaims.

Context {B : Type} `{KV : nats_KeyValue B}.
Implicit Types (cs : CacheStore B) (n : CacheStoreValue).

Lemma confirmSync_store n : store (confirmSync n) = store n.
Proof.
  unfold confirmSync, TryPurgeConfirm. simpl.
  by destruct (negb _ && _ && _).
Qed.

Lemma confirmSync_fields n :
  value (confirmSync n) = value n
  /\ valueExists (confirmSync n) = valueExists n
  /\ valueUpdateTime (confirmSync n) = valueUpdateTime n
  /\ syncNeeded (confirmSync n) = syncNeeded n
  /\ syncedWithKV (confirmSync n) = true
  /\ purgeState (confirmSync n)
     = (if negb (syncNeeded n) && (purgeState n =? 1) then 2 else purgeState n).
Proof.
  unfold confirmSync, TryPurgeConfirm. simpl.
  by destruct (negb (syncNeeded n)), (purgeState n =? 1).
Qed.

(** C10: a record of the bucket whose time is below the update time of the
    key in the cache is ignored, the store is left as it was; and a record
    whose time is not above the update time of the key leaves the value and
    [valueExists] of every node as they were. *)
Theorem C10_stale_record_ignored entry now cs :
  9 <= Wire.len (entryValue entry) ->
  recordTime (entryValue entry)
    <= GetValueUpdateTime (fromStoreKey cs (entryKey entry)) cs ->
  exists cs',
    storeUpdatesHandler_entry (Some entry) now cs = Returns cs'
    /\ (recordTime (entryValue entry)
          < GetValueUpdateTime (fromStoreKey cs (entryKey entry)) cs ->
        cs' = cs)
    /\ forall q,
         (fun n => (value n, valueExists n)) <$> getNode q (rootValue cs')
         = (fun n => (value n, valueExists n)) <$> getNode q (rootValue cs).
Proof.
  intros Hlen Hle.
  destruct (storeUpdatesHandler_entry_framed entry now cs Hlen)
    as (flag & _ & ->).
  eexists. split; [done|]. unfold handleFramed.
  destruct (Z.ltb_spec (GetValueUpdateTime (fromStoreKey cs (entryKey entry)) cs)
                       (recordTime (entryValue entry))); [lia|].
  destruct (Z.eqb_spec (recordTime (entryValue entry))
                       (GetValueUpdateTime (fromStoreKey cs (entryKey entry)) cs)).
  - split; [lia|]. intros q.
    destruct (getNode (Strs.Split _) (rootValue cs)).
    + destruct (Byte.eqb flag x00); simpl;
        apply (update_preserves_view (fun n => (value n, valueExists n)));
        intros; try done; try apply confirmSync_store;
        destruct (confirmSync_fields n) as (-> & -> & _); done.
    + by destruct (Byte.eqb flag x00).
  - done.
Qed.

(** C4, as the code has it: a local write, a local delete and the creation
    of a node leave [syncNeeded] the negation of [syncedWithKV]; when the
    watcher receives a record whose time is the update time of the key, it
    sets [syncedWithKV] on the node of the key and may confirm a purge that
    was waiting, and it leaves [syncNeeded], the value, [valueExists] and
    the update time as they were. *)
Theorem C4_echo_sets_synced_only :
  (forall v u t m,
     syncNeeded (Put_fields v u t m) = negb (syncedWithKV (Put_fields v u t m)))
  /\ (forall u t m,
        syncNeeded (Delete_fields u t m)
        = negb (syncedWithKV (Delete_fields u t m)))
  /\ (forall v u t,
        syncNeeded (newValueNode v u t) = negb (syncedWithKV (newValueNode v u t)))
  /\ (forall now,
        syncNeeded (routingNode now) = negb (syncedWithKV (routingNode now)))
  /\ (forall entry now cs n,
        9 <= Wire.len (entryValue entry) ->
        recordTime (entryValue entry)
          = GetValueUpdateTime (fromStoreKey cs (entryKey entry)) cs ->
        getNode (Strs.Split (fromStoreKey cs (entryKey entry))) (rootValue cs)
          = Some n ->
        exists cs' n',
          storeUpdatesHandler_entry (Some entry) now cs = Returns cs'
          /\ getNode (Strs.Split (fromStoreKey cs (entryKey entry)))
                     (rootValue cs') = Some n'
          /\ syncedWithKV n' = true
          /\ syncNeeded n' = syncNeeded n
          /\ value n' = value n
          /\ valueExists n' = valueExists n
          /\ valueUpdateTime n' = valueUpdateTime n
          /\ purgeState n'
             = (if negb (syncNeeded n) && (purgeState n =? 1)
                then 2 else purgeState n)).
Proof.
  split_and!.
  - intros v u t m. simpl. by rewrite negb_involutive.
  - intros [] t m; done.
  - intros v u t. simpl. by rewrite negb_involutive.
  - done.
  - intros entry now cs n Hlen Heq Hn.
    destruct (storeUpdatesHandler_entry_framed entry now cs Hlen)
      as (flag & _ & ->).
    unfold handleFramed. rewrite <- Heq, Z.ltb_irrefl, Z.eqb_refl, Hn.
    destruct (confirmSync_fields n) as (Hv & He & Ht & Hs & Hk & Hp).
    exists (set_rootValue
              (update (Strs.Split (fromStoreKey cs (entryKey entry)))
                      confirmSync (rootValue cs))
              (if Byte.eqb flag x00
               then set_kv (kvDelete (kv cs) (entryKey entry)) cs else cs)),
           (confirmSync n).
    split_and!; try done.
    simpl. by rewrite getNode_update_same, Hn.
Qed.

End WatcherClaims.

Lemma reachable_s0 : reachable s0.
Proof.
  apply (reachable_step cs0); [apply reachable_new|].
  apply (step_watcher None 0). vm_compute. reflexivity.
Qed.

Lemma reachable_e2 : reachable e2.
Proof.
  apply (reachable_step e1).
  - apply (reachable_step s0); [apply reachable_s0|]. apply step_SetValue.
  - apply (step_watcher (Some echo) 6). vm_compute. reflexivity.
Qed.

Lemma C4_echo_sets_synced_only_witness :
  exists cs' n',
    storeUpdatesHandler_entry (Some echo) 6 e1 = Returns cs'
    /\ getNode ["a"] (rootValue cs') = Some n'
    /\ syncedWithKV n' = true /\ syncNeeded n' = true.
Proof.
  destruct C4_echo_sets_synced_only as (_ & _ & _ & _ & H).
  destruct (H echo 6 e1 (mkCSV (Some old) true 0 ∅ 0 100 ∅ true false))
    as (cs' & n' & H1 & H2 & H3 & H4 & _).
  - by vm_compute.
  - by vm_compute.
  - by vm_compute.
  - exists cs', n'. split_and!; [exact H1|exact H2|exact H3|exact H4].
Defined.

(** C4, as the specification states it, fails: the node of a key that was
    set at the time 100 and whose record of the same time the watcher then
    receives both needs sync and is synced. *)
Lemma C4_counterexample : ~ @syncNeeded_excludes_synced MemKV.t MemKV.bucket.
Proof.
  intros H.
  assert (E : getNode ["a"] (rootValue e2)
              = Some (mkCSV (Some old) true 0 ∅ 0 100 ∅ true true))
    by (vm_compute; reflexivity).
  specialize (H e2 reachable_e2 ["a"] _ E eq_refl). discriminate H.
Qed.

Lemma C10_stale_record_ignored_witness :
  exists cs',
    storeUpdatesHandler_entry (Some stale) 7 t6 = Returns cs'
    /\ (recordTime (entryValue stale)
          < GetValueUpdateTime (fromStoreKey t6 (entryKey stale)) t6 ->
        cs' = t6)
    /\ forall q,
         (fun n => (value n, valueExists n)) <$> getNode q (rootValue cs')
         = (fun n => (value n, valueExists n)) <$> getNode q (rootValue t6).
Proof.
  apply (C10_stale_record_ignored stale 7 t6).
  - by vm_compute.
  - by vm_compute.
Defined.

(** ** C5 and C7: reading a key *)

Section Reading.

Context {B : Type} `{KV : nats_KeyValue B}.
Implicit Types (cs : CacheStore B) (n : CacheStoreValue).

Lemma loadByKey_cachedNode key root :
  loadByKey key root ≫= (fun csv => getNode csv root) = cachedNode key root.
Proof.
  destruct (lastToken_snoc key) as [pre E].
  rewrite (loadByKey_spec key pre (lastToken key) root E).
  unfold cachedNode. rewrite E.
  destruct (getNode (pre ++ [lastToken key]) root) as [n|] eqn:En;
    destruct (0 <? Strs.len (lastToken key)); simpl; by rewrite ?En.
Qed.

(** [GetValue] on a key the cache holds no node for, when the bucket
    answers with a record that has a header. *)
Lemma GetValue_miss_framed key now cs entry :
  cachedNode key (rootValue cs) = None ->
  kvGet (kv cs) (toStoreKey cs key) = ROk entry ->
  9 <= Wire.len (entryValue entry) ->
  GetValue key now cs
  = let payload := drop 9 (entryValue entry) in
    Returns (payload, None,
             if recordIsSet (entryValue entry)
             then SetValue (fromStoreKey cs (entryKey entry)) payload false
                           (recordTime (entryValue entry)) EmptyString now cs
             else cs).
Proof.
  intros Hmiss Hget Hlen. unfold GetValue.
  rewrite loadByKey_cachedNode, Hmiss, Hget. simpl.
  rewrite slice_from_9_framed by done. simpl.
  pose proof Hlen as Hlen'. apply Z.leb_le in Hlen'. rewrite Hlen'.
  destruct (index_8_framed _ Hlen) as [flag Hflag].
  rewrite Hflag, slice_to_8_framed by done. simpl.
  unfold recordTime, recordIsSet. rewrite Uint64_take.
  unfold Wire.index_8 in Hflag. rewrite Hflag.
  by destruct (Byte.eqb flag x01).
Qed.

(** [GetValue] on a key the cache holds no node for, when the bucket
    answers with a record shorter than the header: the slice expression
    panics. *)
Lemma GetValue_miss_short key now cs entry :
  cachedNode key (rootValue cs) = None ->
  kvGet (kv cs) (toStoreKey cs key) = ROk entry ->
  Wire.len (entryValue entry) < 9 ->
  GetValue key now cs = Panics "slice bounds out of range".
Proof.
  intros Hmiss Hget Hlen. unfold GetValue.
  rewrite loadByKey_cachedNode, Hmiss, Hget. simpl.
  by rewrite slice_from_9_short.
Qed.

(** C5, as the code has it: a node with a value gives its bytes; a node
    without a value gives an error and the bucket is not asked; with no
    node the bucket is asked, its error is returned, and of a record that
    has a header the bytes after the header are returned with no error,
    the cache taking them in, with [updateInKV = false] and the time of the
    record, only when the flag of the record is 1. *)
Theorem C5_GetValue_cases key now cs :
  (forall entry,
     cachedNode key (rootValue cs) = None ->
     kvGet (kv cs) (toStoreKey cs key) = ROk entry ->
     9 <= Wire.len (entryValue entry)) ->
  GetValue key now cs
  = match cachedNode key (rootValue cs) with
    | Some n =>
        if valueExists n
        then Returns (default [] (value n), None, cs)
        else Returns ([], Some ("Value for for key=" +:+ key
                                +:+ " does not exist"), cs)
    | None =>
        match kvGet (kv cs) (toStoreKey cs key) with
        | ROk entry =>
            let payload := drop 9 (entryValue entry) in
            Returns (payload, None,
                     if recordIsSet (entryValue entry)
                     then SetValue (fromStoreKey cs (entryKey entry)) payload
                                   false (recordTime (entryValue entry))
                                   EmptyString now cs
                     else cs)
        | RErr err => Returns ([], Some err, cs)
        end
    end.
Proof.
  intros Hframed.
  destruct (cachedNode key (rootValue cs)) as [n|] eqn:Hnode.
  - unfold GetValue. by rewrite loadByKey_cachedNode, Hnode.
  - destruct (kvGet (kv cs) (toStoreKey cs key)) as [entry|err] eqn:Hget.
    + by apply GetValue_miss_framed; [| |apply Hframed].
    + unfold GetValue. by rewrite loadByKey_cachedNode, Hnode, Hget.
Qed.

(** The watcher never panics on a record: each of its index and slice
    expressions is under the test of the length. *)
Lemma storeUpdatesHandler_entry_returns entry now cs :
  exists cs', storeUpdatesHandler_entry (Some entry) now cs = Returns cs'.
Proof.
  destruct (Z.le_gt_cases 9 (Wire.len (entryValue entry))) as [Hlen|Hlen].
  - destruct (storeUpdatesHandler_entry_framed entry now cs Hlen)
      as (flag & _ & ->). eauto.
  - unfold storeUpdatesHandler_entry.
    destruct (Z.leb_spec 9 (Wire.len (entryValue entry))); [lia|].
    destruct (Wire.len (entryValue entry) =? 0); [|eauto].
    destruct (getLastKeyCacheStoreValue _ _); eauto.
Qed.

(** A record of 1 to 8 bytes is reported and dropped. *)
Lemma storeUpdatesHandler_entry_malformed entry now cs :
  0 < Wire.len (entryValue entry) < 9 ->
  storeUpdatesHandler_entry (Some entry) now cs
  = Returns
      (Printf ("ERROR storeUpdatesHandler: received value without time and append flag!"
               +:+ Strs.nl) cs).
Proof.
  intros Hlen. unfold storeUpdatesHandler_entry.
  destruct (Z.leb_spec 9 (Wire.len (entryValue entry))); [lia|].
  destruct (Z.eqb_spec (Wire.len (entryValue entry)) 0); [lia|done].
Qed.

End Reading.

Lemma C5_GetValue_cases_witness :
  GetValue "d" 7 d0 = Returns ([], None, d0).
Proof.
  rewrite (C5_GetValue_cases "d" 7 d0).
  - vm_compute. reflexivity.
  - intros entry _ Hget.
    assert (E : kvGet (kv d0) (toStoreKey d0 "d")
                = ROk (mkEntry "store.d" (Wire.frame 100 x00 [])))
      by (vm_compute; reflexivity).
    assert (entry = mkEntry "store.d" (Wire.frame 100 x00 [])) as ->
      by congruence.
    by vm_compute.
Defined.

(** C5, as the specification states it, fails: the bucket holds for the
    key [d] a record with a header and the flag 0; [GetValue] returns with
    no error and the cache does not take the record in. *)
Lemma C5_counterexample : ~ GetValue_as_specified "d" 7 d0.
Proof.
  unfold GetValue_as_specified.
  assert (E1 : cachedNode "d" (rootValue d0) = None) by (vm_compute; reflexivity).
  assert (E2 : kvGet (kv d0) (toStoreKey d0 "d")
               = ROk (mkEntry "store.d" (Wire.frame 100 x00 [])))
    by (vm_compute; reflexivity).
  rewrite E1, E2. cbv zeta. intros H.
  assert (E3 : GetValue "d" 7 d0 = Returns ([], None, d0))
    by (vm_compute; reflexivity).
  rewrite E3 in H.
  assert (E4 : d0 = SetValue
                      (fromStoreKey d0 (entryKey (mkEntry "store.d" (Wire.frame 100 x00 []))))
                      (drop 9 (entryValue (mkEntry "store.d" (Wire.frame 100 x00 []))))
                      false
                      (recordTime (entryValue (mkEntry "store.d" (Wire.frame 100 x00 []))))
                      EmptyString 7 d0) by congruence.
  apply (f_equal (fun c => getNode ["d"] (rootValue c))) in E4.
  vm_compute in E4. discriminate E4.
Qed.

(** C7, the failing input: the bucket holds for the key [a] a record of
    three bytes and the cache holds no node for [a]; [GetValue] takes
    [valueBytes[9:]] before it looks at the length, and panics. *)
Theorem C7_GetValue_short_record_panics :
  GetValue "a" 7 short0 = Panics "slice bounds out of range".
Proof.
  apply (GetValue_miss_short "a" 7 short0 (mkEntry "store.a" [x01; x02; x03])).
  - vm_compute. reflexivity.
  - vm_compute. reflexivity.
  - by vm_compute.
Qed.

(** ** C8: the threshold of the lazy writer *)

Section Threshold.

Context {B : Type} `{KV : nats_KeyValue B}.
Implicit Types (cs : CacheStore B) (l : list Z).

Lemma insertDesc_perm x l : insertDesc x l ≡ₚ x :: l.
Proof.
  induction l as [|y l IH]; simpl; [done|].
  destruct (y <? x); [done|].
  rewrite IH. apply Permutation_swap.
Qed.

Lemma sortDesc_perm l : sortDesc l ≡ₚ l.
Proof.
  induction l as [|x l IH]; simpl; [done|].
  by rewrite insertDesc_perm, IH.
Qed.

Lemma insertDesc_sorted x l :
  StronglySorted Z.ge l -> StronglySorted Z.ge (insertDesc x l).
Proof.
  induction 1 as [|y l Hl IH Hy]; simpl.
  - repeat constructor.
  - destruct (Z.ltb_spec y x).
    + constructor; [by constructor|].
      constructor; [lia|]. eapply Forall_impl; [exact Hy|]. simpl. lia.
    + constructor; [exact IH|].
      rewrite insertDesc_perm. constructor; [lia|exact Hy].
Qed.

Lemma sortDesc_sorted l : StronglySorted Z.ge (sortDesc l).
Proof.
  induction l as [|x l IH]; simpl; [constructor|].
  by apply insertDesc_sorted.
Qed.

Lemma sortDesc_length l : length (sortDesc l) = length l.
Proof. by rewrite sortDesc_perm. Qed.

(** The end of a pass, on the times the walk has recorded. *)
Lemma lazyWriter_finish_spec lruTimes cs :
  lruTimes <> [] ->
  0 < lruSize (cacheConfig cs) ->
  exists cs',
    lazyWriter_finish lruTimes cs = Returns cs'
    /\ StronglySorted Z.ge (sortDesc lruTimes)
    /\ sortDesc lruTimes ≡ₚ lruTimes
    /\ sortDesc lruTimes
         !! Z.to_nat (if lruSize (cacheConfig cs) <? Z.of_nat (length lruTimes)
                      then lruSize (cacheConfig cs) - 1
                      else Z.of_nat (length lruTimes) - 1)
       = Some (lruTresholdTime cs')
    /\ valuesInCache cs' = Z.of_nat (length lruTimes)
    /\ rootValue cs' = rootValue cs
    /\ kv cs' = kv cs.
Proof.
  intros Hne Hsize. unfold lazyWriter_finish.
  rewrite sortDesc_length.
  set (len := Z.of_nat (length lruTimes)).
  set (size := lruSize (cacheConfig cs)) in *.
  assert (Hlen : 0 < len).
  { subst len. destruct lruTimes; [done|simpl; lia]. }
  assert (Hidx : 0 <= (if size <? len then size - 1 else len - 1) < len).
  { destruct (Z.ltb_spec size len); lia. }
  assert (Hex : is_Some (sortDesc lruTimes
                 !! Z.to_nat (if size <? len then size - 1 else len - 1))).
  { apply lookup_lt_is_Some. rewrite sortDesc_length. subst len. lia. }
  destruct Hex as [t Ht].
  assert (Hz : (if size <? len
                then indexZ (sortDesc lruTimes) (size - 1)
                else indexZ (sortDesc lruTimes) (len - 1)) = Some t).
  { unfold indexZ. destruct (Z.ltb_spec size len).
    - destruct (Z.ltb_spec (size - 1) 0); [lia|done].
    - destruct (Z.ltb_spec (len - 1) 0); [lia|done]. }
  rewrite Hz. simpl. eexists. split; [done|]. simpl.
  split_and!; try done.
  - apply sortDesc_sorted.
  - apply sortDesc_perm.
Qed.

(** A round of the walk records the update time of the node it visits. *)
Lemma lazyWriter_visit_records top stack lruTimes now cs cs' stack' lruTimes' :
  lazyWriter_visit top stack lruTimes now cs = Some (cs', stack', lruTimes') ->
  exists n, getNode (itemCSV top) (rootValue cs) = Some n
    /\ lruTimes' = lruTimes ++ [valueUpdateTime n].
Proof.
  unfold lazyWriter_visit.
  destruct (getNode (itemCSV top) (rootValue cs)) as [n|]; [|done].
  destruct (fold_left _ _ _) as [cs1 stack1]. intros [= _ _ <-]. eauto.
Qed.

Lemma lazyWriter_walk_extends fuel stack lruTimes now cs cs' lruTimes' :
  lazyWriter_walk fuel stack lruTimes now cs = Some (cs', lruTimes') ->
  exists more, lruTimes' = lruTimes ++ more.
Proof.
  revert stack lruTimes cs. induction fuel as [|fuel IH];
    intros stack lruTimes cs; simpl.
  - destruct (last stack); [done|]. intros [= _ <-]. exists []. by rewrite app_nil_r.
  - destruct (last stack) as [top|];
      [|intros [= _ <-]; exists []; by rewrite app_nil_r].
    destruct (lazyWriter_visit top (removelast stack) lruTimes now cs)
      as [[[cs1 stack1] times1]|] eqn:Ev; [|done].
    intros Hw. apply IH in Hw as [more ->].
    apply lazyWriter_visit_records in Ev as (n & _ & ->).
    exists ([valueUpdateTime n] ++ more). by rewrite app_assoc.
Qed.

(** A pass that starts at the root records at least the time of the root. *)
Lemma lazyWriter_walk_records_root fuel now cs cs' lruTimes :
  lazyWriter_walk fuel [mkWalkItem [] EmptyString 0] [] now cs
    = Some (cs', lruTimes) ->
  exists more, lruTimes = valueUpdateTime (rootValue cs) :: more.
Proof.
  destruct fuel as [|fuel]; simpl; [done|].
  destruct (lazyWriter_visit _ _ _ _ _) as [[[cs1 stack1] times1]|] eqn:Ev;
    [|done].
  intros Hw. apply lazyWriter_walk_extends in Hw as [more ->].
  apply lazyWriter_visit_records in Ev as (n & Hn & ->).
  simpl in Hn. injection Hn as <-. eauto.
Qed.

End Threshold.

(** ** C9 and C6: pattern queries *)

Section Patterns.

Context {B : Type} `{KV : nats_KeyValue B}.
Implicit Types (cs : CacheStore B) (n : CacheStoreValue) (keys : gset string).

Lemma drainUpdates_spec cs updates keys :
  drainUpdates cs updates keys
  = keys ∪ list_to_set
             ((fun entry => fromStoreKey cs (entryKey entry))
                <$> takeFramed updates).
Proof.
  revert keys. induction updates as [|[entry|] rest IH]; intros keys; simpl.
  - set_solver.
  - destruct (9 <=? Wire.len (entryValue entry)); simpl.
    + rewrite IH. set_solver.
    + set_solver.
  - set_solver.
Qed.

Lemma appendKeysFromKV_keys pattern keys cs :
  (appendKeysFromKV pattern keys cs).1 = keys ∪ kvEnumeration pattern cs.
Proof.
  unfold appendKeysFromKV, kvEnumeration.
  destruct (kvWatch (kv cs) (toStoreKey cs pattern)); simpl.
  - apply drainUpdates_spec.
  - set_solver.
Qed.

Lemma appendKeysFromKV_store pattern keys cs :
  rootValue (appendKeysFromKV pattern keys cs).2 = rootValue cs
  /\ kv (appendKeysFromKV pattern keys cs).2 = kv cs.
Proof.
  unfold appendKeysFromKV.
  by destruct (kvWatch (kv cs) (toStoreKey cs pattern)).
Qed.

Lemma getLastKeyToken_false pattern root :
  exists pre,
    Strs.Split pattern = pre ++ [lastToken pattern]
    /\ getLastKeyTokenAndItsParentCacheStoreValue pattern false 0 root
       = match getNode pre root with
         | Some _ => (lastToken pattern, Some pre, root)
         | None => (EmptyString, None, root)
         end.
Proof.
  destruct (lastToken_snoc pattern) as [pre E]. exists pre. split; [done|].
  unfold getLastKeyTokenAndItsParentCacheStoreValue. rewrite E.
  by rewrite lastKeyTokenLoop_false by (simpl; eauto).
Qed.

Lemma GetKeysByPattern_noLevel_store pattern cs :
  rootValue (GetKeysByPattern_noLevel pattern cs).2 = rootValue cs
  /\ kv (GetKeysByPattern_noLevel pattern cs).2 = kv cs.
Proof.
  unfold GetKeysByPattern_noLevel.
  destruct (getNode _ _) as [a|]; [|done].
  destruct (0 <? _); [|done]. apply appendKeysFromKV_store.
Qed.

Lemma GetKeysByPattern_literal_store pattern t par P cs :
  rootValue (GetKeysByPattern_literal pattern t par P cs).2 = rootValue cs
  /\ kv (GetKeysByPattern_literal pattern t par P cs).2 = kv cs.
Proof.
  unfold GetKeysByPattern_literal.
  destruct (0 <? _); [|done]. apply appendKeysFromKV_store.
Qed.

Local Abbreviation lossOf := storeConsistencyWithKVLossTime.





Lemma update_at p f g root n :
  getNode p root = Some n -> f n = g n -> update p f root = update p g root.
Proof.
  revert root. induction p as [|k p IH]; intros root; simpl.
  - by intros [= ->].
  - destruct (store root !! k) as [c|]; [|done].
    intros Hn Hfg. by rewrite (IH c Hn Hfg).
Qed.

(** C9: for a pattern whose last token is neither [*] nor [>] the call
    changes no node, so the loss time of the parent stays as it was; when
    the parent of the pattern is in the tree and the last token is not
    empty, the keys returned, each once, are the pattern itself if and only
    if its node is in the tree, and, when the loss time of the parent is
    positive, the keys of the enumeration of the bucket. *)
Theorem C9_literal_pattern fuel pattern cs :
  lastToken pattern <> "*"%string ->
  lastToken pattern <> ">"%string ->
  exists l cs',
    GetKeysByPattern fuel pattern cs = Some (l, cs')
    /\ NoDup l
    /\ rootValue cs' = rootValue cs
    /\ kv cs' = kv cs
    /\ forall P,
         0 < Strs.len (lastToken pattern) ->
         getNode (removelast (Strs.Split pattern)) (rootValue cs) = Some P ->
         forall k,
           k ∈ l <->
           (k = pattern /\ is_Some (getNode (Strs.Split pattern) (rootValue cs)))
           \/ (0 < lossOf P /\ k ∈ kvEnumeration pattern cs).
Proof.
  intros Hstar Hgt.
  apply String.eqb_neq in Hstar, Hgt.
  destruct (getLastKeyToken_false pattern (rootValue cs)) as (pre & E & Hwalk).
  unfold GetKeysByPattern, GetKeysByPattern_keys. rewrite Hwalk, E.
  rewrite removelast_last.
  assert (Hno : exists l cs',
            match GetKeysByPattern_noLevel pattern cs with
            | (keys, cs) => Some (elements keys, cs)
            end = Some (l, cs')
            /\ NoDup l /\ rootValue cs' = rootValue cs /\ kv cs' = kv cs).
  { destruct (GetKeysByPattern_noLevel_store pattern cs) as [Hroot Hkv].
    destruct (GetKeysByPattern_noLevel pattern cs) as [keys cs'].
    exists (elements keys), cs'.
    split_and!; [done|apply NoDup_elements|done|done]. }
  destruct (getNode pre (rootValue cs)) as [P|] eqn:HP.
  - destruct (Z.ltb_spec 0 (Strs.len (lastToken pattern))) as [Hlen|Hlen].
    + rewrite Hstar, Hgt, HP.
      destruct (GetKeysByPattern_literal_store pattern (lastToken pattern)
                  pre P cs) as [Hroot Hkv].
      destruct (GetKeysByPattern_literal pattern (lastToken pattern) pre P cs)
        as [keys cs'] eqn:Hlit.
      exists (elements keys), cs'.
      split_and!; [done|apply NoDup_elements|done|done|].
      intros P' _ [= <-] k. rewrite elem_of_elements.
      apply (f_equal fst) in Hlit. simpl in Hlit. subst keys.
      unfold GetKeysByPattern_literal.
      rewrite LoadChild_spec.
      destruct (Z.ltb_spec 0 (lossOf P)) as [Hloss|Hloss].
      * rewrite appendKeysFromKV_keys.
        destruct (getNode (pre ++ [lastToken pattern]) (rootValue cs)).
        -- rewrite elem_of_union, elem_of_singleton.
           split; [intros [->|?]; [left; eauto|right; eauto]
                  |intros [[-> _]|[_ ?]]; eauto].
        -- rewrite elem_of_union.
           split; [intros [?|?]; [set_solver|right; eauto]
                  |intros [[_ [? ?]]|[_ ?]]; [done|eauto]].
      * simpl.
        destruct (getNode (pre ++ [lastToken pattern]) (rootValue cs)).
        -- rewrite elem_of_singleton.
           split; [eauto|]. intros [[? _]|[? _]]; [done|lia].
        -- split; [set_solver|]. intros [[_ [? ?]]|[? _]]; [done|lia].
    + destruct Hno as (l & cs' & H1 & H2 & H3 & H4).
      exists l, cs'. split_and!; [done|done|done|done|intros; lia].
  - destruct Hno as (l & cs' & H1 & H2 & H3 & H4).
    exists l, cs'. split_and!; [done|done|done|done|intros; congruence].
Qed.



End Patterns.

Lemma C9_literal_pattern_witness :
  exists l cs',
    GetKeysByPattern 10 "k1" s4 = Some (l, cs')
    /\ NoDup l
    /\ rootValue cs' = rootValue s4.
Proof.
  destruct (C9_literal_pattern 10 "k1" s4) as (l & cs' & H1 & H2 & H3 & _).
  - by vm_compute.
  - by vm_compute.
  - exists l, cs'. split_and!; [exact H1|exact H2|exact H3].
Defined.


(** ** The walk of the lazy writer comes to an end *)

Section Sizes.

Implicit Types (p q : ptr) (root n c : CacheStoreValue)
  (m : gmap string CacheStoreValue).

Lemma nsize_unfold n :
  nsize n = S (sum_list (nsize <$> (map_to_list (store n)).*2)).
Proof.
  destruct n as [v e ps m l t s sn sy]. simpl. f_equal.
  rewrite map_fold_foldr.
  induction (map_to_list m) as [|[k c] l' IH]; simpl; [done|].
  by rewrite IH.
Qed.

Lemma nsize_store n n' : store n = store n' -> nsize n = nsize n'.
Proof. intros E. by rewrite !nsize_unfold, E. Qed.

Lemma nsize_insert k c c' n :
  store n !! k = Some c -> nsize c' = nsize c ->
  nsize (set_store (<[k := c']> (store n)) n) = nsize n.
Proof.
  intros Hk Hc. rewrite !nsize_unfold. simpl. f_equal.
  rewrite <- (map_to_list_delete (store n) k c Hk).
  rewrite <- (insert_delete_eq (store n)).
  rewrite map_to_list_insert by apply lookup_delete_eq. simpl.
  by rewrite Hc.
Qed.

(** An update that keeps the children of the node it changes keeps the
    number of nodes below every pointer. *)
Lemma update_nsize f p q root :
  (forall n, store (f n) = store n) ->
  nsize <$> getNode q (update p f root) = nsize <$> getNode q root.
Proof.
  intros Hs. revert q root. induction p as [|k p IH]; intros q root; simpl.
  - destruct q as [|k' q]; simpl.
    + f_equal. by apply nsize_store.
    + by rewrite Hs.
  - destruct (store root !! k) as [c|] eqn:E; [|done].
    destruct q as [|k' q]; simpl.
    + f_equal. apply (nsize_insert k c); [done|].
      specialize (IH [] c). simpl in IH. by injection IH.
    + destruct (decide (k = k')) as [->|Hne].
      * rewrite lookup_insert_eq, E. apply IH.
      * by rewrite lookup_insert_ne.
Qed.

Lemma ConsistencyLoss_up_nsize d lossTime csv q root :
  nsize <$> getNode q (ConsistencyLoss_up d lossTime csv root)
  = nsize <$> getNode q root.
Proof.
  revert csv root. induction d as [|d IH]; intros csv root; simpl.
  - apply update_nsize, raiseLoss_store.
  - rewrite IH. apply update_nsize, raiseLoss_store.
Qed.

Lemma collectGarbage_purge_store n :
  store (collectGarbage_purge n) = store n.
Proof.
  unfold collectGarbage_purge, TryPurgeReady, TryPurgeConfirm.
  destruct (negb _ && _ && _); [|done].
  destruct (purgeState n =? 0); simpl; by destruct (negb _ && _ && _).
Qed.

(** Taking a child out of its parent's map leaves every node that is
    neither the child, nor below it, nor above it, as it was. *)
Lemma getNode_delete_other par k q root :
  ~ (par ++ [k]) `prefix_of` q ->
  ~ q `prefix_of` par ->
  getNode q (update par (fun x => set_store (delete k (store x)) x) root)
  = getNode q root.
Proof.
  revert q root. induction par as [|a par IH]; intros q root Hq1 Hq2; simpl.
  - destruct q as [|k' q]; [destruct Hq2; apply prefix_nil|]. simpl.
    rewrite lookup_delete_ne; [done|].
    intros ->. apply Hq1. apply prefix_cons, prefix_nil.
  - destruct q as [|k' q]; [destruct Hq2; apply prefix_nil|].
    destruct (store root !! a) as [c|] eqn:E; [|done]. simpl.
    destruct (decide (a = k')) as [->|Hne].
    + rewrite lookup_insert_eq, E. apply IH.
      * intros Hp. apply Hq1. by apply prefix_cons.
      * intros Hp. apply Hq2. by apply prefix_cons.
    + by rewrite lookup_insert_ne.
Qed.

(** [collectGarbage] on a node leaves every node that is neither below it
    nor above it as it was. *)
Lemma collectGarbage_other csv q root :
  ~ csv `prefix_of` q ->
  ~ q `prefix_of` csv ->
  getNode q (collectGarbage csv root).1 = getNode q root.
Proof.
  intros Hq1 Hq2. unfold collectGarbage.
  destruct (getNode csv root) as [n|] eqn:Hn; [|done].
  assert (Hroot1 : getNode q (update csv (fun _ => collectGarbage_purge n) root)
                   = getNode q root).
  { rewrite (update_at csv (fun _ => collectGarbage_purge n)
               collectGarbage_purge root n Hn eq_refl).
    apply getNode_update_not_prefix; [apply collectGarbage_purge_store|done]. }
  destruct (parent csv) as [par|] eqn:Epar; [|done].
  destruct (canBeDeletedFromParent _); [|done]. simpl.
  pose proof (parent_Some csv par Epar) as Ecsv.
  rewrite getNode_delete_other; [done| |].
  - by rewrite <- Ecsv.
  - intros Hp. apply Hq2. rewrite Ecsv. by apply prefix_app_r.
Qed.

End Sizes.

Section WalkEnds.

Context {B : Type} `{KV : nats_KeyValue B}.
Implicit Types (cs : CacheStore B) (n : CacheStoreValue) (p q : ptr).

Lemma sameShape_refl cs : sameShape cs cs.
Proof. by split. Qed.

Lemma sameShape_trans cs1 cs2 cs3 :
  sameShape cs1 cs2 -> sameShape cs2 cs3 -> sameShape cs1 cs3.
Proof.
  intros [H1 C1] [H2 C2]. split; [|congruence].
  intros q. by rewrite H2, H1.
Qed.

Lemma sameShape_update f p cs :
  (forall n, store (f n) = store n) ->
  sameShape cs (set_rootValue (update p f (rootValue cs)) cs).
Proof. intros Hs. split; [|done]. intros q. simpl. by apply update_nsize. Qed.

Lemma lazyWriter_mark_shape par key now cs :
  sameShape cs (lazyWriter_mark par key now cs).2.
Proof.
  unfold lazyWriter_mark.
  destruct (getNode (par ++ [key]) (rootValue cs)) as [child|];
    [|apply sameShape_refl].
  destruct (syncNeeded child); [apply sameShape_refl|].
  destruct (lruCold _ _); [|apply sameShape_refl].
  split; [|done]. intros q. simpl.
  rewrite update_nsize by apply lruPurge_store.
  apply ConsistencyLoss_up_nsize.
Qed.

Lemma lazyWriter_put_shape par key newSuffix t bytes cs :
  sameShape cs (lazyWriter_put par key newSuffix t bytes cs).
Proof.
  unfold lazyWriter_put.
  destruct (getNode (par ++ [key]) (rootValue cs)) as [child|];
    [|apply sameShape_refl].
  destruct (syncNeeded child); [|apply sameShape_refl].
  destruct (kvPut _ _ _) as [bucket [err|]]; simpl.
  - by split.
  - split; [|done]. intros q. simpl. apply update_nsize.
    intros n. by destruct (_ =? _).
Qed.

Lemma lazyWriter_child_spec par suffix depth now cs stack key :
  sameShape cs (lazyWriter_child par suffix depth now (cs, stack) key).1
  /\ itemCSV <$> (lazyWriter_child par suffix depth now (cs, stack) key).2
     = (itemCSV <$> stack) ++ [par ++ [key]].
Proof.
  unfold lazyWriter_child.
  pose proof (lazyWriter_mark_shape par key now cs) as Hmark.
  destruct (lazyWriter_mark par key now cs) as [[t bytes] cs1]. simpl in *.
  split.
  - eapply sameShape_trans; [exact Hmark|apply lazyWriter_put_shape].
  - by rewrite fmap_app.
Qed.

Lemma lazyWriter_children_spec par suffix depth now keys cs stack :
  sameShape cs
    (fold_left (lazyWriter_child par suffix depth now) keys (cs, stack)).1
  /\ itemCSV <$> (fold_left (lazyWriter_child par suffix depth now) keys
                            (cs, stack)).2
     = (itemCSV <$> stack) ++ ((fun k => par ++ [k]) <$> keys).
Proof.
  revert cs stack. induction keys as [|k keys IH]; intros cs stack;
    cbn [fold_left].
  - split; [apply sameShape_refl|by rewrite app_nil_r].
  - destruct (lazyWriter_child_spec par suffix depth now cs stack k)
      as [Hs Hst].
    destruct (lazyWriter_child par suffix depth now (cs, stack) k)
      as [cs1 stack1]. cbn [fst snd] in *.
    destruct (IH cs1 stack1) as [Hs' Hst']. split.
    + eapply sameShape_trans; [exact Hs|exact Hs'].
    + rewrite Hst', Hst. by rewrite <- app_assoc.
Qed.

Lemma sameShape_subtreeSize cs cs' p :
  sameShape cs cs' ->
  subtreeSize p (rootValue cs') = subtreeSize p (rootValue cs).
Proof. intros [H _]. unfold subtreeSize. by rewrite H. Qed.

Lemma sameShape_pathsSize cs cs' ps :
  sameShape cs cs' ->
  pathsSize ps (rootValue cs') = pathsSize ps (rootValue cs).
Proof.
  intros H. unfold pathsSize. f_equal.
  apply list_fmap_ext. intros _ p _. by apply sameShape_subtreeSize.
Qed.

Lemma sameShape_is_Some cs cs' p :
  sameShape cs cs' ->
  is_Some (getNode p (rootValue cs)) -> is_Some (getNode p (rootValue cs')).
Proof.
  intros [H _] [n Hn]. specialize (H p). rewrite Hn in H.
  destruct (getNode p (rootValue cs')); [eauto|done].
Qed.

Lemma pathsSize_app ps qs root :
  pathsSize (ps ++ qs) root = (pathsSize ps root + pathsSize qs root)%nat.
Proof. unfold pathsSize. by rewrite fmap_app, sum_list_with_app. Qed.

Lemma prefix_snoc_cases (p t : ptr) k :
  p `prefix_of` t ++ [k] -> p = t ++ [k] \/ p `prefix_of` t.
Proof.
  intros [r Hr]. destruct r as [|x r _] using rev_ind.
  - left. by rewrite app_nil_r in Hr.
  - right. rewrite app_assoc in Hr. apply app_inj_tail in Hr as [-> _].
    by exists r.
Qed.

Lemma pathsSize_children t root N :
  getNode t root = Some N ->
  pathsSize ((fun k => t ++ [k]) <$> (map_to_list (store N)).*1) root
  = pred (nsize N).
Proof.
  intros HN. rewrite (nsize_unfold N). simpl. unfold pathsSize. f_equal.
  rewrite <- !list_fmap_compose.
  apply list_fmap_ext. intros i [k c] Hi. simpl.
  apply list_elem_of_lookup_2, elem_of_map_to_list in Hi.
  unfold subtreeSize. rewrite getNode_app, HN. simpl. by rewrite Hi.
Qed.

Lemma collectGarbageCS_root csv cs :
  rootValue (collectGarbageCS csv cs) = (collectGarbage csv (rootValue cs)).1
  /\ cacheConfig (collectGarbageCS csv cs) = cacheConfig cs.
Proof.
  unfold collectGarbageCS.
  by destruct (collectGarbage csv (rootValue cs)) as [root [par|]].
Qed.

Lemma nsize_pos n : (0 < nsize n)%nat.
Proof. rewrite nsize_unfold. lia. Qed.

(** A round of the walk returns, leaves a stack of the same kind, and
    leaves one node less to walk. *)
Lemma lazyWriter_visit_spec top rest lruTimes now cs :
  stackOK (itemCSV <$> (rest ++ [top])) (rootValue cs) ->
  exists cs' stack' lruTimes',
    lazyWriter_visit top rest lruTimes now cs = Some (cs', stack', lruTimes')
    /\ stackOK (itemCSV <$> stack') (rootValue cs')
    /\ S (pathsSize (itemCSV <$> stack') (rootValue cs'))
       = pathsSize (itemCSV <$> (rest ++ [top])) (rootValue cs)
    /\ cacheConfig cs' = cacheConfig cs.
Proof.
  rewrite fmap_app. simpl.
  set (ps := itemCSV <$> rest). set (t := itemCSV top).
  intros (Hnd & Hanti & Hres).
  apply NoDup_app in Hnd as (Hnd & Hnotin & _).
  assert (Hnt : t ∉ ps).
  { intros Hin. apply (Hnotin t Hin). set_solver. }
  assert (Hinc : forall p, p ∈ ps -> ~ t `prefix_of` p /\ ~ p `prefix_of` t).
  { intros p Hp. split; intros Hpre.
    - apply Hanti in Hpre; [congruence|set_solver|set_solver].
    - apply Hanti in Hpre; [congruence|set_solver|set_solver]. }
  destruct (Hres t) as [N HN]; [set_solver|].
  unfold lazyWriter_visit. fold t. rewrite HN.
  destruct (lazyWriter_children_spec t (itemSuffix top) (itemDepth top) now
              (map_to_list (store N)).*1 cs rest) as [Hshape Hstack].
  destruct (fold_left _ _ _) as [csF stackF]. cbn [fst snd] in *. fold ps in Hstack.
  rewrite pathsSize_app.
  assert (Htop : pathsSize [t] (rootValue cs) = nsize N).
  { unfold pathsSize, subtreeSize. simpl. rewrite HN. simpl. lia. }
  rewrite Htop.
  destruct (bool_decide_reflect ((map_to_list (store N)).*1 = [])) as [Hk|Hk].
  - (* no children: the node is offered to the garbage collector *)
    rewrite Hk in Hstack. simpl in Hstack. rewrite app_nil_r in Hstack.
    destruct (collectGarbageCS_root t csF) as [Hroot Hcfg].
    eexists _, _, _. split; [reflexivity|]. rewrite Hstack.
    assert (Hsame : forall p, p ∈ ps ->
              getNode p (rootValue (collectGarbageCS t csF))
              = getNode p (rootValue csF)).
    { intros p Hp. rewrite Hroot. destruct (Hinc p Hp).
      by apply collectGarbage_other. }
    split_and!.
    + split_and!; [done|intros p q ???; apply Hanti; set_solver|].
      intros p Hp. rewrite Hsame by done.
      apply (sameShape_is_Some cs); [done|]. apply Hres. set_solver.
    + assert (pathsSize ps (rootValue (collectGarbageCS t csF))
              = pathsSize ps (rootValue cs)) as ->.
      { rewrite <- (sameShape_pathsSize cs csF ps Hshape).
        unfold pathsSize. f_equal. apply list_fmap_ext. intros i p Hi.
        unfold subtreeSize. rewrite Hsame; [done|].
        by apply list_elem_of_lookup_2 in Hi. }
      rewrite (nsize_unfold N).
      apply fmap_nil_inv in Hk. rewrite Hk. simpl. lia.
    + destruct Hshape as [_ Hc]. congruence.
  - (* the children are pushed *)
    eexists _, _, _. split; [reflexivity|]. rewrite Hstack.
    split_and!.
    + split_and!.
      * apply NoDup_app. split_and!; [done| |].
        -- intros p Hp Hc. apply list_elem_of_fmap in Hc as (k & -> & _).
           destruct (Hinc _ Hp) as [Ht _]. apply Ht. by apply prefix_app_r.
        -- apply (NoDup_fmap_2 _). apply NoDup_fst_map_to_list.
      * intros p q Hp Hq Hpre.
        apply elem_of_app in Hp as [Hp|Hp], Hq as [Hq|Hq].
        -- apply Hanti; set_solver.
        -- apply list_elem_of_fmap in Hq as (k & -> & _).
           destruct (Hinc _ Hp) as [Ht1 Ht2].
           apply prefix_snoc_cases in Hpre as [->|Hpre]; [|done].
           destruct Ht1. by apply prefix_app_r.
        -- apply list_elem_of_fmap in Hp as (k & -> & _).
           destruct (Hinc _ Hq) as [Ht1 Ht2].
           destruct Ht1. etrans; [|exact Hpre]. by apply prefix_app_r.
        -- apply list_elem_of_fmap in Hp as (k & -> & _).
           apply list_elem_of_fmap in Hq as (k' & -> & _).
           apply prefix_length_eq; [done|]. rewrite !length_app. simpl. lia.
      * intros p Hp. apply (sameShape_is_Some cs); [done|].
        apply elem_of_app in Hp as [Hp|Hp]; [apply Hres; set_solver|].
        apply list_elem_of_fmap in Hp as (k & -> & Hk').
        apply list_elem_of_fmap in Hk' as ([k' c] & -> & Hkc).
        apply elem_of_map_to_list in Hkc.
        rewrite getNode_app, HN. simpl. rewrite Hkc. eauto.
    + rewrite (sameShape_pathsSize cs csF _ Hshape), pathsSize_app.
      rewrite (pathsSize_children t _ N HN).
      pose proof (nsize_pos N). lia.
    + by destruct Hshape.
Qed.

(** The walk returns when it has as much fuel as there are nodes below the
    pointers of its stack. *)
Lemma lazyWriter_walk_ends fuel stack lruTimes now cs :
  stackOK (itemCSV <$> stack) (rootValue cs) ->
  (pathsSize (itemCSV <$> stack) (rootValue cs) <= fuel)%nat ->
  exists cs' lruTimes',
    lazyWriter_walk fuel stack lruTimes now cs = Some (cs', lruTimes')
    /\ cacheConfig cs' = cacheConfig cs.
Proof.
  revert stack lruTimes cs.
  induction fuel as [|fuel IH]; intros stack lruTimes cs Hok Hsize.
  - destruct stack as [|top rest _] using rev_ind; [simpl; eauto|].
    destruct (lazyWriter_visit_spec top rest lruTimes now cs Hok)
      as (? & ? & ? & _ & _ & Hlt & _). lia.
  - destruct stack as [|top rest _] using rev_ind; [simpl; eauto|].
    destruct (lazyWriter_visit_spec top rest lruTimes now cs Hok)
      as (cs1 & stack1 & times1 & Hvisit & Hok1 & Hlt & Hcfg).
    cbn [lazyWriter_walk]. rewrite last_snoc, removelast_last, Hvisit.
    destruct (IH stack1 times1 cs1 Hok1) as (cs' & times' & Hw & Hcfg');
      [lia|].
    exists cs', times'. split; [done|congruence].
Qed.

(** A pass of the lazy writer over any tree returns, with as much fuel as
    the tree has nodes. *)
Lemma lazyWriter_walk_terminates now cs :
  exists cs' lruTimes,
    lazyWriter_walk (nsize (rootValue cs)) [mkWalkItem [] EmptyString 0] []
                    now cs = Some (cs', lruTimes)
    /\ cacheConfig cs' = cacheConfig cs.
Proof.
  apply lazyWriter_walk_ends.
  - split_and!.
    + apply NoDup_singleton.
    + intros p q Hp Hq _. set_solver.
    + intros p Hp. apply list_elem_of_singleton in Hp as ->. simpl. eauto.
  - unfold pathsSize, subtreeSize. simpl. lia.
Qed.

End WalkEnds.

(** ** C8: the threshold after a full walk *)

Section ThresholdAfterWalk.

Context {B : Type} `{KV : nats_KeyValue B}.
Implicit Types (cs : CacheStore B).


End ThresholdAfterWalk.


(** ** A pass of the lazy writer changes no value *)

Section KeepsValues.

Context {B : Type} `{KV : nats_KeyValue B}.
Implicit Types (cs : CacheStore B) (n : CacheStoreValue) (p q : ptr)
  (root : CacheStoreValue).

Lemma keepsValues_refl root : keepsValues root root.
Proof. intros q n' Hn'. eauto. Qed.

Lemma keepsValues_trans root1 root2 root3 :
  keepsValues root1 root2 -> keepsValues root2 root3 -> keepsValues root1 root3.
Proof.
  intros H12 H23 q n3 Hn3.
  destruct (H23 q n3 Hn3) as (n2 & Hn2 & Hv & He).
  destruct (H12 q n2 Hn2) as (n1 & Hn1 & Hv' & He').
  exists n1. split_and!; [done|congruence|congruence].
Qed.

Lemma keepsValues_update f p root :
  (forall n, store (f n) = store n) ->
  (forall n, value (f n) = value n /\ valueExists (f n) = valueExists n) ->
  keepsValues root (update p f root).
Proof.
  intros Hs Hv q n' Hn'.
  pose proof (update_preserves_view (fun n => (value n, valueExists n)) f Hs)
    as Hview.
  specialize (Hview (fun n => f_equal2 pair (proj1 (Hv n)) (proj2 (Hv n)))
                    (fun s n => eq_refl) p q root).
  rewrite Hn' in Hview. simpl in Hview.
  destruct (getNode q root) as [n|]; [|done].
  injection Hview as Hv1 Hv2. eauto.
Qed.

Lemma keepsValues_ConsistencyLoss_up d lossTime csv root :
  keepsValues root (ConsistencyLoss_up d lossTime csv root).
Proof.
  revert csv root. induction d as [|d IH]; intros csv root; simpl.
  - apply keepsValues_update; [apply raiseLoss_store|].
    intros n. unfold raiseLoss. by destruct (_ <? _).
  - eapply keepsValues_trans; [|apply IH].
    apply keepsValues_update; [apply raiseLoss_store|].
    intros n. unfold raiseLoss. by destruct (_ <? _).
Qed.

Lemma lruPurge_values n :
  value (lruPurge n) = value n /\ valueExists (lruPurge n) = valueExists n.
Proof.
  unfold lruPurge, TryPurgeReady, TryPurgeConfirm.
  destruct (purgeState n =? 0); simpl; by destruct (negb _ && _ && _).
Qed.

Lemma collectGarbage_purge_values n :
  value (collectGarbage_purge n) = value n
  /\ valueExists (collectGarbage_purge n) = valueExists n.
Proof.
  unfold collectGarbage_purge.
  destruct (negb (valueExists n) && _ && _); [|done].
  apply lruPurge_values.
Qed.

Lemma keepsValues_delete par k root :
  keepsValues root
    (update par (fun x => set_store (delete k (store x)) x) root).
Proof.
  revert root. induction par as [|a par IH]; intros root q n' Hn'; simpl in *.
  - destruct q as [|k' q]; simpl in *.
    + injection Hn' as <-. eauto.
    + destruct (decide (k = k')) as [->|Hne].
      * by rewrite lookup_delete_eq in Hn'.
      * rewrite lookup_delete_ne in Hn' by done. eauto.
  - destruct (store root !! a) as [c|] eqn:E; [|eauto].
    destruct q as [|k' q]; simpl in *.
    + injection Hn' as <-. eauto.
    + destruct (decide (a = k')) as [->|Hne].
      * rewrite lookup_insert_eq in Hn'. rewrite E. by apply IH.
      * rewrite lookup_insert_ne in Hn' by done. eauto.
Qed.

Lemma keepsValues_collectGarbage csv root :
  keepsValues root (collectGarbage csv root).1.
Proof.
  unfold collectGarbage.
  destruct (getNode csv root) as [n|] eqn:Hn; [|apply keepsValues_refl].
  assert (H1 : keepsValues root
                 (update csv (fun _ => collectGarbage_purge n) root)).
  { rewrite (update_at csv (fun _ => collectGarbage_purge n)
               collectGarbage_purge root n Hn eq_refl).
    apply keepsValues_update;
      [apply collectGarbage_purge_store|apply collectGarbage_purge_values]. }
  destruct (parent csv) as [par|]; [|done].
  destruct (canBeDeletedFromParent _); [|done]. simpl.
  eapply keepsValues_trans; [exact H1|apply keepsValues_delete].
Qed.

Lemma keepsValues_mark par key now cs :
  keepsValues (rootValue cs) (rootValue (lazyWriter_mark par key now cs).2).
Proof.
  unfold lazyWriter_mark.
  destruct (getNode (par ++ [key]) (rootValue cs)) as [child|];
    [|apply keepsValues_refl].
  destruct (syncNeeded child); [apply keepsValues_refl|].
  destruct (lruCold _ _); [|apply keepsValues_refl]. simpl.
  eapply keepsValues_trans; [apply keepsValues_ConsistencyLoss_up|].
  apply keepsValues_update; [apply lruPurge_store|apply lruPurge_values].
Qed.

Lemma keepsValues_put par key newSuffix t bytes cs :
  keepsValues (rootValue cs)
              (rootValue (lazyWriter_put par key newSuffix t bytes cs)).
Proof.
  unfold lazyWriter_put.
  destruct (getNode (par ++ [key]) (rootValue cs)) as [child|];
    [|apply keepsValues_refl].
  destruct (syncNeeded child); [|apply keepsValues_refl].
  destruct (kvPut _ _ _) as [bucket [err|]]; simpl.
  - apply keepsValues_refl.
  - apply keepsValues_update; intros n; by destruct (_ =? _).
Qed.

Lemma keepsValues_child par suffix depth now cs stack key :
  keepsValues (rootValue cs)
    (rootValue (lazyWriter_child par suffix depth now (cs, stack) key).1).
Proof.
  unfold lazyWriter_child.
  pose proof (keepsValues_mark par key now cs) as Hmark.
  destruct (lazyWriter_mark par key now cs) as [[t bytes] cs1]. simpl in *.
  eapply keepsValues_trans; [exact Hmark|apply keepsValues_put].
Qed.

Lemma keepsValues_children par suffix depth now keys cs stack :
  keepsValues (rootValue cs)
    (rootValue (fold_left (lazyWriter_child par suffix depth now) keys
                          (cs, stack)).1).
Proof.
  revert cs stack. induction keys as [|k keys IH]; intros cs stack;
    cbn [fold_left].
  - apply keepsValues_refl.
  - pose proof (keepsValues_child par suffix depth now cs stack k) as Hk.
    destruct (lazyWriter_child par suffix depth now (cs, stack) k)
      as [cs1 stack1]. cbn [fst] in *.
    eapply keepsValues_trans; [exact Hk|apply IH].
Qed.

Lemma keepsValues_visit top stack lruTimes now cs cs' stack' lruTimes' :
  lazyWriter_visit top stack lruTimes now cs = Some (cs', stack', lruTimes') ->
  keepsValues (rootValue cs) (rootValue cs').
Proof.
  unfold lazyWriter_visit.
  destruct (getNode (itemCSV top) (rootValue cs)) as [N|]; [|done].
  pose proof (keepsValues_children (itemCSV top) (itemSuffix top)
                (itemDepth top) now (map_to_list (store N)).*1 cs stack) as Hf.
  destruct (fold_left _ _ _) as [csF stackF]. cbn [fst] in Hf.
  destruct (bool_decide _); intros [= <- _ _]; [|done].
  eapply keepsValues_trans; [exact Hf|].
  destruct (collectGarbageCS_root (itemCSV top) csF) as [-> _].
  apply keepsValues_collectGarbage.
Qed.

(** Over a whole walk of the lazy writer, a node that is still in the tree
    at the end has the value and [valueExists] it had at the start. *)
Lemma lazyWriter_walk_keeps_values fuel stack lruTimes now cs cs' lruTimes' :
  lazyWriter_walk fuel stack lruTimes now cs = Some (cs', lruTimes') ->
  keepsValues (rootValue cs) (rootValue cs').
Proof.
  revert stack lruTimes cs. induction fuel as [|fuel IH];
    intros stack lruTimes cs; cbn [lazyWriter_walk].
  - destruct (last stack); [done|]. intros [= <- _]. apply keepsValues_refl.
  - destruct (last stack) as [top|];
      [|intros [= <- _]; apply keepsValues_refl].
    destruct (lazyWriter_visit top (removelast stack) lruTimes now cs)
      as [[[cs1 stack1] times1]|] eqn:Ev; [|done].
    intros Hw. eapply keepsValues_trans.
    + eapply keepsValues_visit, Ev.
    + eapply IH, Hw.
Qed.

End KeepsValues.

(** ** C2: the lazy writer on a cold node, and over a pass *)

Section ColdNode.

Context {B : Type} `{KV : nats_KeyValue B}.
Implicit Types (cs : CacheStore B) (n : CacheStoreValue).

Local Abbreviation lossOf := storeConsistencyWithKVLossTime.

(** C2, as the code has it: when the lazy writer runs its callback on a
    child that is clean, has a positive update time not above the threshold
    and [purgeState = 0], the purge state of the child becomes 1, and 2 when
    [syncedWithKV] holds; its value, [valueExists] and every other field
    stay as they were.  The loss time of the parent and of every node above
    it becomes the greater of its old value and the time of the pass.  The
    bucket is not written to and nothing is printed.  A child so marked
    that is synced, has no children and no subscribers is then taken out of
    its parent's map by [collectGarbage].  The walk of the whole pass comes
    to its end, and at its end the node, if it is still in the tree, has
    the value and the [valueExists] it had: no pass clears a payload. *)
Theorem C2_cold_child_marked par key suffix depth now stack cs n :
  getNode (par ++ [key]) (rootValue cs) = Some n ->
  syncNeeded n = false ->
  0 < valueUpdateTime n ->
  valueUpdateTime n <= lruTresholdTime cs ->
  purgeState n = 0 ->
  let cs' := (lazyWriter_child par suffix depth now (cs, stack) key).1 in
  getNode (par ++ [key]) (rootValue cs')
  = Some (set_purgeState (if syncedWithKV n then 2 else 1) n)
  /\ (forall q, q `prefix_of` par ->
        lossOf <$> getNode q (rootValue cs')
        = (fun a => Z.max (lossOf a) now) <$> getNode q (rootValue cs))
  /\ kv cs' = kv cs
  /\ stdout cs' = stdout cs
  /\ (syncedWithKV n = true -> store n = ∅ -> notifyUpdates n = ∅ ->
      getNode (par ++ [key])
        (collectGarbage (par ++ [key]) (rootValue cs')).1 = None)
  /\ exists csW lruTimes,
       lazyWriter_walk (nsize (rootValue cs)) [mkWalkItem [] EmptyString 0]
                       [] now cs = Some (csW, lruTimes)
       /\ forall n', getNode (par ++ [key]) (rootValue csW) = Some n' ->
                     value n' = value n /\ valueExists n' = valueExists n.
Proof.
  intros Hn Hsync Hpos Hcold Hpurge cs'.
  destruct (lazyWriter_child_cold par key suffix depth now stack cs n
              Hn Hsync Hpos Hcold Hpurge) as (H1 & H2 & H3 & H4 & H5).
  split_and!; [exact H1|exact H2|exact H3|exact H4|exact H5|].
  destruct (lazyWriter_walk_terminates now cs) as (csW & lruTimes & Hw & _).
  exists csW, lruTimes. split; [exact Hw|].
  intros n' Hn'.
  destruct (lazyWriter_walk_keeps_values _ _ _ _ _ _ _ Hw _ _ Hn')
    as (n0 & Hn0 & Hv & He).
  assert (n0 = n) as -> by congruence. done.
Qed.

End ColdNode.

Lemma C2_cold_child_marked_witness :
  getNode ["k1"] (rootValue s3_marked)
  = Some (mkCSV (Some (bytes_of "one")) true 2 ∅ 0 1 ∅ false true)
  /\ storeConsistencyWithKVLossTime <$> getNode [] (rootValue s3_marked) = Some 20
  /\ kv s3_marked = kv s3
  /\ getNode ["k1"] (collectGarbage ["k1"] (rootValue s3_marked)).1 = None.
Proof.
  destruct (C2_cold_child_marked [] "k1" "" 0 20 [] s3
              (mkCSV (Some (bytes_of "one")) true 0 ∅ 0 1 ∅ false true))
    as (H1 & H2 & H3 & _ & H5 & _);
    [by vm_compute | done | done | by vm_compute | done |].
  unfold s3_marked. split_and!.
  - exact H1.
  - rewrite (H2 [] (prefix_nil _)). by vm_compute.
  - exact H3.
  - by apply H5.
Defined.

(** C2, as the specification states it, fails on scenario 3: after the
    second pass the cold key [k1] is no longer in the tree, and at no point
    was its node given [valueExists = false]. *)
Lemma C2_counterexample : ~ cold_node_is_cleared 10 20 ["k1"] s3.
Proof.
  intros H.
  assert (G1 : getNode ["k1"] (rootValue s3)
               = Some (mkCSV (Some (bytes_of "one")) true 0 ∅ 0 1 ∅ false true))
    by (vm_compute; reflexivity).
  assert (G2 : 1 <= lruTresholdTime s3) by (by vm_compute).
  destruct (H _ [] G1 eq_refl eq_refl eq_refl G2 eq_refl)
    as (cs' & n' & p & p' & Hpass & Hn' & _).
  assert (E : kvLazyWriter_pass 10 20 s3 = Some (Returns s4))
    by (vm_compute; reflexivity).
  assert (cs' = s4) as -> by congruence.
  assert (E' : getNode ["k1"] (rootValue s4) = None)
    by (vm_compute; reflexivity).
  congruence.
Qed.

(** * Further properties of the code *)

(** ** The record of the bucket, written and read back *)

Section WireRoundTrip.

Lemma byte_to_of_Z z : Wire.byte_to_Z (Wire.byte_of_Z z) = z mod 256.
Proof.
  unfold Wire.byte_to_Z, Wire.byte_of_Z.
  pose proof (Z.mod_pos_bound z 256 ltac:(lia)) as Hb.
  destruct (Byte.of_N (Z.to_N (z mod 256))) as [b|] eqn:E.
  - apply Byte.to_of_N in E. rewrite E. lia.
  - apply Byte.of_N_None_iff in E. lia.
Qed.

Lemma Uint64_PutUint64 u :
  0 <= u < 2 ^ 64 -> Wire.Uint64 (Wire.PutUint64 u) = u.
Proof.
  intros Hu. unfold Wire.Uint64, Wire.PutUint64.
  cbn [map take fold_left].
  rewrite !byte_to_of_Z, !Z.shiftr_div_pow2 by lia.
  change (8 * 7) with 56. change (8 * 6) with 48. change (8 * 5) with 40.
  change (8 * 4) with 32. change (8 * 3) with 24. change (8 * 2) with 16.
  change (8 * 1) with 8. change (8 * 0) with 0.
  change (2 ^ 64) with 18446744073709551616 in Hu.
  change (2 ^ 56) with 72057594037927936.
  change (2 ^ 48) with 281474976710656.
  change (2 ^ 40) with 1099511627776.
  change (2 ^ 32) with 4294967296.
  change (2 ^ 24) with 16777216.
  change (2 ^ 16) with 65536.
  change (2 ^ 8) with 256.
  change (2 ^ 0) with 1.
  Z.div_mod_to_equations. lia.
Qed.

Lemma int64_uint64 t :
  - 2 ^ 63 <= t < 2 ^ 63 -> Wire.int64 (Wire.uint64 t) = t.
Proof.
  intros Ht. unfold Wire.int64, Wire.uint64.
  rewrite Z.mod_mod by lia.
  change (2 ^ 64) with 18446744073709551616.
  change (2 ^ 63) with 9223372036854775808 in *.
  destruct (Z.ltb_spec (t mod 18446744073709551616) 9223372036854775808);
    Z.div_mod_to_equations; lia.
Qed.

Lemma PutUint64_length u : length (Wire.PutUint64 u) = 8%nat.
Proof. done. Qed.

Lemma frame_decode t flag payload :
  - 2 ^ 63 <= t < 2 ^ 63 ->
  9 <= Wire.len (Wire.frame t flag payload)
  /\ Wire.frame t flag payload !! 8%nat = Some flag
  /\ recordTime (Wire.frame t flag payload) = t
  /\ drop 9 (Wire.frame t flag payload) = payload.
Proof.
  intros Ht. unfold Wire.frame, Wire.len, recordTime.
  split_and!.
  - rewrite !length_app, PutUint64_length. simpl. lia.
  - done.
  - rewrite <- Uint64_take.
    rewrite take_app_length' by done.
    rewrite Uint64_PutUint64.
    + by apply int64_uint64.
    + unfold Wire.uint64. apply Z.mod_pos_bound. lia.
  - done.
Qed.

End WireRoundTrip.

Section Encoding.
Context {B : Type} `{KV : nats_KeyValue B}.
Implicit Types (cs : CacheStore B) (n : CacheStoreValue).

(** X1: the record the lazy writer builds for a node whose update time is
    an [int64] has at least nine bytes, and the watcher and [GetValue] read
    from it what the writer put in: the flag at index 8 is 1 for a node
    that has a value and 0 otherwise, the first eight bytes give back the
    update time of the node, and the bytes from index 9 on are the value
    of the node, or none for a node without a value. *)
Theorem X1_record_round_trip n :
  - 2 ^ 63 <= valueUpdateTime n < 2 ^ 63 ->
  let valueBytes := finalBytesOf n in
  9 <= Wire.len valueBytes
  /\ Wire.index_8 valueBytes = Some (if valueExists n then x01 else x00)
  /\ (exists timeBytes,
        Wire.slice_to_8 valueBytes = Some timeBytes
        /\ Wire.int64 (Wire.Uint64 timeBytes) = valueUpdateTime n)
  /\ Wire.slice_from_9 valueBytes
     = Some (if valueExists n then default [] (value n) else []).
Proof.
  intros Ht valueBytes. subst valueBytes. unfold finalBytesOf.
  destruct (valueExists n);
    match goal with |- context [Wire.frame ?t ?f ?p] =>
      destruct (frame_decode t f p Ht) as (Hlen & Hflag & Htime & Hdrop)
    end;
    (split_and!;
     [ exact Hlen
     | exact Hflag
     | eexists; split; [by apply slice_to_8_framed|];
         rewrite Uint64_take; exact Htime
     | rewrite slice_from_9_framed by exact Hlen; by rewrite Hdrop ]).
Qed.

Lemma String_prefix_app p s : String.prefix p (p +:+ s) = true.
Proof.
  induction p as [|c p IH]; simpl; [by destruct s|].
  by destruct (Ascii.ascii_dec c c).
Qed.

Lemma drop_chars_app p s : Strs.drop_chars (String.length p) (p +:+ s) = s.
Proof. induction p as [|c p IH]; simpl; [done|exact IH]. Qed.

Lemma Replace1_unfold s old :
  Strs.Replace1 s old
  = if String.prefix old s then Strs.drop_chars (String.length old) s
    else match s with
         | EmptyString => EmptyString
         | String c r => String c (Strs.Replace1 r old)
         end.
Proof. by destruct s. Qed.

Lemma append_assoc (a b c : string) : (a +:+ b) +:+ c = a +:+ b +:+ c.
Proof.
  induction a as [|x a IH]; [done|].
  change (String x ((a +:+ b) +:+ c) = String x (a +:+ b +:+ c)).
  by rewrite IH.
Qed.

Lemma fromStoreKey_toStoreKey cs key : fromStoreKey cs (toStoreKey cs key) = key.
Proof.
  unfold fromStoreKey, toStoreKey. rewrite Replace1_unfold.
  rewrite <- append_assoc, String_prefix_app. apply drop_chars_app.
Qed.

End Encoding.

Section FullKey.
Context {B : Type} `{KV : nats_KeyValue B}.
Implicit Types (cs : CacheStore B) (n : CacheStoreValue) (p : ptr).

(** X2: [fromStoreKey] undoes [toStoreKey], for every key and every
    prefix of the store. *)
Theorem X2_store_key_round_trip cs key :
  fromStoreKey cs (toStoreKey cs key) = key.
Proof. apply fromStoreKey_toStoreKey. Qed.

Lemma GetFullKeyString_snoc p k :
  GetFullKeyString (p ++ [k])
  = if 0 <? Strs.len (GetFullKeyString p)
    then GetFullKeyString p +:+ "." +:+ k else k.
Proof.
  unfold GetFullKeyString. rewrite length_app, Nat.add_1_r.
  cbn [GetFullKeyString_up]. by rewrite parent_snoc, keyInParent_snoc.
Qed.

Lemma concat_cons_cons sep x y l :
  String.concat sep (x :: y :: l) = x +:+ sep +:+ String.concat sep (y :: l).
Proof. done. Qed.

Lemma concat_snoc p k :
  p <> [] -> String.concat "." (p ++ [k]) = String.concat "." p +:+ "." +:+ k.
Proof.
  induction p as [|x p IH]; [done|]. intros _.
  destruct p as [|y p]; [done|].
  change ((x :: y :: p) ++ [k]) with (x :: y :: (p ++ [k])).
  rewrite !concat_cons_cons.
  change (y :: p ++ [k]) with ((y :: p) ++ [k]).
  rewrite IH by done. by rewrite !append_assoc.
Qed.

Lemma len_append a b : Strs.len (a +:+ b) = Strs.len a + Strs.len b.
Proof.
  unfold Strs.len. induction a as [|c a IH];
    [change (EmptyString +:+ b) with b; simpl; lia|].
  change (String c a +:+ b) with (String c (a +:+ b)).
  cbn [String.length]. rewrite !Nat2Z.inj_succ. lia.
Qed.

(** From a first token that is not empty on, the full key string is the
    tokens joined by dots. *)
Lemma GetFullKeyString_concat t p :
  0 < Strs.len t ->
  GetFullKeyString (t :: p) = String.concat "." (t :: p)
  /\ 0 < Strs.len (GetFullKeyString (t :: p)).
Proof.
  intros Ht. induction p as [|k p IH] using rev_ind.
  - change [t] with ([] ++ [t]). rewrite GetFullKeyString_snoc. simpl. done.
  - destruct IH as [IH1 IH2].
    change (t :: p ++ [k]) with ((t :: p) ++ [k]).
    rewrite GetFullKeyString_snoc, concat_snoc by done.
    apply Z.ltb_lt in IH2 as IH2'. rewrite IH2', IH1. split; [done|].
    rewrite !len_append. rewrite IH1 in IH2. unfold Strs.len in *. lia.
Qed.

Lemma concat_Split s : String.concat "." (Strs.Split s) = s.
Proof.
  induction s as [|c r IH]; [done|]. simpl.
  destruct (Ascii.eqb_spec c Strs.dot) as [->|Hc].
  - destruct (Strs.Split r) as [|t ts] eqn:E; [by apply Split_nonempty in E|].
    rewrite concat_cons_cons, IH. done.
  - destruct (Strs.Split r) as [|t ts] eqn:E; [by apply Split_nonempty in E|].
    destruct ts as [|u ts].
    + simpl in *. by rewrite IH.
    + rewrite concat_cons_cons in *. rewrite <- IH. done.
Qed.

(** X3: for a key that does not begin with a dot, the full key string of
    the node the tokens of the key lead to is the key itself. *)
Theorem X3_full_key_of_split key :
  (forall r, key <> String Strs.dot r) ->
  GetFullKeyString (Strs.Split key) = key.
Proof.
  intros Hdot.
  destruct key as [|c r] eqn:Ek; [done|].
  rewrite <- Ek in *.
  destruct (Strs.Split key) as [|t p] eqn:E; [by apply Split_nonempty in E|].
  assert (Ht : 0 < Strs.len t).
  { subst key. simpl in E.
    destruct (Ascii.eqb_spec c Strs.dot) as [->|Hc]; [by destruct (Hdot r)|].
    destruct (Strs.Split r); injection E as <- _; unfold Strs.len; simpl; lia. }
  destruct (GetFullKeyString_concat t p Ht) as [-> _].
  rewrite <- E. apply concat_Split.
Qed.

End FullKey.

Lemma X1_record_round_trip_witness :
  Wire.index_8 (finalBytesOf (mkCSV (Some old) true 0 ∅ 0 100 ∅ true false))
  = Some x01
  /\ Wire.slice_from_9
       (finalBytesOf (mkCSV (Some old) true 0 ∅ 0 100 ∅ true false))
     = Some old.
Proof.
  destruct (X1_record_round_trip
              (mkCSV (Some old) true 0 ∅ 0 100 ∅ true false))
    as (_ & H2 & _ & H4).
  - by vm_compute.
  - split; [exact H2|exact H4].
Defined.

Lemma X3_full_key_of_split_witness :
  GetFullKeyString (Strs.Split "a.b") = "a.b"%string.
Proof.
  apply (X3_full_key_of_split "a.b"). intros r. discriminate.
Defined.

(** ** Local deletes and conditional writes *)

Section LocalOps.
Context {B : Type} `{KV : nats_KeyValue B}.
Implicit Types (cs : CacheStore B) (n : CacheStoreValue) (p q : ptr)
  (root : CacheStoreValue).

Lemma set_rootValue_same cs : set_rootValue (rootValue cs) cs = cs.
Proof. by destruct cs. Qed.

(** With creation, the walk down to the parent of a key changes nothing
    when the parent is already in the tree. *)
Lemma lastKeyTokenLoop_true_existing pre t now cur root :
  is_Some (getNode (cur ++ pre) root) ->
  lastKeyTokenLoop (pre ++ [t]) true now cur root = (t, Some (cur ++ pre), root).
Proof.
  revert cur. induction pre as [|k pre IH]; intros cur Hex; simpl.
  - by rewrite app_nil_r.
  - destruct (pre ++ [t]) as [|x l] eqn:E; [by destruct pre|].
    replace (cur ++ k :: pre) with ((cur ++ [k]) ++ pre) in *
      by (by rewrite <- app_assoc).
    rewrite LoadChild_spec.
    destruct Hex as [m Hm]. pose proof (getNode_app_Some _ _ _ _ Hm) as [c Hc].
    rewrite Hc. apply IH. eauto.
Qed.

Lemma cachedNode_spec key pre t root :
  Strs.Split key = pre ++ [t] ->
  cachedNode key root
  = if 0 <? Strs.len t then getNode (pre ++ [t]) root else None.
Proof.
  intros E. unfold cachedNode, lastToken. by rewrite E, last_snoc.
Qed.

(** The node of a pointer after [Delete]. *)
Lemma getNode_Delete csv u t now root n :
  getNode csv root = Some n ->
  getNode csv (Delete csv u t now root)
  = Some (Delete_fields u (if t <? 0 then now else t) n).
Proof.
  intros Hn. unfold Delete.
  set (root1 := update csv _ root).
  assert (H1 : getNode csv root1
               = Some (Delete_fields u (if t <? 0 then now else t) n)).
  { unfold root1. by rewrite getNode_update_same, Hn. }
  destruct csv as [|k csv' _] using rev_ind; [done|].
  rewrite parent_snoc, keyInParent_snoc.
  rewrite getNode_update.
  rewrite getNode_app in H1.
  destruct (getNode csv' root1) as [m|]; simpl in *; [|done].
  exact H1.
Qed.

Lemma Delete_fields_tombstone u t n :
  value (Delete_fields u t n) = None
  /\ valueExists (Delete_fields u t n) = false
  /\ valueUpdateTime (Delete_fields u t n) = t
  /\ purgeState (Delete_fields u t n) = (if u then 1 else 2)
  /\ syncNeeded (Delete_fields u t n) = u
  /\ syncedWithKV (Delete_fields u t n) = negb u
  /\ store (Delete_fields u t n) = store n
  /\ notifyUpdates (Delete_fields u t n) = notifyUpdates n.
Proof. by destruct u. Qed.

(** [DeleteValue] on a key the cache holds with a value. *)
Lemma DeleteValue_live key u t now cs n :
  cachedNode key (rootValue cs) = Some n ->
  valueExists n = true ->
  DeleteValue key u t EmptyString now cs
  = set_rootValue (Delete (Strs.Split key) u (if t <? 0 then now else t) now
                          (rootValue cs)) cs.
Proof.
  intros Hn Hv. destruct (lastToken_snoc key) as [pre E].
  rewrite (cachedNode_spec key pre _ _ E) in Hn.
  destruct (0 <? Strs.len (lastToken key)) eqn:Ht; [|done].
  unfold DeleteValue. simpl.
  rewrite (loadByKey_spec key pre _ _ E), Hn, Ht, Hn, Hv. by rewrite E.
Qed.

(** [DeleteValue] on a key the cache holds no value for changes nothing. *)
Lemma DeleteValue_absent key u t now cs :
  (forall n, cachedNode key (rootValue cs) = Some n -> valueExists n = false) ->
  DeleteValue key u t EmptyString now cs = cs.
Proof.
  intros Hn. unfold DeleteValue. simpl.
  pose proof (loadByKey_cachedNode key (rootValue cs)) as Hl.
  destruct (loadByKey key (rootValue cs)) as [csv|]; [|done]. simpl in Hl.
  destruct (getNode csv (rootValue cs)) as [n|]; [|done].
  by rewrite (Hn n).
Qed.

Lemma cachedNode_Delete key u t now root n :
  cachedNode key root = Some n ->
  cachedNode key (Delete (Strs.Split key) u t now root)
  = Some (Delete_fields u (if t <? 0 then now else t) n).
Proof.
  intros Hn. unfold cachedNode in *.
  destruct (0 <? Strs.len (lastToken key)); [|done].
  by apply getNode_Delete.
Qed.

(** X4: a second [DeleteValue] of a key changes nothing, whatever its
    arguments: the update time and the sync flags of the node stay those
    of the first delete. *)
Theorem X4_second_delete_ignored key u1 u2 t1 t2 now1 now2 cs :
  DeleteValue key u2 t2 EmptyString now2
    (DeleteValue key u1 t1 EmptyString now1 cs)
  = DeleteValue key u1 t1 EmptyString now1 cs.
Proof.
  destruct (cachedNode key (rootValue cs)) as [n|] eqn:Hn.
  - destruct (valueExists n) eqn:Hv.
    + rewrite (DeleteValue_live key u1 t1 now1 cs n Hn Hv).
      apply DeleteValue_absent. simpl. intros n'.
      rewrite (cachedNode_Delete key u1 _ now1 _ n Hn). intros [= <-].
      by destruct u1.
    + rewrite (DeleteValue_absent key u1 t1 now1 cs) by (intros; congruence).
      apply DeleteValue_absent. intros; congruence.
  - rewrite (DeleteValue_absent key u1 t1 now1 cs) by (intros; congruence).
    apply DeleteValue_absent. intros; congruence.
Qed.

Lemma GetValue_cached key now cs n :
  cachedNode key (rootValue cs) = Some n ->
  GetValue key now cs
  = if valueExists n
    then Returns (default [] (value n), None, cs)
    else Returns ([], Some ("Value for for key=" +:+ key +:+ " does not exist"), cs).
Proof.
  intros Hn. unfold GetValue. by rewrite loadByKey_cachedNode, Hn.
Qed.

Lemma GetValueUpdateTime_cached key cs :
  GetValueUpdateTime key cs
  = default (-1) (valueUpdateTime <$> cachedNode key (rootValue cs)).
Proof.
  unfold GetValueUpdateTime.
  pose proof (loadByKey_cachedNode key (rootValue cs)) as Hl.
  destruct (loadByKey key (rootValue cs)) as [csv|]; simpl in Hl.
  - rewrite <- Hl. by destruct (getNode csv (rootValue cs)).
  - by rewrite <- Hl.
Qed.

(** X5: [DeleteValue] of a key the cache holds with a value keeps the
    node of the key in the tree, without a value, with the time of the
    delete as its update time and with its children; with [updateInKV] the
    node waits for the bucket ([purgeState = 1], [syncNeeded]), without it
    the node is ready to be purged ([purgeState = 2], [syncedWithKV]).  The
    bucket is not written to.  [GetValue] of the key then returns an error
    and leaves the store as it is, and the update time of the key is the
    time of the delete. *)
Theorem X5_delete_leaves_tombstone key u t now now' cs n :
  cachedNode key (rootValue cs) = Some n ->
  valueExists n = true ->
  let cs' := DeleteValue key u t EmptyString now cs in
  exists n',
    cachedNode key (rootValue cs') = Some n'
    /\ value n' = None /\ valueExists n' = false
    /\ valueUpdateTime n' = (if t <? 0 then now else t)
    /\ purgeState n' = (if u then 1 else 2)
    /\ syncNeeded n' = u /\ syncedWithKV n' = negb u
    /\ store n' = store n
    /\ kv cs' = kv cs
    /\ GetValue key now' cs'
       = Returns ([], Some ("Value for for key=" +:+ key +:+ " does not exist"), cs')
    /\ GetValueUpdateTime key cs' = (if t <? 0 then now else t).
Proof.
  intros Hn Hv cs'. subst cs'.
  rewrite (DeleteValue_live key u t now cs n Hn Hv).
  pose proof (cachedNode_Delete key u (if t <? 0 then now else t) now _ n Hn)
    as Hn'.
  assert (Ht : (if (if t <? 0 then now else t) <? 0 then now
                else (if t <? 0 then now else t))
               = (if t <? 0 then now else t)).
  { destruct (t <? 0) eqn:E1; [by destruct (now <? 0)|by rewrite E1]. }
  rewrite Ht in Hn'.
  destruct (Delete_fields_tombstone u (if t <? 0 then now else t) n)
    as (F1 & F2 & F3 & F4 & F5 & F6 & F7 & _).
  set (cs' := set_rootValue _ cs) in *.
  change (cachedNode key (rootValue cs')
          = Some (Delete_fields u (if t <? 0 then now else t) n)) in Hn'.
  eexists. split; [exact Hn'|].
  split_and!; try done.
  - rewrite (GetValue_cached key now' cs' _ Hn'). by rewrite F2.
  - rewrite GetValueUpdateTime_cached, Hn'. simpl. exact F3.
Qed.


Lemma getNode_leaf q n : store n = ∅ -> q <> [] -> getNode q n = None.
Proof. intros Hs Hq. destruct q as [|k q]; [done|]. simpl. by rewrite Hs. Qed.

Lemma lastKeyTokenLoop_cons k rest create now cur root :
  rest <> [] ->
  lastKeyTokenLoop (k :: rest) create now cur root
  = match LoadChild cur k root with
    | Some csv => lastKeyTokenLoop rest create now csv root
    | None =>
        if create
        then lastKeyTokenLoop rest create now (cur ++ [k])
               (StoreChild cur k (routingNode now) root)
        else (EmptyString, None, root)
    end.
Proof. intros Hr. simpl. by destruct rest. Qed.

(** With creation, the walk down to the parent of a key creates no node
    for the key itself. *)
Lemma lastKeyTokenLoop_true_fresh pre t now cur root :
  is_Some (getNode cur root) ->
  getNode (cur ++ pre ++ [t]) root = None ->
  getNode (cur ++ pre ++ [t]) (lastKeyTokenLoop (pre ++ [t]) true now cur root).2
  = None.
Proof.
  revert cur root. induction pre as [|k pre IH]; intros cur root Hcur Hnone.
  - done.
  - change ((k :: pre) ++ [t]) with (k :: (pre ++ [t])) in *.
    rewrite lastKeyTokenLoop_cons by (by destruct pre).
    replace (cur ++ k :: pre ++ [t]) with ((cur ++ [k]) ++ pre ++ [t]) in *
      by (by rewrite <- app_assoc).
    rewrite LoadChild_spec.
    destruct (getNode (cur ++ [k]) root) as [c|] eqn:Ec.
    + apply IH; eauto.
    + apply IH.
      * rewrite getNode_StoreChild; eauto.
      * rewrite getNode_app, getNode_StoreChild by done. simpl.
        apply getNode_leaf; [done|by destruct pre].
Qed.

(** X6: [SetValueIfDoesNotExist] is [SetValue] under a guard.  When the
    cache holds a node for the key that has a value or [valueExists], the
    call returns false and leaves the store as it is.  Otherwise the store
    after the call is the one [SetValue] with the same arguments gives, and
    the call returns true, unless the last token of the key is empty. *)
Theorem X6_set_if_absent key v u t now cs :
  SetValueIfDoesNotExist key v u t now cs
  = match cachedNode key (rootValue cs) with
    | Some n =>
        if bool_decide (value n = None) && negb (valueExists n)
        then (true, SetValue key v u t EmptyString now cs)
        else (false, cs)
    | None =>
        (0 <? Strs.len (lastToken key),
         SetValue key v u t EmptyString now cs)
    end.
Proof.
  destruct (lastToken_snoc key) as [pre E].
  rewrite (cachedNode_spec key pre _ _ E).
  unfold SetValueIfDoesNotExist, SetValue. simpl.
  unfold getLastKeyTokenAndItsParentCacheStoreValue. rewrite E.
  destruct (0 <? Strs.len (lastToken key)) eqn:Ht.
  - destruct (getNode (pre ++ [lastToken key]) (rootValue cs)) as [n|] eqn:Hn.
    + rewrite lastKeyTokenLoop_true_existing
        by (simpl; eapply getNode_app_Some, Hn).
      simpl. rewrite Ht, LoadChild_spec, Hn, Hn.
      destruct (bool_decide (value n = None) && negb (valueExists n)); [done|].
      by rewrite set_rootValue_same.
    + pose proof (lastKeyTokenLoop_true_fresh pre (lastToken key) now []
                    (rootValue cs) ltac:(simpl; eauto) Hn) as Hfresh.
      destruct (lastKeyTokenLoop_true pre (lastToken key) now [] (rootValue cs))
        as (root1 & Hloop & Hpar); [simpl; eauto|].
      rewrite Hloop in *. simpl in *.
      by rewrite Ht, LoadChild_spec, Hfresh.
  - destruct (lastKeyTokenLoop_true pre (lastToken key) now [] (rootValue cs))
      as (root1 & -> & Hpar); [simpl; eauto|].
    simpl. by rewrite Ht.
Qed.


End LocalOps.

Lemma X5_delete_leaves_tombstone_witness :
  exists n',
    cachedNode "a" (rootValue (DeleteValue "a" true 200 "" 8 e1)) = Some n'
    /\ valueExists n' = false
    /\ purgeState n' = 1
    /\ GetValueUpdateTime "a" (DeleteValue "a" true 200 "" 8 e1) = 200.
Proof.
  destruct (X5_delete_leaves_tombstone "a" true 200 8 9 e1
              (mkCSV (Some old) true 0 ∅ 0 100 ∅ true false))
    as (n' & H1 & _ & H3 & _ & H5 & _ & _ & _ & _ & _ & H11).
  - by vm_compute.
  - done.
  - exists n'. split_and!; [exact H1|exact H3|exact H5|exact H11].
Defined.

(** ** Transactions *)

Section Transactions.
Context {B : Type} `{KV : nats_KeyValue B}.
Implicit Types (cs : CacheStore B) (op : CacheTransactionOperator)
  (T : gmap string CacheTransaction).

Lemma callInTransaction_records id calledAt cs tx op :
  0 < Strs.len id ->
  transactions cs !! id = Some tx ->
  callInTransaction id calledAt cs op
  = set_transactions
      (<[id := mkTransaction (operators tx ++ [recorded calledAt op])
                             (beginCounter tx)]> (transactions cs)) cs.
Proof.
  intros Hid Htx. unfold callInTransaction, recorded, SetValue, DeleteValue.
  destruct (Z.eqb_spec (Strs.len id) 0) as [?|_]; [lia|].
  rewrite Htx. by destruct (operatorType op =? 0).
Qed.

Lemma callsInTransaction_record id calledAt ops cs tx :
  0 < Strs.len id ->
  transactions cs !! id = Some tx ->
  fold_left (callInTransaction id calledAt) ops cs
  = set_transactions
      (<[id := mkTransaction (operators tx ++ (recorded calledAt <$> ops))
                             (beginCounter tx)]> (transactions cs)) cs.
Proof.
  intros Hid. revert cs tx. induction ops as [|op ops IH]; intros cs tx Htx.
  - simpl. rewrite app_nil_r. destruct cs, tx; simpl in *.
    unfold set_transactions. simpl. f_equal. by rewrite insert_id.
  - cbn [fold_left]. rewrite (callInTransaction_records id calledAt cs tx) by done.
    erewrite IH; [|simpl; apply lookup_insert_eq].
    simpl. unfold set_transactions. simpl. f_equal.
    rewrite insert_insert_eq. by rewrite <- app_assoc.
Qed.

Lemma SetValue_set_transactions key v u t now T cs :
  SetValue key v u t EmptyString now (set_transactions T cs)
  = set_transactions T (SetValue key v u t EmptyString now cs).
Proof.
  unfold SetValue. simpl.
  destruct (getLastKeyTokenAndItsParentCacheStoreValue _ _ _ _)
    as [[klt [par|]] root]; [|done].
  destruct (0 <? Strs.len klt); [|done].
  by destruct (LoadChild par klt root).
Qed.

Lemma DeleteValue_set_transactions key u t now T cs :
  DeleteValue key u t EmptyString now (set_transactions T cs)
  = set_transactions T (DeleteValue key u t EmptyString now cs).
Proof.
  unfold DeleteValue. simpl.
  destruct (loadByKey key (rootValue cs)) as [csv|]; [|done].
  destruct (getNode csv (rootValue cs)) as [n|]; [|done].
  by destruct (valueExists n).
Qed.

Lemma applyOperator_set_transactions now T cs op :
  applyOperator now (set_transactions T cs) op
  = set_transactions T (applyOperator now cs op).
Proof.
  unfold applyOperator.
  destruct (operatorType op =? 0); [apply SetValue_set_transactions|].
  destruct (operatorType op =? 1); [apply DeleteValue_set_transactions|done].
Qed.

Lemma applyOperators_set_transactions now T ops cs :
  fold_left (applyOperator now) ops (set_transactions T cs)
  = set_transactions T (fold_left (applyOperator now) ops cs).
Proof.
  revert cs. induction ops as [|op ops IH]; intros cs; [done|].
  cbn [fold_left]. by rewrite applyOperator_set_transactions, IH.
Qed.

Lemma applyOperator_recorded calledAt now cs op :
  applyOperator now cs (recorded calledAt op) = callDirect calledAt now cs op.
Proof.
  unfold applyOperator, recorded, callDirect.
  by destruct (operatorType op =? 0).
Qed.

Lemma applyOperators_recorded calledAt now ops cs :
  fold_left (applyOperator now) (recorded calledAt <$> ops) cs
  = fold_left (callDirect calledAt now) ops cs.
Proof.
  revert cs. induction ops as [|op ops IH]; intros cs; [done|].
  cbn [fmap list_fmap fold_left]. by rewrite applyOperator_recorded, IH.
Qed.

Lemma set_transactions_same cs : set_transactions (transactions cs) cs = cs.
Proof. by destruct cs. Qed.

Lemma set_transactions_twice T T' cs :
  set_transactions T (set_transactions T' cs) = set_transactions T cs.
Proof. done. Qed.

Lemma TransactionBegin_pending id ops c cs :
  TransactionBegin id (pending id ops c cs) = pending id ops (c + 1) cs.
Proof.
  unfold TransactionBegin, pending. simpl. rewrite lookup_insert_eq. simpl.
  unfold set_transactions. simpl. f_equal. by rewrite insert_insert_eq.
Qed.

Lemma TransactionBegin_iter id k cs :
  transactions cs !! id = None ->
  Nat.iter (S k) (TransactionBegin id) cs = pending id [] (Z.of_nat k + 1) cs.
Proof.
  intros Hid. induction k as [|k IH].
  - simpl. unfold TransactionBegin, pending. by rewrite Hid.
  - rewrite Nat.iter_succ, IH, TransactionBegin_pending.
    f_equal. lia.
Qed.

Lemma TransactionEnd_pending_inner id ops c now cs :
  c <> 1 ->
  TransactionEnd id now (pending id ops c cs) = pending id ops (c - 1) cs.
Proof.
  intros Hc. unfold TransactionEnd, pending. simpl. rewrite lookup_insert_eq.
  simpl. destruct (Z.eqb_spec (c - 1) 0); [lia|].
  unfold set_transactions. simpl. f_equal. by rewrite insert_insert_eq.
Qed.

Lemma TransactionEnd_iter id ops k now cs :
  Nat.iter k (TransactionEnd id now) (pending id ops (Z.of_nat k + 1) cs)
  = pending id ops 1 cs.
Proof.
  induction k as [|k IH]; [done|].
  rewrite Nat.iter_succ_r, TransactionEnd_pending_inner by lia.
  replace (Z.of_nat (S k) + 1 - 1) with (Z.of_nat k + 1) by lia. exact IH.
Qed.

Lemma TransactionEnd_last id now cs tx :
  transactions cs !! id = Some tx ->
  beginCounter tx = 1 ->
  TransactionEnd id now cs
  = set_transactions
      (delete id (transactions (fold_left (applyOperator now) (operators tx) cs)))
      (fold_left (applyOperator now) (operators tx) cs).
Proof.
  intros Htx Hc. unfold TransactionEnd. rewrite Htx, Hc. done.
Qed.

Lemma TransactionEnd_pending_outer id ops now cs :
  transactions cs !! id = None ->
  TransactionEnd id now (pending id ops 1 cs)
  = fold_left (applyOperator now) ops cs.
Proof.
  intros Hid.
  rewrite (TransactionEnd_last id now _ (mkTransaction ops 1));
    [|apply lookup_insert_eq|done].
  cbn [operators]. unfold pending.
  rewrite applyOperators_set_transactions.
  cbn [transactions set_transactions].
  rewrite delete_insert_eq, delete_id by done.
  rewrite set_transactions_twice, <- applyOperators_set_transactions.
  by rewrite set_transactions_same.
Qed.

(** X7: a transaction that did not exist is begun [k + 1] times, calls of
    [SetValue] and [DeleteValue] are made within it, and it is ended [k]
    times: the tree and the bucket are still as they were before.  One more
    [TransactionEnd] then leaves the store exactly as the same calls, made
    in the same order outside of any transaction, would have left it; a
    call that gave a negative time keeps the time at which it was made,
    not the time of the commit. *)
Theorem X7_outermost_end_commits id k ops calledAt now cs :
  0 < Strs.len id ->
  transactions cs !! id = None ->
  let buffered :=
    Nat.iter k (TransactionEnd id now)
      (fold_left (callInTransaction id calledAt) ops
         (Nat.iter (S k) (TransactionBegin id) cs)) in
  rootValue buffered = rootValue cs
  /\ kv buffered = kv cs
  /\ TransactionEnd id now buffered
     = fold_left (callDirect calledAt now) ops cs.
Proof.
  intros Hlen Hid buffered.
  assert (Hb : buffered = pending id (recorded calledAt <$> ops) 1 cs).
  { subst buffered. rewrite TransactionBegin_iter by done.
    rewrite (callsInTransaction_record id calledAt ops _
               (mkTransaction [] (Z.of_nat k + 1))) by
      (done || apply lookup_insert_eq).
    simpl.
    replace (set_transactions _ (pending id [] (Z.of_nat k + 1) cs))
      with (pending id (recorded calledAt <$> ops) (Z.of_nat k + 1) cs).
    - apply TransactionEnd_iter.
    - unfold pending, set_transactions. simpl. f_equal.
      by rewrite insert_insert_eq. }
  rewrite Hb. split_and!; [done|done|].
  rewrite TransactionEnd_pending_outer by done.
  apply applyOperators_recorded.
Qed.

End Transactions.

Lemma X7_outermost_end_commits_witness :
  TransactionEnd "tx" 4
    (TransactionEnd "tx" 4
       (SetValue "a" old true (-1) "tx" 3
          (TransactionBegin "tx" (TransactionBegin "tx" s0))))
  = SetValue "a" old true 3 "" 4 s0.
Proof.
  destruct (X7_outermost_end_commits "tx" 1
              [mkOperator 0 "a" old true (-1)] 3 4 s0) as (_ & _ & H).
  - by vm_compute.
  - by vm_compute.
  - exact H.
Defined.

(** ** Subscribers of a level *)

Section Subscribers.
Context {B : Type} `{KV : nats_KeyValue B}.
Implicit Types (cs : CacheStore B) (n : CacheStoreValue) (p q : ptr)
  (root : CacheStoreValue).

Lemma channelsOf_update_child pre t f root :
  (forall n, store (f n) = store n) ->
  (forall n, notifyUpdates (f n) = notifyUpdates n) ->
  channelsOf pre (update (pre ++ [t]) f root) = channelsOf pre root.
Proof.
  intros Hs Hn. unfold channelsOf.
  by apply (update_preserves_view notifyUpdates f).
Qed.

Lemma channelsOf_notify pre k v root :
  channelsOf pre (update pre (notifySubscribers k v) root)
  = (fun chans : gmap string (list KeyValue) =>
       (fun c => c ++ [mkKeyValue k v]) <$> chans) <$> channelsOf pre root.
Proof.
  unfold channelsOf. rewrite getNode_update_same.
  by destruct (getNode pre root).
Qed.

(** [SetValue] sends the token and the value to every channel of the level
    of the key. *)
Lemma SetValue_notifies key pre t v u time now cs :
  Strs.Split key = pre ++ [t] ->
  0 < Strs.len t ->
  is_Some (getNode pre (rootValue cs)) ->
  channelsOf pre (rootValue (SetValue key v u time EmptyString now cs))
  = (fun chans : gmap string (list KeyValue) =>
       (fun c => c ++ [mkKeyValue t (Some v)]) <$> chans)
    <$> channelsOf pre (rootValue cs).
Proof.
  intros E Ht Hpre. unfold SetValue. simpl.
  unfold getLastKeyTokenAndItsParentCacheStoreValue. rewrite E.
  rewrite lastKeyTokenLoop_true_existing by done. simpl.
  apply Z.ltb_lt in Ht. rewrite Ht, LoadChild_spec.
  destruct (getNode (pre ++ [t]) (rootValue cs)) as [c|] eqn:Ec; simpl.
  - unfold Put. rewrite parent_snoc, keyInParent_snoc.
    rewrite channelsOf_notify.
    by rewrite channelsOf_update_child.
  - unfold StoreChild, channelsOf. rewrite getNode_update_same.
    by destruct (getNode pre (rootValue cs)).
Qed.

(** [DeleteValue] of a key that has a value sends the token and nil to
    every channel of the level of the key. *)
Lemma DeleteValue_notifies key pre t u time now cs n :
  Strs.Split key = pre ++ [t] ->
  cachedNode key (rootValue cs) = Some n ->
  valueExists n = true ->
  channelsOf pre (rootValue (DeleteValue key u time EmptyString now cs))
  = (fun chans : gmap string (list KeyValue) =>
       (fun c => c ++ [mkKeyValue t None]) <$> chans)
    <$> channelsOf pre (rootValue cs).
Proof.
  intros E Hn Hv. rewrite (DeleteValue_live key u time now cs n Hn Hv).
  simpl. rewrite E. unfold Delete. rewrite parent_snoc, keyInParent_snoc.
  rewrite channelsOf_notify.
  rewrite channelsOf_update_child; [done| |]; intros m; by destruct u.
Qed.

Lemma Subscribe_channel pattern pre x id now cs :
  Strs.Split pattern = pre ++ [x] ->
  channel pre id (rootValue (SubscribeLevelCallback pattern id now cs))
  = Some [].
Proof.
  intros E. unfold SubscribeLevelCallback.
  unfold getLastKeyTokenAndItsParentCacheStoreValue. rewrite E.
  destruct (lastKeyTokenLoop_true pre x now [] (rootValue cs))
    as (root1 & -> & [P HP]); [simpl; eauto|].
  simpl in *. unfold channel, channelsOf. rewrite getNode_update_same, HP.
  simpl. by rewrite lookup_insert_eq.
Qed.

Lemma Unsubscribe_channel pattern pre x id cs :
  Strs.Split pattern = pre ++ [x] ->
  channel pre id (rootValue (UnsubscribeLevelCallback pattern id cs)) = None.
Proof.
  intros E. unfold UnsubscribeLevelCallback.
  unfold getLastKeyTokenAndItsParentCacheStoreValue. rewrite E.
  rewrite lastKeyTokenLoop_false by (simpl; eauto). simpl.
  unfold channel, channelsOf.
  destruct (getNode pre (rootValue cs)) as [P|] eqn:HP; simpl.
  - rewrite getNode_update_same, HP. simpl. by rewrite lookup_delete_eq.
  - by rewrite HP.
Qed.


(** X8: after [SubscribeLevelCallback] on a pattern the channel of the
    callback at the level of the pattern is empty; a [SetValue] of a key of
    that level then sends it the last token of the key with the value, a
    [DeleteValue] of the key sends the token with nil after it, and after
    [UnsubscribeLevelCallback] the level has no channel for the callback. *)
Theorem X8_subscriber_is_told pattern key id pre x t v u1 u2 t1 t2
    now0 now1 now2 cs :
  Strs.Split pattern = pre ++ [x] ->
  Strs.Split key = pre ++ [t] ->
  0 < Strs.len t ->
  let cs1 := SubscribeLevelCallback pattern id now0 cs in
  let cs2 := SetValue key v u1 t1 EmptyString now1 cs1 in
  let cs3 := DeleteValue key u2 t2 EmptyString now2 cs2 in
  let cs4 := UnsubscribeLevelCallback pattern id cs3 in
  channel pre id (rootValue cs1) = Some []
  /\ channel pre id (rootValue cs2) = Some [mkKeyValue t (Some v)]
  /\ channel pre id (rootValue cs3)
     = Some [mkKeyValue t (Some v); mkKeyValue t None]
  /\ channel pre id (rootValue cs4) = None.
Proof.
  intros Ep Ek Ht cs1 cs2 cs3 cs4.
  pose proof (Subscribe_channel pattern pre x id now0 cs Ep) as H1.
  fold cs1 in H1.
  assert (Hpre : is_Some (getNode pre (rootValue cs1))).
  { unfold channel, channelsOf in H1.
    destruct (getNode pre (rootValue cs1)); [eauto|done]. }
  assert (H2 : channel pre id (rootValue cs2) = Some [mkKeyValue t (Some v)]).
  { unfold channel in *. subst cs2.
    rewrite (SetValue_notifies key pre t v u1 t1 now1 cs1 Ek Ht Hpre).
    destruct (channelsOf pre (rootValue cs1)) as [chans|]; [|done].
    simpl in *. by rewrite lookup_fmap, H1. }
  split_and!; [exact H1|exact H2| |by apply (Unsubscribe_channel pattern pre x)].
  destruct (SetValue_node key pre t v u1 t1 now1 cs1 Ek Ht)
    as (n & Hn & _ & Hv & _).
  fold cs2 in Hn.
  assert (Hc : cachedNode key (rootValue cs2) = Some n).
  { rewrite (cachedNode_spec key pre t _ Ek).
    apply Z.ltb_lt in Ht. by rewrite Ht. }
  unfold channel in *. subst cs3.
  rewrite (DeleteValue_notifies key pre t u2 t2 now2 cs2 n Ek Hc Hv).
  destruct (channelsOf pre (rootValue cs2)) as [chans|]; [|done].
  simpl in *. by rewrite lookup_fmap, H2.
Qed.

End Subscribers.

Lemma X8_subscriber_is_told_witness :
  channel ["a"] "cb"
    (rootValue
       (DeleteValue "a.b" true 3 "" 3
          (SetValue "a.b" old true 2 "" 2
             (SubscribeLevelCallback "a.*" "cb" 1 s0))))
  = Some [mkKeyValue "b" (Some old); mkKeyValue "b" None].
Proof.
  destruct (X8_subscriber_is_told "a.*" "a.b" "cb" ["a"] "*" "b" old
              true true 2 3 1 2 3 s0) as (_ & _ & H & _).
  - done.
  - done.
  - by vm_compute.
  - exact H.
Defined.

(** ** A write and the other keys *)

Section OtherKeys.
Context {B : Type} `{KV : nats_KeyValue B}.
Implicit Types (cs : CacheStore B) (n : CacheStoreValue) (p q : ptr)
  (root : CacheStoreValue).

(** An update that keeps a view of the node it changes and takes no child
    away keeps every node of the tree, with the same view. *)
Lemma update_grow {A} (V : CacheStoreValue -> A) g p :
  (forall n, V (g n) = V n) ->
  (forall n, store n ⊆ store (g n)) ->
  (forall s n, V (set_store s n) = V n) ->
  forall q root n, getNode q root = Some n ->
    exists n', getNode q (update p g root) = Some n' /\ V n' = V n.
Proof.
  intros Hv Hsub Hset. induction p as [|a p IH]; intros q root n Hn; simpl.
  - destruct q as [|k q]; simpl in *.
    + injection Hn as <-. eauto.
    + destruct (store root !! k) as [c|] eqn:Ec; [|done].
      rewrite (lookup_weaken _ _ _ _ Ec (Hsub root)). eauto.
  - destruct (store root !! a) as [c0|] eqn:E0; [|eauto].
    destruct q as [|k q]; simpl in *.
    + injection Hn as <-. eauto.
    + destruct (decide (a = k)) as [->|Hne].
      * rewrite lookup_insert_eq. rewrite E0 in Hn. by apply IH.
      * rewrite lookup_insert_ne by done. eauto.
Qed.

(** [StoreChild] under a key the parent has no child for keeps every node
    of the tree, with the same fields. *)
Lemma StoreChild_fresh_keeps csv key child root q n :
  getNode (csv ++ [key]) root = None ->
  getNode q root = Some n ->
  exists n', getNode q (StoreChild csv key child root) = Some n'
    /\ ownFields n' = ownFields n.
Proof.
  intros Hfresh Hn. unfold StoreChild.
  destruct (getNode csv root) as [m|] eqn:Hm.
  - set (g := fun x : CacheStoreValue =>
               notifySubscribers key (value child)
                 (set_store (<[key := child]> (store x)) x)).
    set (g' := fun x : CacheStoreValue =>
                 match store x !! key with None => g x | Some _ => x end).
    assert (Hk : store m !! key = None).
    { rewrite getNode_app, Hm in Hfresh. simpl in Hfresh.
      by destruct (store m !! key). }
    rewrite (update_at csv g g' root m Hm) by (unfold g'; by rewrite Hk).
    apply (update_grow ownFields g'); [| |done|done].
    + intros x. unfold g'. by destruct (store x !! key).
    + intros x. unfold g'. destruct (store x !! key) eqn:Ex; [done|].
      simpl. by apply insert_subseteq.
  - rewrite update_missing by done. eauto.
Qed.

(** With creation, the walk down to the parent of a key keeps every node
    of the tree, with the same fields. *)
Lemma lastKeyTokenLoop_true_keeps pre t now cur root q n :
  is_Some (getNode cur root) ->
  getNode q root = Some n ->
  exists n',
    getNode q (lastKeyTokenLoop (pre ++ [t]) true now cur root).2 = Some n'
    /\ ownFields n' = ownFields n.
Proof.
  revert cur root n. induction pre as [|k pre IH]; intros cur root n Hcur Hn.
  - simpl. eauto.
  - change ((k :: pre) ++ [t]) with (k :: (pre ++ [t])).
    rewrite lastKeyTokenLoop_cons by (by destruct pre).
    rewrite LoadChild_spec.
    destruct (getNode (cur ++ [k]) root) as [c|] eqn:Ec.
    + apply IH; eauto.
    + destruct (StoreChild_fresh_keeps cur k (routingNode now) root q n Ec Hn)
        as (n1 & Hn1 & Hf1).
      destruct (IH (cur ++ [k]) (StoreChild cur k (routingNode now) root) n1)
        as (n' & Hn' & Hf'); [rewrite getNode_StoreChild; eauto|done|].
      exists n'. split; [done|congruence].
Qed.

(** [Put] changes the fields of no node but the one it is called on. *)
Lemma Put_keeps_others csv v u t now root q :
  q <> csv ->
  ownFields <$> getNode q (Put csv v u t now root) = ownFields <$> getNode q root.
Proof.
  intros Hq. unfold Put.
  assert (H1 : ownFields <$> getNode q
                 (update csv (Put_fields v u (if t <? 0 then now else t)) root)
               = ownFields <$> getNode q root).
  { by apply (update_other_view ownFields). }
  destruct (parent csv) as [par|]; [|done].
  rewrite <- H1.
  by apply (update_preserves_view ownFields).
Qed.

(** [Delete] changes the fields of no node but the one it is called on. *)
Lemma Delete_keeps_others csv u t now root q :
  q <> csv ->
  ownFields <$> getNode q (Delete csv u t now root) = ownFields <$> getNode q root.
Proof.
  intros Hq. unfold Delete.
  assert (H1 : ownFields <$> getNode q
                 (update csv (Delete_fields u (if t <? 0 then now else t)) root)
               = ownFields <$> getNode q root).
  { apply (update_other_view ownFields); [|done|done].
    intros m. by destruct u. }
  destruct (parent csv) as [par|]; [|done].
  rewrite <- H1.
  by apply (update_preserves_view ownFields).
Qed.

(** [SetValue] keeps every node of the tree; the node of the key gets the
    value, every other node keeps its fields. *)
Lemma SetValue_keeps_nodes key v u t now cs q n :
  getNode q (rootValue cs) = Some n ->
  exists n',
    getNode q (rootValue (SetValue key v u t EmptyString now cs)) = Some n'
    /\ (q <> Strs.Split key \/ Strs.len (lastToken key) <= 0 ->
        ownFields n' = ownFields n)
    /\ (q = Strs.Split key -> 0 < Strs.len (lastToken key) ->
        value n' = Some v /\ valueExists n' = true).
Proof.
  intros Hn. destruct (lastToken_snoc key) as [pre E].
  destruct (Z.ltb_spec 0 (Strs.len (lastToken key))) as [Ht|Ht].
  - destruct (decide (q = Strs.Split key)) as [->|Hq].
    + destruct (SetValue_node key pre (lastToken key) v u t now cs E Ht)
        as (n' & Hn' & Hv & He & _).
      rewrite <- E in Hn'. exists n'. split; [done|].
      split; [intros [?|?]; [done|lia]|done].
    + unfold SetValue. simpl.
      unfold getLastKeyTokenAndItsParentCacheStoreValue. rewrite E in *.
      destruct (lastKeyTokenLoop_true_keeps pre (lastToken key) now []
                  (rootValue cs) q n ltac:(simpl; eauto) Hn)
        as (n1 & Hn1 & Hf1).
      destruct (lastKeyTokenLoop_true pre (lastToken key) now [] (rootValue cs))
        as (root1 & Hloop & Hpar); [simpl; eauto|].
      rewrite Hloop in *. simpl in *.
      apply Z.ltb_lt in Ht. rewrite Ht.
      rewrite LoadChild_spec.
      destruct (getNode (pre ++ [lastToken key]) root1) as [c|] eqn:Ec; simpl.
      * pose proof (Put_keeps_others (pre ++ [lastToken key]) v u
                      (if t <? 0 then now else t) now root1 q Hq) as HP.
        rewrite Hn1 in HP. apply fmap_Some in HP as (n' & Hn' & Hf').
        exists n'. split; [done|]. split; [intros _; congruence|done].
      * destruct (StoreChild_fresh_keeps pre (lastToken key)
                    (newValueNode v u (if t <? 0 then now else t)) root1 q n1
                    Ec Hn1) as (n' & Hn' & Hf').
        exists n'. split; [done|]. split; [intros _; congruence|done].
  - unfold SetValue. simpl.
    unfold getLastKeyTokenAndItsParentCacheStoreValue. rewrite E in *.
    destruct (lastKeyTokenLoop_true_keeps pre (lastToken key) now []
                (rootValue cs) q n ltac:(simpl; eauto) Hn)
      as (n1 & Hn1 & Hf1).
    destruct (lastKeyTokenLoop_true pre (lastToken key) now [] (rootValue cs))
      as (root1 & Hloop & Hpar); [simpl; eauto|].
    rewrite Hloop in *. simpl in *.
    destruct (Z.ltb_spec 0 (Strs.len (lastToken key))); [lia|]. simpl.
    exists n1. split; [done|]. split; [done|intros; lia].
Qed.

(** [DeleteValue] keeps every node of the tree, and the fields of every
    node but that of the key. *)
Lemma DeleteValue_keeps_nodes key u t now cs q :
  q <> Strs.Split key ->
  ownFields <$> getNode q (rootValue (DeleteValue key u t EmptyString now cs))
  = ownFields <$> getNode q (rootValue cs).
Proof.
  intros Hq.
  destruct (cachedNode key (rootValue cs)) as [m|] eqn:Hm.
  - destruct (valueExists m) eqn:Hv.
    + rewrite (DeleteValue_live key u t now cs m Hm Hv). simpl.
      by apply Delete_keeps_others.
    + by rewrite DeleteValue_absent by (intros; congruence).
  - by rewrite DeleteValue_absent by (intros; congruence).
Qed.

Lemma SetValue_kv key v u t now cs :
  kv (SetValue key v u t EmptyString now cs) = kv cs.
Proof.
  unfold SetValue. simpl.
  destruct (getLastKeyTokenAndItsParentCacheStoreValue _ _ _ _)
    as [[klt [par|]] root]; [|done].
  destruct (0 <? Strs.len klt); [|done].
  by destruct (LoadChild par klt root).
Qed.

Lemma DeleteValue_kv key u t now cs :
  kv (DeleteValue key u t EmptyString now cs) = kv cs.
Proof.
  unfold DeleteValue. simpl.
  destruct (loadByKey key (rootValue cs)) as [csv|]; [|done].
  destruct (getNode csv (rootValue cs)) as [m|]; [|done].
  by destruct (valueExists m).
Qed.

(** X9: a [SetValue] or a [DeleteValue] of a key, made outside of any
    transaction, keeps every node of the tree that is not the node of the
    key, with its value, [valueExists], purge state, loss time, update time
    and sync flags; neither call writes to the bucket. *)
Theorem X9_write_keeps_other_nodes key v u t now cs q n :
  getNode q (rootValue cs) = Some n ->
  q <> Strs.Split key ->
  (exists n',
     getNode q (rootValue (SetValue key v u t EmptyString now cs)) = Some n'
     /\ ownFields n' = ownFields n)
  /\ (exists n',
        getNode q (rootValue (DeleteValue key u t EmptyString now cs)) = Some n'
        /\ ownFields n' = ownFields n)
  /\ kv (SetValue key v u t EmptyString now cs) = kv cs
  /\ kv (DeleteValue key u t EmptyString now cs) = kv cs.
Proof.
  intros Hn Hq. split_and!.
  - destruct (SetValue_keeps_nodes key v u t now cs q n Hn)
      as (n' & Hn' & Hf & _).
    exists n'. split; [done|]. apply Hf. by left.
  - pose proof (DeleteValue_keeps_nodes key u t now cs q Hq) as HD.
    rewrite Hn in HD. apply fmap_Some in HD as (n' & Hn' & Hf').
    exists n'. split; [done|congruence].
  - apply SetValue_kv.
  - apply DeleteValue_kv.
Qed.

End OtherKeys.

Lemma X9_write_keeps_other_nodes_witness :
  exists n',
    getNode ["a"] (rootValue (SetValue "b" new true 7 "" 7 e1)) = Some n'
    /\ ownFields n'
       = ownFields (mkCSV (Some old) true 0 ∅ 0 100 ∅ true false).
Proof.
  destruct (X9_write_keeps_other_nodes "b" new true 7 7 e1 ["a"]
              (mkCSV (Some old) true 0 ∅ 0 100 ∅ true false)) as (H & _).
  - by vm_compute.
  - by vm_compute.
  - exact H.
Defined.

(** ** The watcher: newer records, and the end of the backlog *)

Section WatcherMore.
Context {B : Type} `{KV : nats_KeyValue B}.
Implicit Types (cs : CacheStore B) (n : CacheStoreValue) (p q : ptr)
  (root : CacheStoreValue).

Lemma recordIsSet_frame t flag payload :
  recordIsSet (Wire.frame t flag payload) = Byte.eqb flag x01.
Proof. done. Qed.

(** X10: when the watcher receives, under the store key of a key whose
    last token is not empty, a record of flag 1 whose time is above the
    update time of the key in the cache, it does what [SetValue] does with
    the payload, the time of the record and [updateInKV = false]: the key
    then reads as the payload, has the time of the record, needs no sync
    and counts as synced, and the bucket is not written to. *)
Theorem X10_newer_record_is_taken key t payload now now' cs :
  0 < Strs.len (lastToken key) ->
  0 <= t < 2 ^ 63 ->
  GetValueUpdateTime key cs < t ->
  let entry := mkEntry (toStoreKey cs key) (Wire.frame t x01 payload) in
  let cs' := SetValue key payload false t EmptyString now cs in
  storeUpdatesHandler_entry (Some entry) now cs = Returns cs'
  /\ GetValue key now' cs' = Returns (payload, None, cs')
  /\ GetValueUpdateTime key cs' = t
  /\ (exists n, cachedNode key (rootValue cs') = Some n
        /\ syncNeeded n = false /\ syncedWithKV n = true)
  /\ kv cs' = kv cs.
Proof.
  intros Hlt Ht Hnew entry cs'.
  destruct (frame_decode t x01 payload ltac:(lia)) as (Hlen & Hflag & Htime & Hdrop).
  destruct (lastToken_snoc key) as [pre E].
  destruct (SetValue_node key pre (lastToken key) payload false t now cs E Hlt)
    as (n & Hn & Hv & He & Htm & Hs1 & Hs2).
  fold cs' in Hn.
  assert (Hc : cachedNode key (rootValue cs') = Some n).
  { rewrite (cachedNode_spec key pre _ _ E).
    apply Z.ltb_lt in Hlt. by rewrite Hlt. }
  split_and!.
  - destruct (storeUpdatesHandler_entry_framed entry now cs Hlen)
      as (flag & Hf & ->).
    assert (flag = x01) as -> by (simpl in Hf; congruence).
    unfold handleFramed. subst entry. cbn [entryKey entryValue].
    rewrite fromStoreKey_toStoreKey, Htime, Hdrop.
    apply Z.ltb_lt in Hnew. by rewrite Hnew.
  - by apply (SetValue_then_GetValue key pre (lastToken key)).
  - rewrite GetValueUpdateTime_cached, Hc. simpl. rewrite Htm.
    destruct (Z.ltb_spec t 0); [lia|done].
  - exists n. by split_and!.
  - apply SetValue_kv.
Qed.

Lemma confirmDelete_store n : store (confirmDelete n) = store n.
Proof.
  unfold confirmDelete, TryPurgeConfirm, TryPurgeReady. simpl.
  destruct (purgeState n =? 0); simpl; by destruct (negb _ && _ && _).
Qed.

Lemma confirmDelete_values n :
  value (confirmDelete n) = value n
  /\ valueExists (confirmDelete n) = valueExists n.
Proof.
  unfold confirmDelete, TryPurgeConfirm, TryPurgeReady. simpl.
  destruct (purgeState n =? 0); simpl; by destruct (negb _ && _ && _).
Qed.

Local Abbreviation valueOf := (fun n => (value n, valueExists n)).

Lemma ownFields_valueOf n n' : ownFields n' = ownFields n -> valueOf n' = valueOf n.
Proof. unfold ownFields. intros [= -> -> _ _ _ _ _]. done. Qed.

(** X11: whatever entry the watcher handles, every node of the tree is
    still in the tree afterwards, and it has the value and the
    [valueExists] it had, unless the entry is a record of the key of that
    very node, with flag 1 and a time above the update time of the key: then
    the node has the payload of the record as its value.  A delete made
    elsewhere never takes a value out of the cache. *)
Theorem X11_watcher_only_takes_newer_values entry now cs cs' q n :
  storeUpdatesHandler_entry entry now cs = Returns cs' ->
  getNode q (rootValue cs) = Some n ->
  exists n',
    getNode q (rootValue cs') = Some n'
    /\ ((value n' = value n /\ valueExists n' = valueExists n)
        \/ exists e,
             entry = Some e
             /\ q = Strs.Split (fromStoreKey cs (entryKey e))
             /\ recordIsSet (entryValue e) = true
             /\ GetValueUpdateTime (fromStoreKey cs (entryKey e)) cs
                < recordTime (entryValue e)
             /\ value n' = Some (drop 9 (entryValue e))
             /\ valueExists n' = true).
Proof.
  intros Hrun Hn.
  assert (Hview : forall root',
            valueOf <$> getNode q root' = valueOf <$> getNode q (rootValue cs) ->
            exists n', getNode q root' = Some n'
              /\ (value n' = value n /\ valueExists n' = valueExists n)).
  { intros root' Hv. rewrite Hn in Hv. apply fmap_Some in Hv as (n' & Hn' & Hf).
    exists n'. split; [done|]. by injection Hf as -> ->. }
  assert (Hsame : forall root', root' = rootValue cs ->
            exists n', getNode q root' = Some n'
              /\ ((value n' = value n /\ valueExists n' = valueExists n)
                  \/ exists e,
                       entry = Some e
                       /\ q = Strs.Split (fromStoreKey cs (entryKey e))
                       /\ recordIsSet (entryValue e) = true
                       /\ GetValueUpdateTime (fromStoreKey cs (entryKey e)) cs
                          < recordTime (entryValue e)
                       /\ value n' = Some (drop 9 (entryValue e))
                       /\ valueExists n' = true)).
  { intros root' ->. exists n. split; [done|by left]. }
  destruct entry as [e|].
  - destruct (Z.le_gt_cases 9 (Wire.len (entryValue e))) as [Hlen|Hlen].
    + destruct (storeUpdatesHandler_entry_framed e now cs Hlen)
        as (flag & Hflag & Hrun').
      rewrite Hrun' in Hrun. injection Hrun as <-.
      unfold handleFramed.
      destruct (Z.ltb_spec (GetValueUpdateTime (fromStoreKey cs (entryKey e)) cs)
                           (recordTime (entryValue e))) as [Hnew|Hold].
      * destruct (Byte.eqb flag x01) eqn:Ef; [|by apply Hsame].
        destruct (SetValue_keeps_nodes (fromStoreKey cs (entryKey e))
                    (drop 9 (entryValue e)) false (recordTime (entryValue e))
                    now cs q n Hn) as (n' & Hn' & Hother & Hkey).
        exists n'. split; [done|].
        destruct (decide (q = Strs.Split (fromStoreKey cs (entryKey e))))
          as [Hq|Hq];
          [destruct (Z.ltb_spec 0 (Strs.len (lastToken (fromStoreKey cs (entryKey e)))))
             as [Hl|Hl]|].
        -- right. exists e. destruct (Hkey Hq Hl) as [Hv He].
           split_and!; try done.
           unfold recordIsSet. by rewrite Hflag.
        -- left. apply ownFields_valueOf in Hother; [|by right].
           by injection Hother as -> ->.
        -- left. apply ownFields_valueOf in Hother; [|by left].
           by injection Hother as -> ->.
      * destruct (_ =? _); [|by apply Hsame].
        destruct (getNode (Strs.Split _) (rootValue cs)).
        -- destruct (Hview (update (Strs.Split (fromStoreKey cs (entryKey e)))
                              confirmSync (rootValue cs))) as (n' & Hn' & Hv).
           { apply (update_preserves_view valueOf confirmSync);
               [apply confirmSync_store| |done].
             intros m. by destruct (confirmSync_fields m) as (-> & -> & _). }
           exists n'. split; [|by left].
           by destruct (Byte.eqb flag x00).
        -- destruct (Byte.eqb flag x00); by apply Hsame.
    + unfold storeUpdatesHandler_entry in Hrun.
      destruct (Z.leb_spec 9 (Wire.len (entryValue e))); [lia|].
      destruct (Wire.len (entryValue e) =? 0).
      * destruct (getLastKeyCacheStoreValue _ _) as [csv|];
          injection Hrun as <-; [|by apply Hsame].
        destruct (Hview (update csv confirmDelete (rootValue cs)))
          as (n' & Hn' & Hv); [|exists n'; split; [done|by left]].
        apply (update_preserves_view valueOf confirmDelete);
          [apply confirmDelete_store| |done].
        intros m. by destruct (confirmDelete_values m) as (-> & ->).
      * injection Hrun as <-. by apply Hsame.
  - unfold storeUpdatesHandler_entry in Hrun.
    destruct (initChanClosed cs); [done|].
    injection Hrun as <-. by apply Hsame.
Qed.

(** A session of the watcher leaves [initChan] closed once it has met the
    nil entry, and an entry that is not nil leaves [initChanClosed] as it
    is. *)
Lemma storeUpdatesHandler_entry_initChan e now cs cs' :
  storeUpdatesHandler_entry (Some e) now cs = Returns cs' ->
  initChanClosed cs' = initChanClosed cs.
Proof.
  destruct (Z.le_gt_cases 9 (Wire.len (entryValue e))) as [Hlen|Hlen].
  - destruct (storeUpdatesHandler_entry_framed e now cs Hlen)
      as (flag & Hflag & ->).
    intros [= <-]. unfold handleFramed.
    destruct (_ <? _).
    + destruct (Byte.eqb flag x01); [|done].
      unfold SetValue. simpl.
      destruct (getLastKeyTokenAndItsParentCacheStoreValue _ _ _ _)
        as [[klt [par|]] root]; [|done].
      destruct (0 <? Strs.len klt); [|done].
      by destruct (LoadChild par klt root).
    + destruct (_ =? _); [|done].
      destruct (getNode _ _); by destruct (Byte.eqb flag x00).
  - unfold storeUpdatesHandler_entry.
    destruct (Z.leb_spec 9 (Wire.len (entryValue e))); [lia|].
    destruct (Wire.len (entryValue e) =? 0).
    + destruct (getLastKeyCacheStoreValue _ _); by intros [= <-].
    + by intros [= <-].
Qed.

(** X12: a session of the watcher that has met the nil entry, the end of
    the backlog, leaves [initChan] closed; any later session that meets a
    nil entry closes [initChan] again and panics. *)
Theorem X12_second_end_of_backlog_panics updates1 updates2 now1 now2 cs cs1 :
  storeUpdatesHandler_updates updates1 now1 cs = Returns cs1 ->
  None ∈ updates1 ->
  None ∈ updates2 ->
  initChanClosed cs1 = true
  /\ storeUpdatesHandler_updates updates2 now2 cs1
     = Panics "close of closed channel".
Proof.
  intros Hrun Hin1 Hin2.
  assert (Hclosed : forall updates now c c',
            storeUpdatesHandler_updates updates now c = Returns c' ->
            (initChanClosed c = true \/ None ∈ updates) ->
            initChanClosed c' = true).
  { intros updates now. induction updates as [|[e|] rest IH]; intros c c';
      cbn [storeUpdatesHandler_updates].
    - intros [= <-] [?|Hin]; [done|]. by apply elem_of_nil in Hin.
    - destruct (storeUpdatesHandler_entry (Some e) now c) as [c1|] eqn:He;
        [|intros; discriminate].
      intros Hr Hor. apply (IH c1 c' Hr).
      apply storeUpdatesHandler_entry_initChan in He. rewrite He.
      destruct Hor as [?|Hin]; [by left|right].
      by apply elem_of_cons in Hin as [?|?].
    - unfold storeUpdatesHandler_entry.
      destruct (initChanClosed c) eqn:Ec; [intros; discriminate|].
      intros Hr _. apply (IH _ c' Hr). by left. }
  assert (Hpanic : forall updates now c,
            initChanClosed c = true -> None ∈ updates ->
            storeUpdatesHandler_updates updates now c
            = Panics "close of closed channel").
  { intros updates now. induction updates as [|[e|] rest IH]; intros c Hc Hin.
    - by apply elem_of_nil in Hin.
    - cbn [storeUpdatesHandler_updates].
      destruct (storeUpdatesHandler_entry_returns e now c) as [c1 He].
      rewrite He. apply IH.
      + apply storeUpdatesHandler_entry_initChan in He. congruence.
      + by apply elem_of_cons in Hin as [?|?].
    - simpl. by rewrite Hc. }
  split.
  - apply (Hclosed updates1 now1 cs cs1 Hrun). by right.
  - apply Hpanic; [|done]. apply (Hclosed updates1 now1 cs cs1 Hrun). by right.
Qed.

End WatcherMore.

Lemma X10_newer_record_is_taken_witness :
  storeUpdatesHandler_entry
    (Some (mkEntry (toStoreKey s0 "a") (Wire.frame 100 x01 old))) 6 s0
  = Returns (SetValue "a" old false 100 "" 6 s0)
  /\ GetValueUpdateTime "a" (SetValue "a" old false 100 "" 6 s0) = 100.
Proof.
  destruct (X10_newer_record_is_taken "a" 100 old 6 7 s0) as (H1 & _ & H3 & _).
  - by vm_compute.
  - by vm_compute.
  - by vm_compute.
  - split; [exact H1|exact H3].
Defined.

Lemma X11_watcher_only_takes_newer_values_witness :
  exists n',
    getNode ["a"] (rootValue e2) = Some n'
    /\ ((value n' = Some old /\ valueExists n' = true)
        \/ exists e,
             Some echo = Some e
             /\ ["a"] = Strs.Split (fromStoreKey e1 (entryKey e))
             /\ recordIsSet (entryValue e) = true
             /\ GetValueUpdateTime (fromStoreKey e1 (entryKey e)) e1
                < recordTime (entryValue e)
             /\ value n' = Some (drop 9 (entryValue e))
             /\ valueExists n' = true).
Proof.
  apply (X11_watcher_only_takes_newer_values (Some echo) 6 e1 e2 ["a"]
           (mkCSV (Some old) true 0 ∅ 0 100 ∅ true false)).
  - by vm_compute.
  - by vm_compute.
Defined.

Lemma X12_second_end_of_backlog_panics_witness :
  initChanClosed s0 = true
  /\ storeUpdatesHandler_updates [None] 1 s0 = Panics "close of closed channel".
Proof.
  apply (X12_second_end_of_backlog_panics [None] [None] 0 1 cs0 s0).
  - by vm_compute.
  - by constructor.
  - by constructor.
Defined.

(** ** The lazy writer: what it sends, what it counts *)

Section WriterMore.
Context {B : Type} `{KV : nats_KeyValue B}.
Implicit Types (cs : CacheStore B) (n : CacheStoreValue) (p q : ptr)
  (root : CacheStoreValue).

(** X13: when the lazy writer runs its callback on a child that needs
    sync, it puts the record of the child under the store key of the path
    of the child.  If the put succeeds the child no longer needs sync and is
    otherwise as it was, every other node keeps its fields and nothing is
    printed; if the put fails the tree is as it was, so that the child
    still needs sync at the next pass, and the error is printed.  In both
    cases the child is pushed on the stack of the walk. *)
Theorem X13_dirty_child_is_sent par key suffix depth now stack cs n :
  getNode (par ++ [key]) (rootValue cs) = Some n ->
  syncNeeded n = true ->
  let cs' := (lazyWriter_child par suffix depth now (cs, stack) key).1 in
  match kvPut (kv cs) (toStoreKey cs (newSuffixOf suffix depth key))
              (finalBytesOf n) with
  | (bucket, None) =>
      kv cs' = bucket
      /\ getNode (par ++ [key]) (rootValue cs') = Some (set_syncNeeded false n)
      /\ (forall q, q <> par ++ [key] ->
            ownFields <$> getNode q (rootValue cs')
            = ownFields <$> getNode q (rootValue cs))
      /\ stdout cs' = stdout cs
  | (bucket, Some err) =>
      kv cs' = bucket
      /\ rootValue cs' = rootValue cs
      /\ stdout cs'
         = stdout cs ++ ["CacheStore kvLazyWriter cannot update key=" +:+ key
                         +:+ Strs.nl +:+ ": " +:+ err]
  end
  /\ (lazyWriter_child par suffix depth now (cs, stack) key).2
     = stack ++ [mkWalkItem (par ++ [key]) (newSuffixOf suffix depth key)
                            (depth + 1)].
Proof.
  intros Hn Hsync cs'. subst cs'.
  unfold lazyWriter_child, lazyWriter_mark. rewrite Hn, Hsync.
  unfold lazyWriter_put. rewrite Hn, Hsync.
  destruct (kvPut (kv cs) (toStoreKey cs (newSuffixOf suffix depth key))
                  (finalBytesOf n)) as [bucket [err|]]; simpl.
  - done.
  - split; [|done]. split_and!; [done| |intros q Hq|done].
    + rewrite getNode_update_same, Hn. simpl. by rewrite Z.eqb_refl.
    + apply (update_other_view ownFields); [|done|done].
      intros m. by destruct (_ =? _).
Qed.

(** The rounds of a walk record one time each, and there are as many of
    them as there are nodes below the pointers of the stack. *)
Lemma lazyWriter_walk_count fuel stack lruTimes now cs cs' lruTimes' :
  stackOK (itemCSV <$> stack) (rootValue cs) ->
  lazyWriter_walk fuel stack lruTimes now cs = Some (cs', lruTimes') ->
  length lruTimes'
  = (length lruTimes + pathsSize (itemCSV <$> stack) (rootValue cs))%nat.
Proof.
  revert stack lruTimes cs. induction fuel as [|fuel IH];
    intros stack lruTimes cs Hok; cbn [lazyWriter_walk].
  - destruct stack as [|top rest _] using rev_ind.
    + simpl. intros [= _ <-]. unfold pathsSize. simpl. lia.
    + by rewrite last_snoc.
  - destruct stack as [|top rest _] using rev_ind.
    + simpl. intros [= _ <-]. unfold pathsSize. simpl. lia.
    + rewrite last_snoc, removelast_last.
      destruct (lazyWriter_visit_spec top rest lruTimes now cs Hok)
        as (cs1 & stack1 & times1 & Hvisit & Hok1 & Hsize & _).
      rewrite Hvisit. intros Hw.
      apply (IH _ _ _ Hok1) in Hw.
      apply lazyWriter_visit_records in Hvisit as (m & _ & ->).
      rewrite length_app in Hw. simpl in Hw. lia.
Qed.

(** X14: with [lruSize] at least 1, a pass of the lazy writer returns and
    sets [valuesInCache] to the number of nodes the tree had when the pass
    began: the root, the nodes without a value and the nodes that the pass
    itself takes out of the tree are all counted. *)
Theorem X14_values_in_cache_counts_nodes now cs :
  0 < lruSize (cacheConfig cs) ->
  exists cs',
    kvLazyWriter_pass (nsize (rootValue cs)) now cs = Some (Returns cs')
    /\ valuesInCache cs' = Z.of_nat (nsize (rootValue cs)).
Proof.
  intros Hsize.
  destruct (lazyWriter_walk_terminates now cs) as (cs1 & lruTimes & Hw & Hcfg).
  assert (Hok : stackOK (itemCSV <$> [mkWalkItem [] EmptyString 0])
                         (rootValue cs)).
  { simpl. split_and!.
    - apply NoDup_singleton.
    - intros p q Hp Hq _. set_solver.
    - intros p Hp. apply list_elem_of_singleton in Hp as ->. simpl. eauto. }
  pose proof (lazyWriter_walk_count _ _ _ _ _ _ _ Hok Hw) as Hcount.
  assert (Hlen : length lruTimes = nsize (rootValue cs)).
  { rewrite Hcount. unfold pathsSize, subtreeSize. simpl. lia. }
  destruct (lazyWriter_finish_spec lruTimes cs1)
    as (cs' & Hfin & _ & _ & _ & Hc & _).
  - intros ->. simpl in Hlen. pose proof (nsize_pos (rootValue cs)). lia.
  - by rewrite Hcfg.
  - exists cs'. unfold kvLazyWriter_pass. rewrite Hw, Hfin.
    split; [done|]. by rewrite Hc, Hlen.
Qed.

(** X15: with [lruSize] 0 or below, every pass of the lazy writer walks
    the tree and then panics, on the index [lruSize - 1] of the recorded
    times. *)
Theorem X15_no_room_panics now cs :
  lruSize (cacheConfig cs) <= 0 ->
  kvLazyWriter_pass (nsize (rootValue cs)) now cs
  = Some (Panics "index out of range").
Proof.
  intros Hsize.
  destruct (lazyWriter_walk_terminates now cs) as (cs1 & lruTimes & Hw & Hcfg).
  unfold kvLazyWriter_pass. rewrite Hw. f_equal.
  unfold lazyWriter_finish. rewrite Hcfg.
  destruct (Z.ltb_spec (lruSize (cacheConfig cs))
                       (Z.of_nat (length (sortDesc lruTimes)))) as [_|Hge].
  - unfold indexZ.
    destruct (Z.ltb_spec (lruSize (cacheConfig cs) - 1) 0); [done|lia].
  - destruct (lazyWriter_walk_records_root _ _ _ _ _ Hw) as [more ->].
    rewrite sortDesc_length in Hge. simpl in Hge. lia.
Qed.

End WriterMore.

Lemma X13_dirty_child_is_sent_witness :
  getNode ["k1"] (rootValue (lazyWriter_child [] "" 0 10 (s1, []) "k1").1)
  = Some (mkCSV (Some (bytes_of "one")) true 0 ∅ 0 1 ∅ false false)
  /\ (lazyWriter_child [] "" 0 10 (s1, []) "k1").2
     = [mkWalkItem ["k1"] "k1" 1].
Proof.
  destruct (X13_dirty_child_is_sent [] "k1" "" 0 10 [] s1
              (mkCSV (Some (bytes_of "one")) true 0 ∅ 0 1 ∅ true false))
    as (H1 & H2).
  - by vm_compute.
  - done.
  - split; [|exact H2].
    destruct (kvPut (kv s1) (toStoreKey s1 (newSuffixOf "" 0 "k1"))
                (finalBytesOf
                   (mkCSV (Some (bytes_of "one")) true 0 ∅ 0 1 ∅ true false)))
      as [bucket [err|]] eqn:E.
    + vm_compute in E. discriminate E.
    + destruct H1 as (_ & H & _). exact H.
Defined.

Lemma X14_values_in_cache_counts_nodes_witness :
  exists cs',
    kvLazyWriter_pass (nsize (rootValue s3)) 20 s3 = Some (Returns cs')
    /\ valuesInCache cs' = Z.of_nat (nsize (rootValue s3)).
Proof.
  apply (X14_values_in_cache_counts_nodes 20 s3). by vm_compute.
Defined.

Lemma X15_no_room_panics_witness :
  kvLazyWriter_pass
    (nsize (rootValue (NewCacheStore (mkCacheConfig "store" 0 16) empty_bucket)))
    1 (NewCacheStore (mkCacheConfig "store" 0 16) empty_bucket)
  = Some (Panics "index out of range").
Proof.
  apply (X15_no_room_panics 1
           (NewCacheStore (mkCacheConfig "store" 0 16) empty_bucket)).
  by vm_compute.
Defined.

(** ** What holds of every node in every state *)

Section NodeInvariant.
Context {B : Type} `{KV : nats_KeyValue B}.
Implicit Types (cs : CacheStore B) (n : CacheStoreValue) (p q : ptr)
  (root : CacheStoreValue).

Variable P : CacheStoreValue -> Prop.
Hypothesis P_store : forall s n, P n -> P (set_store s n).
Hypothesis P_notify : forall s n, P n -> P (set_notifyUpdates s n).
Hypothesis P_loss : forall t n, P n -> P (set_lossTime t n).
Hypothesis P_Put : forall v u t n, P n -> P (Put_fields v u t n).
Hypothesis P_Delete : forall u t n, P n -> P (Delete_fields u t n).
Hypothesis P_new : forall v u t, P (newValueNode v u t).
Hypothesis P_routing : forall now, P (routingNode now).
Hypothesis P_ready : forall n, P n -> P (TryPurgeReady n).1.
Hypothesis P_confirm : forall n, P n -> P (TryPurgeConfirm n).1.
Hypothesis P_synced : forall n, P n -> P (set_syncedWithKV true n).
Hypothesis P_sent : forall n, P n -> P (set_syncNeeded false n).

Lemma allNodes_update f p root :
  (forall n, allNodes P n -> allNodes P (f n)) ->
  allNodes P root -> allNodes P (update p f root).
Proof.
  intros Hf. revert root. induction p as [|a p IH]; intros root Hroot; simpl.
  - by apply Hf.
  - destruct (store root !! a) as [c|] eqn:Ec; [|done].
    intros [|k q] n Hn; simpl in Hn.
    + injection Hn as <-. apply P_store. by apply (Hroot []).
    + destruct (decide (a = k)) as [->|Hne].
      * rewrite lookup_insert_eq in Hn.
        eapply (IH c); [|exact Hn].
        intros q' n' Hn'. apply (Hroot (k :: q')). simpl. by rewrite Ec.
      * rewrite lookup_insert_ne in Hn by done.
        apply (Hroot (k :: q)). done.
Qed.

(** A change of the fields of a node that keeps its children and keeps
    [P] keeps [P] on the tree. *)
Lemma allNodes_fields f n :
  store (f n) = store n -> (P n -> P (f n)) ->
  allNodes P n -> allNodes P (f n).
Proof.
  intros Hs Hp Hn [|k q] m Hm; simpl in Hm.
  - injection Hm as <-. apply Hp. by apply (Hn []).
  - rewrite Hs in Hm. by apply (Hn (k :: q)).
Qed.

Lemma allNodes_update_fields f p root :
  (forall n, store (f n) = store n) -> (forall n, P n -> P (f n)) ->
  allNodes P root -> allNodes P (update p f root).
Proof.
  intros Hs Hp. apply allNodes_update. intros n.
  apply allNodes_fields; [apply Hs|apply Hp].
Qed.

Lemma allNodes_leaf n : store n = ∅ -> P n -> allNodes P n.
Proof.
  intros Hs Hp [|k q] m Hm; simpl in Hm.
  - by injection Hm as <-.
  - by rewrite Hs in Hm.
Qed.

Lemma StoreChild_inv csv key child root :
  allNodes P child -> allNodes P root ->
  allNodes P (StoreChild csv key child root).
Proof.
  intros Hc. apply allNodes_update. intros n Hn [|k q] m Hm; simpl in Hm.
  - injection Hm as <-. apply P_notify, P_store. by apply (Hn []).
  - destruct (decide (key = k)) as [->|Hne].
    + rewrite lookup_insert_eq in Hm. by apply (Hc q).
    + rewrite lookup_insert_ne in Hm by done. by apply (Hn (k :: q)).
Qed.

Lemma removeChild_inv par k root :
  allNodes P root ->
  allNodes P (update par (fun x => set_store (delete k (store x)) x) root).
Proof.
  apply allNodes_update. intros n Hn [|k' q] m Hm; simpl in Hm.
  - injection Hm as <-. apply P_store. by apply (Hn []).
  - destruct (decide (k = k')) as [->|Hne].
    + by rewrite lookup_delete_eq in Hm.
    + rewrite lookup_delete_ne in Hm by done. by apply (Hn (k' :: q)).
Qed.

Lemma notify_inv par k v root :
  allNodes P root -> allNodes P (update par (notifySubscribers k v) root).
Proof. apply allNodes_update_fields; [done|]. intros n. apply P_notify. Qed.

Lemma Put_inv csv v u t now root :
  allNodes P root -> allNodes P (Put csv v u t now root).
Proof.
  intros Hroot. unfold Put.
  assert (H1 : allNodes P (update csv (Put_fields v u (if t <? 0 then now else t)) root)).
  { apply allNodes_update_fields; [done|apply P_Put|done]. }
  destruct (parent csv); [by apply notify_inv|done].
Qed.

Lemma Delete_inv csv u t now root :
  allNodes P root -> allNodes P (Delete csv u t now root).
Proof.
  intros Hroot. unfold Delete.
  assert (H1 : allNodes P (update csv (Delete_fields u (if t <? 0 then now else t)) root)).
  { apply allNodes_update_fields; [|apply P_Delete|done].
    intros n. by destruct u. }
  destruct (parent csv); [by apply notify_inv|done].
Qed.

Lemma raiseLoss_inv lossTime n : P n -> P (raiseLoss lossTime n).
Proof. unfold raiseLoss. destruct (_ <? _); [apply P_loss|done]. Qed.

Lemma ConsistencyLoss_up_inv d lossTime csv root :
  allNodes P root -> allNodes P (ConsistencyLoss_up d lossTime csv root).
Proof.
  revert csv root. induction d as [|d IH]; intros csv root Hroot; simpl.
  - apply allNodes_update_fields;
      [apply raiseLoss_store|apply raiseLoss_inv|done].
  - apply IH. apply allNodes_update_fields;
      [apply raiseLoss_store|apply raiseLoss_inv|done].
Qed.

Lemma lastKeyTokenLoop_inv tokens create now cur root :
  allNodes P root ->
  allNodes P (lastKeyTokenLoop tokens create now cur root).2.
Proof.
  revert cur root. induction tokens as [|k rest IH]; intros cur root Hroot.
  - done.
  - destruct rest as [|k' rest']; [done|].
    rewrite lastKeyTokenLoop_cons by done.
    destruct (LoadChild cur k root); [by apply IH|].
    destruct create; [|done].
    apply IH. apply StoreChild_inv; [|done].
    by apply allNodes_leaf.
Qed.

Lemma SetValue_inv key v u t id now cs :
  allNodes P (rootValue cs) -> allNodes P (rootValue (SetValue key v u t id now cs)).
Proof.
  intros Hroot. unfold SetValue.
  destruct (Strs.len id =? 0).
  - pose proof (lastKeyTokenLoop_inv (Strs.Split key) true now [] _ Hroot) as H1.
    unfold getLastKeyTokenAndItsParentCacheStoreValue.
    destruct (lastKeyTokenLoop _ _ _ _ _) as [[klt [par|]] root1]; [|done].
    simpl in H1.
    destruct (0 <? Strs.len klt); [|done].
    destruct (LoadChild par klt root1); simpl.
    + by apply Put_inv.
    + apply StoreChild_inv; [|done]. by apply allNodes_leaf.
  - by destruct (transactions cs !! id).
Qed.

Lemma DeleteValue_inv key u t id now cs :
  allNodes P (rootValue cs) -> allNodes P (rootValue (DeleteValue key u t id now cs)).
Proof.
  intros Hroot. unfold DeleteValue.
  destruct (Strs.len id =? 0).
  - destruct (loadByKey key (rootValue cs)) as [csv|]; [|done].
    destruct (getNode csv (rootValue cs)) as [m|]; [|done].
    destruct (valueExists m); [|done]. simpl. by apply Delete_inv.
  - by destruct (transactions cs !! id).
Qed.

Lemma SetValueIfDoesNotExist_inv key v u t now cs :
  allNodes P (rootValue cs) ->
  allNodes P (rootValue (SetValueIfDoesNotExist key v u t now cs).2).
Proof.
  intros Hroot. unfold SetValueIfDoesNotExist.
  pose proof (lastKeyTokenLoop_inv (Strs.Split key) true now [] _ Hroot) as H1.
  unfold getLastKeyTokenAndItsParentCacheStoreValue.
  destruct (lastKeyTokenLoop _ _ _ _ _) as [[klt [par|]] root1]; [|done].
  simpl in H1.
  destruct (0 <? Strs.len klt); [|done].
  destruct (LoadChild par klt root1) as [csv|]; simpl.
  - destruct (getNode csv root1) as [m|]; [|done].
    destruct (_ && _); [|done]. simpl. by apply Put_inv.
  - apply StoreChild_inv; [|done]. by apply allNodes_leaf.
Qed.

Lemma GetValue_inv key now cs res err cs' :
  GetValue key now cs = Returns (res, err, cs') ->
  allNodes P (rootValue cs) -> allNodes P (rootValue cs').
Proof.
  intros Hget Hroot. unfold GetValue in Hget.
  destruct (loadByKey key (rootValue cs) ≫= _) as [m|].
  - destruct (ValueExists m); by injection Hget as _ _ <-.
  - destruct (kvGet (kv cs) (toStoreKey cs key)) as [entry|e];
      [|by injection Hget as _ _ <-].
    destruct (Wire.slice_from_9 (entryValue entry)) as [r|]; [|done].
    simpl in Hget.
    destruct (9 <=? Wire.len (entryValue entry));
      [|by injection Hget as _ _ <-].
    destruct (Wire.index_8 (entryValue entry)) as [flag|]; [|done].
    destruct (Wire.slice_to_8 (entryValue entry)) as [tb|]; [|done].
    simpl in Hget.
    destruct (Byte.eqb flag x01); injection Hget as _ _ <-; [|done].
    by apply SetValue_inv.
Qed.

Lemma applyOperators_inv now ops cs :
  allNodes P (rootValue cs) ->
  allNodes P (rootValue (fold_left (applyOperator now) ops cs)).
Proof.
  revert cs. induction ops as [|op ops IH]; intros cs Hroot; [done|].
  cbn [fold_left]. apply IH. unfold applyOperator.
  destruct (operatorType op =? 0); [by apply SetValue_inv|].
  destruct (operatorType op =? 1); [by apply DeleteValue_inv|done].
Qed.

Lemma TransactionEnd_inv id now cs :
  allNodes P (rootValue cs) -> allNodes P (rootValue (TransactionEnd id now cs)).
Proof.
  intros Hroot. unfold TransactionEnd.
  destruct (transactions cs !! id) as [tx|]; [|done].
  destruct (_ =? 0); [|done]. simpl. by apply applyOperators_inv.
Qed.

Lemma TransactionBegin_inv id cs :
  allNodes P (rootValue cs) -> allNodes P (rootValue (TransactionBegin id cs)).
Proof.
  intros Hroot. unfold TransactionBegin.
  by destruct (transactions cs !! id).
Qed.

Lemma Subscribe_inv key id now cs :
  allNodes P (rootValue cs) ->
  allNodes P (rootValue (SubscribeLevelCallback key id now cs)).
Proof.
  intros Hroot. unfold SubscribeLevelCallback.
  pose proof (lastKeyTokenLoop_inv (Strs.Split key) true now [] _ Hroot) as H1.
  unfold getLastKeyTokenAndItsParentCacheStoreValue.
  destruct (lastKeyTokenLoop _ _ _ _ _) as [[klt [par|]] root1]; [|done].
  simpl in *. apply allNodes_update_fields; [done| |done].
  intros m. apply P_notify.
Qed.

Lemma Unsubscribe_inv key id cs :
  allNodes P (rootValue cs) ->
  allNodes P (rootValue (UnsubscribeLevelCallback key id cs)).
Proof.
  intros Hroot. unfold UnsubscribeLevelCallback.
  pose proof (lastKeyTokenLoop_inv (Strs.Split key) false 0 [] _ Hroot) as H1.
  unfold getLastKeyTokenAndItsParentCacheStoreValue.
  destruct (lastKeyTokenLoop _ _ _ _ _) as [[klt [par|]] root1]; [|done].
  simpl in *. apply allNodes_update_fields; [done| |done].
  intros m. apply P_notify.
Qed.

Lemma confirmSync_inv n : P n -> P (confirmSync n).
Proof. intros Hn. unfold confirmSync. by apply P_confirm, P_synced. Qed.

Lemma confirmDelete_inv n : P n -> P (confirmDelete n).
Proof.
  intros Hn. unfold confirmDelete. by apply P_confirm, P_ready, P_synced.
Qed.

Lemma storeUpdatesHandler_entry_inv entry now cs cs' :
  storeUpdatesHandler_entry entry now cs = Returns cs' ->
  allNodes P (rootValue cs) -> allNodes P (rootValue cs').
Proof.
  intros Hrun Hroot. destruct entry as [e|].
  - destruct (Z.le_gt_cases 9 (Wire.len (entryValue e))) as [Hlen|Hlen].
    + destruct (storeUpdatesHandler_entry_framed e now cs Hlen)
        as (flag & Hflag & Hrun').
      rewrite Hrun' in Hrun. injection Hrun as <-.
      unfold handleFramed. destruct (_ <? _).
      * destruct (Byte.eqb flag x01); [by apply SetValue_inv|done].
      * destruct (_ =? _); [|done].
        destruct (getNode (Strs.Split _) (rootValue cs)).
        -- assert (allNodes P (update (Strs.Split (fromStoreKey cs (entryKey e)))
                                  confirmSync (rootValue cs))).
           { apply allNodes_update_fields;
               [apply confirmSync_store|apply confirmSync_inv|done]. }
           by destruct (Byte.eqb flag x00).
        -- by destruct (Byte.eqb flag x00).
    + unfold storeUpdatesHandler_entry in Hrun.
      destruct (Z.leb_spec 9 (Wire.len (entryValue e))); [lia|].
      destruct (Wire.len (entryValue e) =? 0).
      * destruct (getLastKeyCacheStoreValue _ _) as [csv|];
          injection Hrun as <-; [|done].
        apply allNodes_update_fields;
          [apply confirmDelete_store|apply confirmDelete_inv|done].
      * by injection Hrun as <-.
  - unfold storeUpdatesHandler_entry in Hrun.
    destruct (initChanClosed cs); [done|]. by injection Hrun as <-.
Qed.

Lemma lruPurge_inv n : P n -> P (lruPurge n).
Proof. intros Hn. unfold lruPurge. by apply P_confirm, P_ready. Qed.

Lemma collectGarbage_purge_inv n : P n -> P (collectGarbage_purge n).
Proof.
  intros Hn. unfold collectGarbage_purge.
  destruct (_ && _); [by apply P_confirm, P_ready|done].
Qed.

Lemma collectGarbage_inv csv root :
  allNodes P root -> allNodes P (collectGarbage csv root).1.
Proof.
  intros Hroot. unfold collectGarbage.
  destruct (getNode csv root) as [n|] eqn:Hn; [|done].
  assert (H1 : allNodes P (update csv (fun _ => collectGarbage_purge n) root)).
  { rewrite (update_at csv (fun _ => collectGarbage_purge n)
               collectGarbage_purge root n Hn eq_refl).
    apply allNodes_update_fields;
      [apply collectGarbage_purge_store|apply collectGarbage_purge_inv|done]. }
  destruct (parent csv) as [par|]; [|done].
  destruct (canBeDeletedFromParent _); [|done]. simpl.
  by apply removeChild_inv.
Qed.

Lemma collectGarbageCS_inv csv cs :
  allNodes P (rootValue cs) -> allNodes P (rootValue (collectGarbageCS csv cs)).
Proof.
  intros Hroot. destruct (collectGarbageCS_root csv cs) as [-> _].
  by apply collectGarbage_inv.
Qed.

Lemma runPendingGC_inv cs :
  allNodes P (rootValue cs) -> allNodes P (rootValue (runPendingGC cs)).
Proof.
  intros Hroot. unfold runPendingGC.
  destruct (pendingGC cs) as [|csv rest]; [done|].
  by apply collectGarbageCS_inv.
Qed.

Lemma lazyWriter_child_inv par suffix depth now cs stack key :
  allNodes P (rootValue cs) ->
  allNodes P (rootValue (lazyWriter_child par suffix depth now (cs, stack) key).1).
Proof.
  intros Hroot. unfold lazyWriter_child.
  assert (Hmark : allNodes P (rootValue (lazyWriter_mark par key now cs).2)).
  { unfold lazyWriter_mark.
    destruct (getNode (par ++ [key]) (rootValue cs)) as [child|]; [|done].
    destruct (syncNeeded child); [done|].
    destruct (lruCold _ _); [|done]. simpl.
    apply allNodes_update_fields; [apply lruPurge_store|apply lruPurge_inv|].
    by apply ConsistencyLoss_up_inv. }
  destruct (lazyWriter_mark par key now cs) as [[t bytes] cs1]. simpl in *.
  unfold lazyWriter_put.
  destruct (getNode (par ++ [key]) (rootValue cs1)) as [child|]; [|done].
  destruct (syncNeeded child); [|done].
  destruct (kvPut _ _ _) as [bucket [err|]]; simpl; [done|].
  apply allNodes_update_fields; [| |done].
  - intros m. by destruct (_ =? _).
  - intros m Hm. destruct (_ =? _); [by apply P_sent|done].
Qed.

Lemma lazyWriter_children_inv par suffix depth now keys cs stack :
  allNodes P (rootValue cs) ->
  allNodes P (rootValue (fold_left (lazyWriter_child par suffix depth now)
                                   keys (cs, stack)).1).
Proof.
  revert cs stack. induction keys as [|k keys IH]; intros cs stack Hroot;
    cbn [fold_left]; [done|].
  pose proof (lazyWriter_child_inv par suffix depth now cs stack k Hroot) as Hk.
  destruct (lazyWriter_child par suffix depth now (cs, stack) k)
    as [cs1 stack1]. by apply IH.
Qed.

Lemma lazyWriter_visit_inv top stack lruTimes now cs cs' stack' lruTimes' :
  lazyWriter_visit top stack lruTimes now cs = Some (cs', stack', lruTimes') ->
  allNodes P (rootValue cs) -> allNodes P (rootValue cs').
Proof.
  unfold lazyWriter_visit. intros Hv Hroot.
  destruct (getNode (itemCSV top) (rootValue cs)) as [N|]; [|done].
  pose proof (lazyWriter_children_inv (itemCSV top) (itemSuffix top)
                (itemDepth top) now (map_to_list (store N)).*1 cs stack Hroot)
    as Hf.
  destruct (fold_left _ _ _) as [csF stackF]. cbn [fst] in Hf.
  destruct (bool_decide _); injection Hv as <- _ _; [|done].
  by apply collectGarbageCS_inv.
Qed.

Lemma lazyWriter_walk_inv fuel stack lruTimes now cs cs' lruTimes' :
  lazyWriter_walk fuel stack lruTimes now cs = Some (cs', lruTimes') ->
  allNodes P (rootValue cs) -> allNodes P (rootValue cs').
Proof.
  revert stack lruTimes cs. induction fuel as [|fuel IH];
    intros stack lruTimes cs; cbn [lazyWriter_walk].
  - destruct (last stack); [done|]. by intros [= <- _].
  - destruct (last stack) as [top|]; [|by intros [= <- _]].
    destruct (lazyWriter_visit top (removelast stack) lruTimes now cs)
      as [[[cs1 stack1] times1]|] eqn:Ev; [|done].
    intros Hw Hroot. eapply IH; [exact Hw|].
    eapply lazyWriter_visit_inv; [exact Ev|done].
Qed.

Lemma kvLazyWriter_pass_inv fuel now cs cs' :
  kvLazyWriter_pass fuel now cs = Some (Returns cs') ->
  allNodes P (rootValue cs) -> allNodes P (rootValue cs').
Proof.
  unfold kvLazyWriter_pass. intros Hp Hroot.
  destruct (lazyWriter_walk _ _ _ _ _) as [[cs1 lruTimes]|] eqn:Hw; [|done].
  pose proof (lazyWriter_walk_inv _ _ _ _ _ _ _ Hw Hroot) as H1.
  injection Hp as Hp. unfold lazyWriter_finish in Hp.
  destruct (if _ <? _ then _ else _) as [th|]; [|done].
  simpl in Hp. by injection Hp as <-.
Qed.

Lemma CompareAndSwapLossTime_inv old new n :
  P n -> P (CompareAndSwapLossTime old new n).
Proof. unfold CompareAndSwapLossTime. destruct (_ =? _); [apply P_loss|done]. Qed.

Lemma CompareAndSwapLossTime_store old new n :
  store (CompareAndSwapLossTime old new n) = store n.
Proof. unfold CompareAndSwapLossTime. by destruct (_ =? _). Qed.

Lemma GetKeysByPattern_inv fuel pattern cs keys cs' :
  GetKeysByPattern fuel pattern cs = Some (keys, cs') ->
  allNodes P (rootValue cs) -> allNodes P (rootValue cs').
Proof.
  unfold GetKeysByPattern. intros Hq Hroot.
  destruct (GetKeysByPattern_keys fuel pattern cs) as [[ks cs1]|] eqn:Hk;
    [|done].
  injection Hq as _ <-. unfold GetKeysByPattern_keys in Hk.
  assert (Hno : allNodes P (rootValue (GetKeysByPattern_noLevel pattern cs).2)).
  { by destruct (GetKeysByPattern_noLevel_store pattern cs) as [-> _]. }
  destruct (getLastKeyTokenAndItsParentCacheStoreValue _ _ _ _)
    as [[klt [par|]] root1];
    [|injection Hk as Hk; by rewrite Hk in Hno].
  destruct (0 <? Strs.len klt);
    [|injection Hk as Hk; by rewrite Hk in Hno].
  destruct (getNode par (rootValue cs)) as [PN|];
    [|injection Hk as Hk; by rewrite Hk in Hno].
  destruct (String.eqb klt "*").
  - injection Hk as Hk. apply (f_equal snd) in Hk. simpl in Hk. subst cs1.
    unfold GetKeysByPattern_star.
    destruct (starScan _ _) as [keys0 cons].
    destruct (0 <? _); [|done].
    destruct (appendKeysFromKV_store pattern keys0 cs) as [Hr _].
    destruct (appendKeysFromKV pattern keys0 cs) as [keys1 cs2]. simpl in *.
    unfold starRestore. destruct (_ && _); [|by rewrite Hr].
    apply allNodes_update_fields;
      [apply CompareAndSwapLossTime_store
      |apply CompareAndSwapLossTime_inv|by rewrite Hr].
  - destruct (String.eqb klt ">").
    + unfold GetKeysByPattern_gt in Hk.
      destruct (gtWalk _ _ _ _ _ _) as [[[keys0 allSub] inc]|]; [|done].
      destruct inc; [|by injection Hk as _ <-].
      destruct (appendKeysFromKV_store pattern keys0 cs) as [Hr _].
      destruct (appendKeysFromKV pattern keys0 cs) as [keys1 cs2]. simpl in *.
      destruct (bool_decide _); injection Hk as _ <-; [|by rewrite Hr].
      simpl. rewrite Hr. clear Hr.
      generalize (map_to_list allSub). intros l.
      revert Hroot. generalize (rootValue cs).
      induction l as [|[sp st] l IH]; intros r Hr; [done|].
      cbn [fold_left]. apply IH. simpl.
      apply allNodes_update_fields;
        [apply CompareAndSwapLossTime_store
        |apply CompareAndSwapLossTime_inv|done].
    + injection Hk as Hk. apply (f_equal snd) in Hk. simpl in Hk. subst cs1.
      by destruct (GetKeysByPattern_literal_store pattern klt par PN cs)
        as [-> _].
Qed.

Lemma step_inv cs cs' :
  step cs cs' -> allNodes P (rootValue cs) -> allNodes P (rootValue cs').
Proof.
  intros Hstep Hroot. destruct Hstep.
  - by apply SetValue_inv.
  - by apply DeleteValue_inv.
  - by apply SetValueIfDoesNotExist_inv.
  - by eapply GetValue_inv.
  - by eapply GetKeysByPattern_inv.
  - by apply TransactionBegin_inv.
  - by apply TransactionEnd_inv.
  - by apply Subscribe_inv.
  - by apply Unsubscribe_inv.
  - by eapply storeUpdatesHandler_entry_inv.
  - by eapply kvLazyWriter_pass_inv.
  - by apply runPendingGC_inv.
Qed.

Hypothesis P_root : P newRootValue.

(** A property of nodes that the root [NewCacheStore] allocates has and
    that every change the code makes to the fields of a node keeps holds
    of every node of every state the cache can be in. *)
Lemma reachable_inv cs : reachable cs -> allNodes P (rootValue cs).
Proof.
  induction 1 as [cfg bucket|cs cs' _ IH Hstep].
  - simpl. by apply allNodes_leaf.
  - by eapply step_inv.
Qed.


End NodeInvariant.

Section ReachableStates.
Context {B : Type} `{KV : nats_KeyValue B}.
Implicit Types (cs : CacheStore B) (n : CacheStoreValue) (q : ptr).

Lemma purgeStateOK_TryPurgeReady n :
  purgeStateOK n -> purgeStateOK (TryPurgeReady n).1.
Proof.
  unfold purgeStateOK, TryPurgeReady. intros [H1 H2].
  destruct (Z.eqb_spec (purgeState n) 0) as [E|E]; simpl; [|done].
  split; [tauto|]. intros; lia.
Qed.

Lemma purgeStateOK_TryPurgeConfirm n :
  purgeStateOK n -> purgeStateOK (TryPurgeConfirm n).1.
Proof.
  unfold TryPurgeConfirm. intros Hn.
  destruct (negb (syncNeeded n) && syncedWithKV n && (purgeState n =? 1))
    eqn:E; [|done].
  apply andb_true_iff in E as [E _]. apply andb_true_iff in E as [E1 E2].
  apply negb_true_iff in E1.
  split; [simpl; tauto|]. simpl. done.
Qed.

(** X16: in every state the cache can be in, the purge state of every
    node is 0, 1 or 2, and a node whose purge state is 2 needs no sync and
    is synced. *)
Theorem X16_purge_state_invariant cs q n :
  reachable cs ->
  getNode q (rootValue cs) = Some n ->
  (purgeState n = 0 \/ purgeState n = 1 \/ purgeState n = 2)
  /\ (purgeState n = 2 -> syncNeeded n = false /\ syncedWithKV n = true).
Proof.
  intros Hreach Hn.
  refine (reachable_inv purgeStateOK _ _ _ _ _ _ _ _ _ _ _ _ cs Hreach q n Hn).
  - done.
  - done.
  - done.
  - intros v u t m _. split; [by left|]. simpl. lia.
  - intros [] t m _; (split; [simpl; tauto|]); simpl; [lia|done].
  - intros v u t. split; [by left|]. simpl. lia.
  - intros now. split; [by left|]. simpl. lia.
  - apply purgeStateOK_TryPurgeReady.
  - apply purgeStateOK_TryPurgeConfirm.
  - intros m [H1 H2]. split; [done|]. simpl. intros E.
    by destruct (H2 E) as [-> _].
  - intros m [H1 H2]. split; [done|]. simpl. intros E.
    by destruct (H2 E) as [_ ->].
  - split; [by left|]. simpl. lia.
Qed.

(** X17: in every state the cache can be in, [valueExists] is true of a
    node exactly when the node holds a value. *)
Theorem X17_value_flag_invariant cs q n :
  reachable cs ->
  getNode q (rootValue cs) = Some n ->
  valueExists n = true <-> is_Some (value n).
Proof.
  intros Hreach Hn.
  refine (reachable_inv valueFlagOK _ _ _ _ _ _ _ _ _ _ _ _ cs Hreach q n Hn);
    unfold valueFlagOK.
  - done.
  - done.
  - done.
  - intros v u t m _. simpl. split; eauto.
  - intros [] t m _; simpl; (split; [done|by intros [? ?]]).
  - intros v u t. simpl. split; eauto.
  - intros now. simpl. split; [done|by intros [? ?]].
  - intros m Hm. unfold TryPurgeReady. by destruct (purgeState m =? 0).
  - intros m Hm. unfold TryPurgeConfirm. by destruct (negb _ && _ && _).
  - done.
  - done.
  - simpl. split; [done|by intros [? ?]].
Qed.

End ReachableStates.

Lemma X16_purge_state_invariant_witness :
  (purgeState (mkCSV (Some old) true 0 ∅ 0 100 ∅ true true) = 0
   \/ purgeState (mkCSV (Some old) true 0 ∅ 0 100 ∅ true true) = 1
   \/ purgeState (mkCSV (Some old) true 0 ∅ 0 100 ∅ true true) = 2)
  /\ (purgeState (mkCSV (Some old) true 0 ∅ 0 100 ∅ true true) = 2 ->
      syncNeeded (mkCSV (Some old) true 0 ∅ 0 100 ∅ true true) = false
      /\ syncedWithKV (mkCSV (Some old) true 0 ∅ 0 100 ∅ true true) = true).
Proof.
  apply (X16_purge_state_invariant e2 ["a"]).
  - apply reachable_e2.
  - by vm_compute.
Defined.

Lemma X17_value_flag_invariant_witness :
  valueExists (mkCSV (Some old) true 0 ∅ 0 100 ∅ true true) = true
  <-> is_Some (value (mkCSV (Some old) true 0 ∅ 0 100 ∅ true true)).
Proof.
  apply (X17_value_flag_invariant e2 ["a"]).
  - apply reachable_e2.
  - by vm_compute.
Defined.
